(** * Monte Carlo Localization (usc545mcl.py): a shallow embedding

    The development follows [usc545mcl.py]: the integer ray caster
    [_CastRay], the world/grid coordinate helpers, the simulated range
    computation, the sensor and motion updates of a [Particle], and the
    predict / update / resample cycle of [ParticleFilter].

    Conventions.
    - A grid cell is a pair [(x, y)] of [int32] components, as in the
      source ([p[0]] is the column, [p[1]] the row).
    - [float64] values are idealised as real numbers ([R]): rounding is
      left out.  Where the source relies on a floating-point effect, the
      effect is written out: a product that underflows to [0] ([fl]), a
      square root that is [nan] ([f64], [np_sqrt]), a division by a zero
      sum ([normalized]).  Statements keep clear of the places where
      rounding decides between two outcomes (the boundary between two
      cells, the threshold of underflow).
    - Random draws ([np.random.normal], [np.random.choice]) are inputs of
      the model: every function that samples takes the drawn values as an
      argument.
    - Python objects that are mutated or shared (particles, their poses,
      the grid) live in a store indexed by locations. *)

From Stdlib Require Import ZArith List Bool Lia.
From stdpp Require Import gmap list.
From Stdlib Require Import Reals Lra.

Local Open Scope Z_scope.

(** ** Machine integers *)

Definition wrap32 (z : Z) : Z := (z + 2 ^ 31) mod 2 ^ 32 - 2 ^ 31.

Definition is_int32 (z : Z) : Prop := - 2 ^ 31 <= z < 2 ^ 31.

Definition wrap64 (z : Z) : Z := (z + 2 ^ 63) mod 2 ^ 64 - 2 ^ 63.

(** ** Grid cells and the occupancy array *)

Definition cell : Type := Z * Z.

Definition int32_cell (p : cell) : Prop := is_int32 (fst p) /\ is_int32 (snd p).

(** [grid_data] is the [int8] array [np.asarray(data).reshape(rows, cols)]:
    [shape0] rows, [shape1] columns, stored row-major. *)
Record grid_data : Type := mk_grid_data {
  shape0 : Z;
  shape1 : Z;
  values : list Z
}.

(** [grid_data[r, c]] *)
Definition grid_at (g : grid_data) (r c : Z) : Z :=
  nth (Z.to_nat (r * shape1 g + c)) (values g) 0.

(** An index [i] into an axis of length [n], as numpy reads it. *)
Definition np_index (n i : Z) : option Z :=
  if (0 <=? i) && (i <? n) then Some i
  else if (- n <=? i) && (i <? 0) then Some (i + n)
  else None.

Definition free_cell : Z := 0.
Definition occupied_cell : Z := 100.
Definition unknown_cell : Z := -1.

(** [0 <= p[0] < grid_data.shape[1] and 0 <= p[1] < grid_data.shape[0]] *)
Definition in_bounds (g : grid_data) (p : cell) : bool :=
  (0 <=? fst p) && (fst p <? shape1 g) && (0 <=? snd p) && (snd p <? shape0 g).

(** ** [_CastRay] *)

Section CastRayLoop.
Variable grid : grid_data.
Variables inc delta : Z * Z.
Variable p1 : cell.

(** The body of [for i in range(n)]; [n] is the number of iterations
    left.  [p] is an [int32] array, so the stores into it wrap. *)
Fixpoint cast_loop (n : nat) (p last_p : cell) (error : Z) : cell :=
  match n with
  | O => p1
  | S n' =>
      if negb (in_bounds grid p) then last_p
      else if negb (grid_at grid (snd p) (fst p) =? 0) then p
      else if 0 <? error
           then cast_loop n' (wrap32 (fst p + fst inc), snd p) p (error - snd delta)
           else cast_loop n' (fst p, wrap32 (snd p + snd inc)) p (error + fst delta)
  end.
End CastRayLoop.

(** [n = 1 + np.sum(delta)] *)
Definition ray_steps (p0 p1 : cell) : Z :=
  1 + (Z.abs (fst p1 - fst p0) + Z.abs (snd p1 - snd p0)).

Definition ray_inc (p0 p1 : cell) : Z * Z :=
  (if fst p0 <? fst p1 then 1 else -1, if snd p0 <? snd p1 then 1 else -1).

(** [delta], [n], [inc] and [error] are [int64] values.  They are plain
    integers here: for [int32] cells none of them leaves the [int64] range
    ([_CastRay_int64] below, and [CastRay_int64_never_wraps]). *)
Definition _CastRay (p0 p1 : cell) (grid : grid_data) : cell :=
  let delta := (Z.abs (fst p1 - fst p0), Z.abs (snd p1 - snd p0)) in
  let p := p0 in
  let n := ray_steps p0 p1 in
  let inc := ray_inc p0 p1 in
  let error := fst delta - snd delta in
  let delta := (fst delta * 2, snd delta * 2) in
  let last_p := p in
  cast_loop grid inc delta p1 (Z.to_nat n) p last_p error.

(** *** [_CastRay] with its [int64] arithmetic written out *)

Section CastRayLoopInt64.
Variable grid : grid_data.
Variables inc delta : Z * Z.
Variable p1 : cell.

Fixpoint cast_loop_int64 (n : nat) (p last_p : cell) (error : Z) : cell :=
  match n with
  | O => p1
  | S n' =>
      if negb (in_bounds grid p) then last_p
      else if negb (grid_at grid (snd p) (fst p) =? 0) then p
      else if 0 <? error
           then cast_loop_int64 n' (wrap32 (fst p + fst inc), snd p) p
                                (wrap64 (error - snd delta))
           else cast_loop_int64 n' (fst p, wrap32 (snd p + snd inc)) p
                                (wrap64 (error + fst delta))
  end.
End CastRayLoopInt64.

Definition _CastRay_int64 (p0 p1 : cell) (grid : grid_data) : cell :=
  let delta := (wrap64 (Z.abs (wrap64 (fst p1 - fst p0))),
                wrap64 (Z.abs (wrap64 (snd p1 - snd p0)))) in
  let p := p0 in
  let n := wrap64 (1 + wrap64 (fst delta + snd delta)) in
  let inc := ray_inc p0 p1 in
  let error := wrap64 (fst delta - snd delta) in
  let delta := (wrap64 (fst delta * 2), wrap64 (snd delta * 2)) in
  let last_p := p in
  cast_loop_int64 grid inc delta p1 (Z.to_nat n) p last_p error.

(** *** The walk of [_CastRay], made observable

    [cast_run] is [_CastRay] with its loop instrumented: it records the
    cells on which the loop body runs, in order, and the [return] statement
    that ends the call. *)

Inductive exit_kind : Type :=
| ExitEdge     (* [return last_p]: the cell is outside the grid *)
| ExitHit      (* [return p]: the cell is not free *)
| ExitTarget.  (* [return p1]: the loop ran to its end *)

Record ray_run : Type := mk_ray_run {
  visited : list cell;
  exit : exit_kind;
  result : cell
}.

Section CastRayTrace.
Variable grid : grid_data.
Variables inc delta : Z * Z.
Variable p1 : cell.

Fixpoint cast_loop_run (n : nat) (p last_p : cell) (error : Z) : ray_run :=
  match n with
  | O => mk_ray_run [] ExitTarget p1
  | S n' =>
      if negb (in_bounds grid p) then mk_ray_run [p] ExitEdge last_p
      else if negb (grid_at grid (snd p) (fst p) =? 0) then mk_ray_run [p] ExitHit p
      else
        let r :=
          if 0 <? error
          then cast_loop_run n' (wrap32 (fst p + fst inc), snd p) p (error - snd delta)
          else cast_loop_run n' (fst p, wrap32 (snd p + snd inc)) p (error + fst delta)
        in mk_ray_run (p :: visited r) (exit r) (result r)
  end.
End CastRayTrace.

Definition cast_run (p0 p1 : cell) (grid : grid_data) : ray_run :=
  let delta := (Z.abs (fst p1 - fst p0), Z.abs (snd p1 - snd p0)) in
  cast_loop_run grid (ray_inc p0 p1) (fst delta * 2, snd delta * 2) p1
    (Z.to_nat (ray_steps p0 p1)) p0 p0 (fst delta - snd delta).

(** A grid whose [unknown] cells are replaced by [free] ones. *)
Definition unknown_as_free (g : grid_data) : grid_data :=
  mk_grid_data (shape0 g) (shape1 g)
    (map (fun v => if v =? unknown_cell then free_cell else v) (values g)).

Definition all_free (g : grid_data) : Prop :=
  forall p, in_bounds g p = true -> grid_at g (snd p) (fst p) = free_cell.

(** ** Real-valued helpers *)

(** A [float64] that may be [nan]: the simulated ranges and the weights.
    A number is written as it is. *)
Inductive f64 : Type :=
| Finite (x : R)
| NaN.

Coercion Finite : R >-> f64.

Section Reals.
Local Open Scope R_scope.

Definition LINEAR_MODEL_VAR_X : R := 0.5.
Definition LINEAR_MODEL_VAR_Y : R := 0.5.
Definition ANGULAR_MODEL_VAR : R := 0.3.
Definition SENSOR_MODEL_VAR : R := 15.

Definition vec2 : Type := R * R.

Definition vadd (a b : vec2) : vec2 := (fst a + fst b, snd a + snd b).
Definition vsub (a b : vec2) : vec2 := (fst a - fst b, snd a - snd b).
Definition vscale (k : R) (a : vec2) : vec2 := (k * fst a, k * snd a).
Definition vdiv (a : vec2) (k : R) : vec2 := (fst a / k, snd a / k).

(** Rounding toward zero, the conversion that [astype(np.int32)] applies
    to a [float64] whose value lies in the [int32] range.  Outside that
    range the conversion is not specified; statements about [astype_int32]
    carry the range as a hypothesis. *)
Definition trunc (x : R) : Z := if Rle_dec 0 x then Zfloor x else Zceil x.

Definition astype_int32 (a : vec2) : cell := (trunc (fst a), trunc (snd a)).

Definition in_int32_range (x : R) : Prop := - 2 ^ 31 < x < 2 ^ 31.

(** [RotateBy(x, angle)]: the product of the rotation matrix with [x]. *)
Definition RotateBy (x : vec2) (angle : R) : vec2 :=
  let c := cos angle in
  let s := sin angle in
  (c * fst x + - s * snd x, s * fst x + c * snd x).

Definition sum_list (l : list R) : R := fold_right Rplus 0 l.
Definition prod_list (l : list R) : R := fold_right Rmult 1 l.

(** [np.linspace(start, stop, num)] *)
Definition linspace (start stop : R) (num : nat) : list R :=
  match num with
  | O => []
  | S O => [start]
  | S (S _) =>
      let step := (stop - start) / INR (num - 1) in
      map (fun i => start + INR i * step) (seq 0 num)
  end.

(** [np.sqrt(x)]: [nan] for a negative number. *)
Definition np_sqrt (x : R) : f64 := if Rlt_dec x 0 then NaN else Finite (sqrt x).

(** [k * v] for a number [k]. *)
Definition f64_scale (k : R) (v : f64) : f64 :=
  match v with
  | Finite x => Finite (k * x)
  | NaN => NaN
  end.

(** Underflow.  The smallest positive [float64] is [2^-1074]; a result of
    at most half of it is rounded to [0].  [fl] is that effect alone: any
    other result is kept exact. *)
Definition fl (x : R) : R := if Rle_dec (Rabs x) (/ 2 ^ 1075) then 0 else x.

(** [a * b] on [float64] values: [nan] if one of them is, and [0] if the
    product underflows. *)
Definition fmul (a b : f64) : f64 :=
  match a, b with
  | Finite x, Finite y => Finite (fl (x * y))
  | _, _ => NaN
  end.

(** [_ComputeSimulatedRanges]: one ray per beam, from the particle's cell
    to the cell at maximal range; the hit cell is turned back into a
    distance in cells.  [hit_cell - src_cell] and its square are [int32]
    arrays: a square that wraps can make the sum negative, and its root
    [nan]. *)
Definition _ComputeSimulatedRanges (scan_angles : list R) (scan_range_max : R)
    (world_t_map map_t_particle : vec2) (map_R_particle : R)
    (grid : grid_data) (grid_resolution : R) : list f64 :=
  let src_cell := astype_int32 (vdiv (vsub map_t_particle world_t_map) grid_resolution) in
  let angles := map (fun a => a + map_R_particle) scan_angles in
  let max_points :=
    map (fun a => vadd map_t_particle (vscale scan_range_max (cos a, sin a))) angles in
  let max_cells :=
    map (fun pt => astype_int32 (vdiv (vsub pt world_t_map) grid_resolution)) max_points in
  let simulated_cell_ranges_sq :=
    map (fun max_cell =>
           let hit_cell := _CastRay src_cell max_cell grid in
           let dx := wrap32 (fst hit_cell - fst src_cell) in
           let dy := wrap32 (snd hit_cell - snd src_cell) in
           IZR (wrap32 (dx * dx) + wrap32 (dy * dy))) max_cells in
  map (fun sq => f64_scale grid_resolution (np_sqrt sq)) simulated_cell_ranges_sq.

(** The likelihood of one beam, as [Particle.UpdateScan] computes it. *)
Definition beam_likelihood (range sim_range : R) : R :=
  (1 / (sqrt (2 * PI) * SENSOR_MODEL_VAR)) *
  exp (- 0.5 * ((range - sim_range) / SENSOR_MODEL_VAR) ^ 2).

(** The likelihood of a beam whose simulated range may be [nan]. *)
Definition beam_likelihood_f64 (range : R) (sim_range : f64) : f64 :=
  match sim_range with
  | Finite s => Finite (beam_likelihood range s)
  | NaN => NaN
  end.


(** [rospy.Duration.to_sec]: stamps are counted in nanoseconds. *)
Definition to_sec (d : Z) : R := IZR d / 1000000000.
End Reals.

Definition NUM_PARTICLES : nat := 2000.

(** ** Messages *)

Record Odometry : Type := mk_Odometry {
  odom_stamp : Z;
  linear_x : R;
  linear_y : R;
  angular_z : R
}.

Record LaserScan : Type := mk_LaserScan {
  scan_stamp : Z;
  angle_min : R;
  angle_max : R;
  msg_range_max : R;
  msg_ranges : list R
}.

(** The standard normal draws behind the three [np.random.normal] calls of
    one [Particle.UpdateOdom]: [np.random.normal(m, s)] is [m + s * z]. *)
Record odom_noise : Type := mk_odom_noise {
  z_x : R;
  z_y : R;
  z_w : R
}.

(** The draws of one [Particle.__init__]: the positions that
    [np.random.uniform(ll, ul)] returns, in the order in which the loop asks
    for them, and the heading that [np.random.uniform(-np.pi, np.pi)]
    returns. *)
Record init_draws : Type := mk_init_draws {
  positions : list vec2;
  heading : R
}.

(** ** Objects *)

Definition loc : Type := positive.

Module Pose.
Record t : Type := mk {
  rotation : R;
  translation : vec2
}.
End Pose.

Module Grid.
(** The origin pose [world_T_map] belongs to the grid alone and is kept
    inside it. *)
Record t : Type := mk {
  cols : Z;
  rows : Z;
  resolution : R;
  map_t_extents : vec2;
  world_T_map : Pose.t;
  data : grid_data
}.

Definition GridToWorld (self : t) (cell_index : vec2) : vec2 :=
  vadd (vscale (resolution self) cell_index) (Pose.translation (world_T_map self)).

(** The quotient is exact here, where the source rounds it to a [float64]
    before it is truncated.  For a point on the boundary between two cells
    the rounding decides the cell: statements on which cell a point falls
    in are made of [WorldToGrid_rounded], below, which carries the
    rounding error.  The resolution is not [0]: a division by [0] is [inf]
    or [nan] in the source, and no statement is made of it. *)
Definition WorldToGrid (self : t) (point : vec2) : cell :=
  astype_int32 (vdiv (vsub point (Pose.translation (world_T_map self))) (resolution self)).

(** [self.data[y, x]] follows the index rules of numpy: a negative index
    counts from the end, and an index outside the array raises [IndexError]
    ([None] here). *)
Definition GetWorldCoords (self : t) (point : vec2) : option Z :=
  let c := WorldToGrid self point in
  match np_index (shape0 (data self)) (snd c), np_index (shape1 (data self)) (fst c) with
  | Some row, Some col => Some (grid_at (data self) row col)
  | _, _ => None
  end.

(** [WorldToGrid] with the rounding of the quotient written out: the
    [float64] quotient that the source truncates is the exact quotient
    plus [err]. *)
Definition WorldToGrid_rounded (self : t) (err : vec2) (point : vec2) : cell :=
  astype_int32
    (vadd (vdiv (vsub point (Pose.translation (world_T_map self))) (resolution self)) err).

(** [GetWorldCoords] on the cell of the rounded quotient. *)
Definition GetWorldCoords_rounded (self : t) (err : vec2) (point : vec2) : option Z :=
  let c := WorldToGrid_rounded self err point in
  match np_index (shape0 (data self)) (snd c), np_index (shape1 (data self)) (fst c) with
  | Some row, Some col => Some (grid_at (data self) row col)
  | _, _ => None
  end.
End Grid.

Module Scan.
Record t : Type := mk {
  range_max : R;
  angles : list R;
  ranges : list R
}.

Definition init (scan_msg : LaserScan) : t :=
  mk (msg_range_max scan_msg)
     (linspace (angle_min scan_msg) (angle_max scan_msg) (length (msg_ranges scan_msg)))
     (msg_ranges scan_msg).
End Scan.

Module Particle.
Record t : Type := mk {
  grid : loc;
  map_T_particle : loc;
  last_odom_timestamp : option Z;
  weight : f64
}.
End Particle.

Module ParticleFilter.
Record t : Type := mk {
  grid : loc;
  last_timestamp : option Z;
  particles : list loc
}.
End ParticleFilter.

(** ** The store *)

Record heap : Type := mk_heap {
  particle_objs : gmap loc Particle.t;
  pose_objs : gmap loc Pose.t;
  grid_objs : gmap loc Grid.t;
  filter_objs : gmap loc ParticleFilter.t
}.

Inductive exn : Type := IndexError | ValueError | TypeError.

(** How a call ends.  [NoObject] is a reference that the store does not
    hold; the interpreter never produces one.  [OutOfDraws] is a sampling
    loop that has rejected every draw it was given and would go on. *)
Inductive outcome (A : Type) : Type :=
| Returned (a : A)
| Raised (e : exn)
| NoObject
| OutOfDraws.
Arguments Returned {A} a.
Arguments Raised {A} e.
Arguments NoObject {A}.
Arguments OutOfDraws {A}.

Definition M (A : Type) : Type := heap -> outcome A * heap.

Definition ret {A} (a : A) : M A := fun h => (Returned a, h).

Definition bind {A B} (m : M A) (k : A -> M B) : M B :=
  fun h =>
    match m h with
    | (Returned a, h') => k a h'
    | (Raised e, h') => (Raised e, h')
    | (NoObject, h') => (NoObject, h')
    | (OutOfDraws, h') => (OutOfDraws, h')
    end.

Definition raise {A} (e : exn) : M A := fun h => (Raised e, h).

Notation "'do' x <- m ; k" := (bind m (fun x => k))
  (at level 10, x name, m at level 100, k at level 200).
Notation "'do_' m ; k" := (bind m (fun _ => k))
  (at level 10, m at level 100, k at level 200).

Definition read {A} (field : heap -> gmap loc A) (l : loc) : M A :=
  fun h => match field h !! l with
           | Some a => (Returned a, h)
           | None => (NoObject, h)
           end.

Definition get_particle : loc -> M Particle.t := read particle_objs.
Definition get_pose : loc -> M Pose.t := read pose_objs.
Definition get_grid : loc -> M Grid.t := read grid_objs.
Definition get_filter : loc -> M ParticleFilter.t := read filter_objs.

Definition set_particle (l : loc) (p : Particle.t) : M unit :=
  fun h => (Returned tt,
            mk_heap (<[l := p]> (particle_objs h)) (pose_objs h) (grid_objs h) (filter_objs h)).

Definition set_pose (l : loc) (q : Pose.t) : M unit :=
  fun h => (Returned tt,
            mk_heap (particle_objs h) (<[l := q]> (pose_objs h)) (grid_objs h) (filter_objs h)).

Definition set_filter (l : loc) (f : ParticleFilter.t) : M unit :=
  fun h => (Returned tt,
            mk_heap (particle_objs h) (pose_objs h) (grid_objs h) (<[l := f]> (filter_objs h))).

(** Allocation: a new object gets a location that no object of the store
    has. *)
Definition new_particle (p : Particle.t) : M loc :=
  fun h => let l := fresh (dom (particle_objs h)) in
           (Returned l,
            mk_heap (<[l := p]> (particle_objs h)) (pose_objs h) (grid_objs h) (filter_objs h)).

Definition new_pose (q : Pose.t) : M loc :=
  fun h => let l := fresh (dom (pose_objs h)) in
           (Returned l,
            mk_heap (particle_objs h) (<[l := q]> (pose_objs h)) (grid_objs h) (filter_objs h)).

Definition new_grid (g : Grid.t) : M loc :=
  fun h => let l := fresh (dom (grid_objs h)) in
           (Returned l,
            mk_heap (particle_objs h) (pose_objs h) (<[l := g]> (grid_objs h)) (filter_objs h)).

Definition new_filter (f : ParticleFilter.t) : M loc :=
  fun h => let l := fresh (dom (filter_objs h)) in
           (Returned l,
            mk_heap (particle_objs h) (pose_objs h) (grid_objs h) (<[l := f]> (filter_objs h))).

(** [l[i]] on a Python list or array, for [0 <= i]. *)
Definition index {A} (l : list A) (i : nat) : M A :=
  match l !! i with
  | Some a => ret a
  | None => raise IndexError
  end.

(** [for x in l: body(x)] *)
Fixpoint for_each {A} (body : A -> M unit) (l : list A) : M unit :=
  match l with
  | [] => ret tt
  | x :: l' => do_ body x; for_each body l'
  end.

(** [acc = []; for x in l: acc.append(f(x))] *)
Fixpoint collect {A B} (f : A -> M B) (l : list A) : M (list B) :=
  match l with
  | [] => ret []
  | x :: l' => do y <- f x; do ys <- collect f l'; ret (y :: ys)
  end.

(** ** [Particle] *)

Section ParticleMethods.
Local Open Scope R_scope.

(** The loop [while not found] of [Particle.__init__]: the drawn positions
    are tried in turn, and the first one on a free cell ends the loop. *)
Fixpoint sample_free (grid : Grid.t) (positions : list vec2) : M vec2 :=
  match positions with
  | [] => fun h => (OutOfDraws, h)
  | translation :: positions' =>
      match Grid.GetWorldCoords grid translation with
      | None => raise IndexError
      | Some v => if (v =? 0)%Z then ret translation else sample_free grid positions'
      end
  end.

(** [Particle.__init__(grid, weight=weight)], with [map_T_particle] left to
    be sampled. *)
Definition Particle_init (grid : loc) (draws : init_draws) (weight : R) : M loc :=
  do g <- get_grid grid;
  do translation <- sample_free g (positions draws);
  do map_T_particle <- new_pose (Pose.mk (heading draws) translation);
  new_particle (Particle.mk grid map_T_particle None weight).

Definition Particle_UpdateOdom (self : loc) (odom_msg : Odometry) (z : odom_noise)
    : M unit :=
  do me <- get_particle self;
  let dt := match Particle.last_odom_timestamp me with
            | Some t => to_sec (odom_stamp odom_msg - t)
            | None => 0
            end in
  do_ set_particle self
        (Particle.mk (Particle.grid me) (Particle.map_T_particle me)
                     (Some (odom_stamp odom_msg)) (Particle.weight me));
  let velx := linear_x odom_msg + LINEAR_MODEL_VAR_X * z_x z in
  let vely := linear_y odom_msg + LINEAR_MODEL_VAR_Y * z_y z in
  let vel_local := (velx, vely) in
  do pose <- get_pose (Particle.map_T_particle me);
  let vel_map := RotateBy vel_local (Pose.rotation pose) in
  do_ set_pose (Particle.map_T_particle me)
        (Pose.mk (Pose.rotation pose) (vadd (Pose.translation pose) (vscale dt vel_map)));
  let velrot := angular_z odom_msg + ANGULAR_MODEL_VAR * z_w z in
  do pose <- get_pose (Particle.map_T_particle me);
  set_pose (Particle.map_T_particle me)
    (Pose.mk (Pose.rotation pose + velrot * dt) (Pose.translation pose)).

Definition Particle_ComputeSimulatedRanges (self : loc) (scan : Scan.t) : M (list f64) :=
  do me <- get_particle self;
  do pose <- get_pose (Particle.map_T_particle me);
  do grid <- get_grid (Particle.grid me);
  ret (_ComputeSimulatedRanges (Scan.angles scan) (Scan.range_max scan)
         (Pose.translation (Grid.world_T_map grid))
         (Pose.translation pose) (Pose.rotation pose)
         (Grid.data grid) (Grid.resolution grid)).

(** [for i in range(len(scan.ranges))]: the beams are read in step from
    [scan.ranges] and [sim_ranges]; the product may underflow. *)
Fixpoint likelihood_loop (ranges : list R) (sim_ranges : list f64) (weights : f64)
    : M f64 :=
  match ranges with
  | [] => ret weights
  | r :: ranges' =>
      match sim_ranges with
      | [] => raise IndexError
      | s :: sim_ranges' =>
          let p := beam_likelihood_f64 r s in
          likelihood_loop ranges' sim_ranges' (fmul weights p)
      end
  end.

(** The guard on the product: a product that is [0] is replaced, any
    other is scaled; [nan == 0] is false, and [nan * 10**300] is [nan]. *)
Definition guard_weight (weights : f64) : f64 :=
  match weights with
  | Finite w => if Req_dec_T w 0 then Finite (/ 10 ^ 300) else Finite (w * 10 ^ 300)
  | NaN => NaN
  end.

(** For a scan without beams [weights] stays the Python integer [1], and
    the weight that is stored is the Python integer [10**300].  As a number
    it is [10^300]; that it is an integer shows in the resampling section
    of the same scan event only (see [resampling_section]). *)
Definition Particle_UpdateScan (self : loc) (scan : Scan.t) : M unit :=
  do sim_ranges <- Particle_ComputeSimulatedRanges self scan;
  do weights <- likelihood_loop (Scan.ranges scan) sim_ranges 1;
  let weights := guard_weight weights in
  do me <- get_particle self;
  set_particle self
    (Particle.mk (Particle.grid me) (Particle.map_T_particle me)
                 (Particle.last_odom_timestamp me) weights).

(** [copy.deepcopy(particle)]: the particle, its grid and its pose are
    copied into new objects, attribute by attribute. *)
Definition deepcopy (particle : loc) : M loc :=
  do me <- get_particle particle;
  do grid <- get_grid (Particle.grid me);
  do grid' <- new_grid grid;
  do pose <- get_pose (Particle.map_T_particle me);
  do pose' <- new_pose pose;
  new_particle (Particle.mk grid' pose' (Particle.last_odom_timestamp me)
                            (Particle.weight me)).
End ParticleMethods.

(** ** [ParticleFilter] *)

Section ParticleFilterMethods.
Local Open Scope R_scope.

(** [ParticleFilter.__init__(grid, num_particles)]; [draws i] are the draws
    of the [i]-th particle.  The publishers are outside the model. *)
Definition ParticleFilter_init (grid : loc) (num_particles : nat)
    (draws : nat -> init_draws) : M loc :=
  do particles <- collect (fun i => Particle_init grid (draws i) 1) (seq 0 num_particles);
  new_filter (ParticleFilter.mk grid None particles).

(** [if self.last_timestamp is None: self.last_timestamp = stamp] *)
Definition init_timestamp (self : loc) (stamp : Z) : M unit :=
  do me <- get_filter self;
  match ParticleFilter.last_timestamp me with
  | None => set_filter self
              (ParticleFilter.mk (ParticleFilter.grid me) (Some stamp)
                                 (ParticleFilter.particles me))
  | Some _ => ret tt
  end.

(** Every particle moves with its own noise draw [noise i]. *)
Definition ParticleFilter_UpdateOdom (self : loc) (odom_msg : Odometry)
    (noise : nat -> odom_noise) : M unit :=
  do_ init_timestamp self (odom_stamp odom_msg);
  do me <- get_filter self;
  let particles := ParticleFilter.particles me in
  for_each (fun ip => Particle_UpdateOdom (snd ip) odom_msg (noise (fst ip)))
           (combine (seq 0 (length particles)) particles).

(** The numbers of a list, when none of its values is [nan]. *)
Fixpoint numbers (l : list f64) : option (list R) :=
  match l with
  | [] => Some []
  | Finite x :: l' => match numbers l' with
                      | Some xs => Some (x :: xs)
                      | None => None
                      end
  | NaN :: _ => None
  end.

(** [prob / np.sum(prob)] for weights that are [float64] values.  With a
    [nan] among them, or with a zero sum, the quotients are [nan] or
    infinite; [None] stands for such an array. *)
Definition normalized (prob : list f64) : option (list R) :=
  match numbers prob with
  | Some prob =>
      let total := sum_list prob in
      if Req_dec_T total 0 then None else Some (map (fun w => w / total) prob)
  | None => None
  end.

(** [np.random.choice(a, size, p=p)] returns the drawn indices [drawn],
    after it has checked [p]: one entry per index, none of them [nan],
    infinite or negative. *)
Definition random_choice (a size : nat) (p : option (list R)) (drawn : list nat)
    : M (list nat) :=
  match p with
  | None => raise ValueError
  | Some p =>
      if bool_decide (length p = a)
         && forallb (fun x => if Rlt_dec x 0 then false else true) p
      then ret drawn
      else raise ValueError
  end.

(** What [np.random.choice(a, size, p=...)] guarantees of its result. *)
Definition choice_result (a size : nat) (drawn : list nat) : Prop :=
  length drawn = size /\ Forall (fun i => (i < a)%nat) drawn.

(** [self.particles[i] = x] *)
Definition set_particles_item (self : loc) (i : nat) (x : loc) : M unit :=
  do me <- get_filter self;
  let particles := ParticleFilter.particles me in
  if bool_decide (i < length particles)%nat
  then set_filter self
         (ParticleFilter.mk (ParticleFilter.grid me) (ParticleFilter.last_timestamp me)
                            (<[i := x]> particles))
  else raise IndexError.

(** [self.particles[i]] *)
Definition particles_item (self : loc) (i : nat) : M loc :=
  do me <- get_filter self;
  index (ParticleFilter.particles me) i.

(** The importance sampling section of [ParticleFilter.UpdateScan], on
    weights that are [float64] values. *)
Definition Resample (self : loc) (drawn : list nat) : M unit :=
  do prob <- collect (fun i => do particle <- particles_item self i;
                               do p <- get_particle particle;
                               ret (Particle.weight p))
                     (seq 0 NUM_PARTICLES);
  let prob := normalized prob in
  do new_indices <- random_choice NUM_PARTICLES NUM_PARTICLES prob drawn;
  do new_particles <- collect (fun i => do j <- index new_indices i;
                                        do particle <- particles_item self j;
                                        deepcopy particle)
                              (seq 0 NUM_PARTICLES);
  for_each (fun i => do x <- index new_particles i;
                     set_particles_item self i x)
           (seq 0 NUM_PARTICLES).

(** The weight of the [i]-th particle, as the first loop of the
    importance sampling section reads it. *)
Definition read_weight (self : loc) (i : nat) : M f64 :=
  do particle <- particles_item self i;
  do p <- get_particle particle;
  ret (Particle.weight p).

(** The importance sampling section after the sensor update with [scan].
    With a beam in the scan the weights are [float64] values.  Without
    beams every weight is the Python integer [10**300]: [np.sum(prob)] is
    then a Python integer, and [prob / np.sum(prob)] divides a list by it,
    which raises [TypeError]. *)
Definition resampling_section (scan : Scan.t) (self : loc) (drawn : list nat)
    : M unit :=
  match Scan.ranges scan with
  | [] => do_ collect (read_weight self) (seq 0 NUM_PARTICLES);
          raise TypeError
  | _ :: _ => Resample self drawn
  end.

(** The sensor update of [ParticleFilter.UpdateScan]: the lines before the
    importance sampling section. *)
Definition sensor_update (self : loc) (scan : Scan.t) (stamp : Z) : M unit :=
  do_ init_timestamp self stamp;
  do me <- get_filter self;
  for_each (fun particle => Particle_UpdateScan particle scan)
           (ParticleFilter.particles me).

(** [ParticleFilter.UpdateScan]; the publishing that follows the
    resampling is outside the model. *)
Definition ParticleFilter_UpdateScan (self : loc) (scan_msg : LaserScan)
    (drawn : list nat) : M unit :=
  let scan := Scan.init scan_msg in
  do_ sensor_update self scan (scan_stamp scan_msg);
  resampling_section scan self drawn.
End ParticleFilterMethods.

(** ** Sample inputs *)

Section Samples.
Local Open Scope R_scope.

(** A population of [n] particles that all carry the weight [weight], as
    [Particle(grid, weight=weight)] builds them, and its filter. *)
Definition filter_with_weight (grid : loc) (n : nat) (draws : nat -> init_draws)
    (weight : R) : M loc :=
  do particles <- collect (fun i => Particle_init grid (draws i) weight) (seq 0 n);
  new_filter (ParticleFilter.mk grid None particles).

Definition returned_loc (o : outcome loc) : loc :=
  match o with
  | Returned l => l
  | _ => 1%positive
  end.

(** [self.particles] *)
Definition particles_of (h : heap) (self : loc) : list loc :=
  match filter_objs h !! self with
  | Some f => ParticleFilter.particles f
  | None => []
  end.

Definition pose_at_origin : Pose.t := Pose.mk 0 (0, 0).

(** A map of one free cell with its corner at the world origin. *)
Definition grid_1x1 : Grid.t :=
  Grid.mk 1 1 1 (1, 1) pose_at_origin (mk_grid_data 1 1 [0%Z]).

Definition heap_with_grid : heap :=
  mk_heap ∅ ∅ {[1%positive := grid_1x1]} ∅.

(** One particle at the origin, on [grid_1x1]. *)
Definition one_particle : Particle.t := Particle.mk 1%positive 1%positive None 1.

Definition one_particle_store : heap :=
  mk_heap {[1%positive := one_particle]} {[1%positive := pose_at_origin]}
          {[1%positive := grid_1x1]} ∅.

(** Draws that put a particle on the origin at the first try, heading
    along x. *)
Definition draws_at_origin : init_draws := mk_init_draws [(0, 0)] 0.

(** The store after [ParticleFilter(grid, n)] with every particle at the
    origin and of weight [w], and the filter in it. *)
Definition sample_store (n : nat) (w : R) : heap :=
  snd (filter_with_weight 1%positive n (fun _ => draws_at_origin) w heap_with_grid).

Definition sample_filter (n : nat) (w : R) : loc :=
  returned_loc (fst (filter_with_weight 1%positive n (fun _ => draws_at_origin) w
                       heap_with_grid)).

(** The store after [ParticleFilter(grid, n)] as the constructor builds
    it, and the filter in it. *)
Definition constructed_store (n : nat) : heap :=
  snd (ParticleFilter_init 1%positive n (fun _ => draws_at_origin) heap_with_grid).

Definition constructed_filter (n : nat) : loc :=
  returned_loc (fst (ParticleFilter_init 1%positive n (fun _ => draws_at_origin)
                       heap_with_grid)).

(** A draw that picks the first particle every time. *)
Definition draw_first : list nat := replicate NUM_PARTICLES 0%nat.

Definition one_beam_scan : LaserScan := mk_LaserScan 0 0 0 5 [1].

Definition odom_forward : Odometry := mk_Odometry 1000000000 1 0 0.

Definition no_noise : odom_noise := mk_odom_noise 0 0 0.

(** One row of three cells, the middle one unknown. *)
Definition grid_unknown_middle : grid_data := mk_grid_data 1 3 [0; -1; 0]%Z.

Definition grid_free_3x3 : grid_data := mk_grid_data 3 3 [0; 0; 0; 0; 0; 0; 0; 0; 0]%Z.

Definition grid_free_1x1 : grid_data := mk_grid_data 1 1 [0%Z].

(** Three rows of three cells with an occupied cell in the middle. *)
Definition grid_wall_3x3 : grid_data := mk_grid_data 3 3 [0; 0; 0; 0; 100; 0; 0; 0; 0]%Z.

(** A free map of one row and ten columns, one metre to the cell, and a scan
    of one beam straight ahead with a maximal range of five metres. *)
Definition grid_row_10 : Grid.t :=
  Grid.mk 10 1 1 (10, 1) pose_at_origin (mk_grid_data 1 10 (replicate 10 0%Z)).

Definition scan_ahead : Scan.t := Scan.mk 5 [0] [5].

(** A particle that has seen an odometry message at time [0]. *)
Definition particle_at_time_0 : Particle.t := Particle.mk 1%positive 1%positive (Some 0%Z) 1.





End Samples.

(** ** The statements of the specification that the code does not meet *)

Section SpecStatements.
Local Open Scope R_scope.

(** C5 as the specification words it: unknown cells are passed through
    like free cells. *)
Definition unknown_passes_like_free (p0 p1 : cell) (g : grid_data) : Prop :=
  _CastRay p0 p1 g = _CastRay p0 p1 (unknown_as_free g).

(** The last cell of the grid among those a run visited. *)
Definition last_in_bounds (g : grid_data) (r : ray_run) : option cell :=
  last (List.filter (in_bounds g) (visited r)).

(** C7 as the specification words it: a walk that leaves the grid returns
    the last cell of the grid that it visited. *)
Definition returns_last_in_bounds (p0 p1 : cell) (g : grid_data) : Prop :=
  exit (cast_run p0 p1 g) = ExitEdge ->
  last_in_bounds g (cast_run p0 p1 g) = Some (_CastRay p0 p1 g).

(** C6 as the specification words it: the componentwise floor. *)
Definition floor_cell (a : vec2) : cell := (Zfloor (fst a), Zfloor (snd a)).

(** The weight of the [i]-th particle of the list [ps] ([0] stands for a
    particle that is not there). *)
Definition weight_at (h : heap) (ps : list loc) (i : nat) : f64 :=
  match ps !! i with
  | Some l => match particle_objs h !! l with
              | Some me => Particle.weight me
              | None => 0
              end
  | None => 0
  end.



Definition uniform_weights (h : heap) (self : loc) : Prop :=
  forall l me, l ∈ particles_of h self -> particle_objs h !! l = Some me ->
               Particle.weight me = 1 / INR (length (particles_of h self)).

(** C1 as the specification words it: after the resampling step every
    weight is [1/N]. *)
Definition resample_resets_weights (self : loc) (drawn : list nat) (h : heap) : Prop :=
  exists h', Resample self drawn h = (Returned tt, h') /\ uniform_weights h' self.


End SpecStatements.

(** ** The vocabulary of the statements *)

(** The shape of a run: the cells before the last visited one are inside
    the grid and free, and the last one decides how the call ends. *)
Inductive run_shape (g : grid_data) (p1 last_p : cell) : ray_run -> Prop :=
| shape_target vs :
    Forall (fun c => in_bounds g c = true /\ grid_at g (snd c) (fst c) = 0) vs ->
    run_shape g p1 last_p (mk_ray_run vs ExitTarget p1)
| shape_hit vs c :
    Forall (fun c => in_bounds g c = true /\ grid_at g (snd c) (fst c) = 0) vs ->
    in_bounds g c = true -> grid_at g (snd c) (fst c) <> 0 ->
    run_shape g p1 last_p (mk_ray_run (vs ++ [c]) ExitHit c)
| shape_edge vs c :
    Forall (fun c => in_bounds g c = true /\ grid_at g (snd c) (fst c) = 0) vs ->
    in_bounds g c = false ->
    run_shape g p1 last_p (mk_ray_run (vs ++ [c]) ExitEdge (List.last vs last_p)).

Section Vocabulary.
Local Open Scope R_scope.

Definition beam_likelihoods (ranges sim_ranges : list R) : list R :=
  zip_with beam_likelihood ranges sim_ranges.

(** The pose of a particle after an odometry message. *)
Definition moved_pose (me : Particle.t) (pose : Pose.t) (odom_msg : Odometry)
    (z : odom_noise) : Pose.t :=
  let dt := match Particle.last_odom_timestamp me with
            | Some t => to_sec (odom_stamp odom_msg - t)
            | None => 0
            end in
  let velx := linear_x odom_msg + LINEAR_MODEL_VAR_X * z_x z in
  let vely := linear_y odom_msg + LINEAR_MODEL_VAR_Y * z_y z in
  let velrot := angular_z odom_msg + ANGULAR_MODEL_VAR * z_w z in
  Pose.mk (Pose.rotation pose + velrot * dt)
          (vadd (Pose.translation pose)
                (vscale dt (RotateBy (velx, vely) (Pose.rotation pose)))).

(** The simulated ranges of a particle with the given pose on the given
    grid. *)
Definition sim_ranges_of (pose : Pose.t) (grid : Grid.t) (scan : Scan.t) : list f64 :=
  _ComputeSimulatedRanges (Scan.angles scan) (Scan.range_max scan)
    (Pose.translation (Grid.world_T_map grid))
    (Pose.translation pose) (Pose.rotation pose)
    (Grid.data grid) (Grid.resolution grid).

(** [weights] after the loop over the beams. *)
Fixpoint likelihood_product (ranges : list R) (sim_ranges : list f64) (weights : f64)
    : f64 :=
  match ranges, sim_ranges with
  | r :: ranges', s :: sim_ranges' =>
      likelihood_product ranges' sim_ranges' (fmul weights (beam_likelihood_f64 r s))
  | _, _ => weights
  end.

(** The weight that [Particle.UpdateScan] stores. *)
Definition scan_weight (pose : Pose.t) (grid : Grid.t) (scan : Scan.t) : f64 :=
  guard_weight (likelihood_product (Scan.ranges scan) (sim_ranges_of pose grid scan) 1).



(** The sampling loop ends on the position [t]. *)
Definition samples (grid : Grid.t) (positions : list vec2) (t : vec2) : Prop :=
  forall h, sample_free grid positions h = (Returned t, h).

(** A particle object whose pose and grid are objects of the store. *)
Definition live_particle (h : heap) (l : loc) : Prop :=
  exists me, particle_objs h !! l = Some me /\
             is_Some (pose_objs h !! Particle.map_T_particle me) /\
             is_Some (grid_objs h !! Particle.grid me).

(** The filter [self] holds the particles [ps]. *)
Definition population (h : heap) (self : loc) (ps : list loc) : Prop :=
  (exists f, filter_objs h !! self = Some f /\ ParticleFilter.particles f = ps) /\
  Forall (live_particle h) ps.

(** The weight of the particle is a number that satisfies [P]. *)
Definition has_weight (P : R -> Prop) (h : heap) (l : loc) : Prop :=
  exists me w, particle_objs h !! l = Some me /\ Particle.weight me = Finite w /\ P w.

(** [w] is the weight that the sensor update with [scan] gives the
    particle [me] of the store [h]. *)
Definition scan_weight_of (h : heap) (scan : Scan.t) (me : Particle.t) (w : f64) : Prop :=
  exists pose grid,
    pose_objs h !! Particle.map_T_particle me = Some pose /\
    grid_objs h !! Particle.grid me = Some grid /\
    w = scan_weight pose grid scan.

(** Two versions of a particle that differ at most in a weight that has
    been set by the sensor update with [scan]. *)
Definition reweighted_particle (h : heap) (scan : Scan.t) (me me' : Particle.t) : Prop :=
  Particle.grid me' = Particle.grid me /\
  Particle.map_T_particle me' = Particle.map_T_particle me /\
  Particle.last_odom_timestamp me' = Particle.last_odom_timestamp me /\
  (Particle.weight me' = Particle.weight me \/
   scan_weight_of h scan me (Particle.weight me')).

Definition reweighted (scan : Scan.t) (h h' : heap) : Prop :=
  pose_objs h' = pose_objs h /\ grid_objs h' = grid_objs h /\
  filter_objs h' = filter_objs h /\
  forall l, option_Forall2 (reweighted_particle h scan)
                           (particle_objs h !! l) (particle_objs h' !! l).

(** The particle carries the weight of the sensor update with [scan]. *)
Definition has_scan_weight (scan : Scan.t) (h : heap) (l : loc) : Prop :=
  exists me, particle_objs h !! l = Some me /\
             scan_weight_of h scan me (Particle.weight me).


(** The call [m] leaves as many entries in [self.particles] as there
    were, however it ends. *)
Definition keeps_count {A} (self : loc) (m : M A) : Prop :=
  forall h, length (particles_of (snd (m h)) self) = length (particles_of h self).


(** [h'] has every particle, pose and grid object of [h], unchanged, and
    the same filter objects. *)
Definition heap_ext (h h' : heap) : Prop :=
  particle_objs h ⊆ particle_objs h' /\
  pose_objs h ⊆ pose_objs h' /\
  grid_objs h ⊆ grid_objs h' /\
  filter_objs h' = filter_objs h.

(** The body of the second loop of the resampling step. *)
Definition copy_drawn (self : loc) (drawn : list nat) (i : nat) : M loc :=
  do j <- index drawn i;
  do particle <- particles_item self j;
  deepcopy particle.

(** [new] is, in [h'], a copy of the particle [src] of [h0]: same weight,
    same time stamp, a pose object and a grid object with the contents of
    the ones of [src]; the three objects of the copy are not objects of
    [h]. *)
Definition copied (h0 h h' : heap) (src new : loc) : Prop :=
  exists me me' pose grid,
    particle_objs h0 !! src = Some me /\
    pose_objs h0 !! Particle.map_T_particle me = Some pose /\
    grid_objs h0 !! Particle.grid me = Some grid /\
    particle_objs h' !! new = Some me' /\
    pose_objs h' !! Particle.map_T_particle me' = Some pose /\
    grid_objs h' !! Particle.grid me' = Some grid /\
    Particle.weight me' = Particle.weight me /\
    Particle.last_odom_timestamp me' = Particle.last_odom_timestamp me /\
    particle_objs h !! new = None /\
    pose_objs h !! Particle.map_T_particle me' = None /\
    grid_objs h !! Particle.grid me' = None.

(** The pose objects and the grid objects that the particles of a list
    refer to. *)
Definition pose_locs (h : heap) (ps : list loc) : list loc :=
  omap (fun l => Particle.map_T_particle <$> particle_objs h !! l) ps.

Definition grid_locs (h : heap) (ps : list loc) : list loc :=
  omap (fun l => Particle.grid <$> particle_objs h !! l) ps.

(** No two particles of the list are the same object, have the same pose
    object or have the same grid object. *)
Definition separate (h : heap) (ps : list loc) : Prop :=
  NoDup ps /\ NoDup (pose_locs h ps) /\ NoDup (grid_locs h ps).

(** The store after [self.particles] has been given new contents. *)
Definition with_particles (h : heap) (self : loc) (f : ParticleFilter.t)
    (ps : list loc) : heap :=
  mk_heap (particle_objs h) (pose_objs h) (grid_objs h)
    (<[self := ParticleFilter.mk (ParticleFilter.grid f)
                 (ParticleFilter.last_timestamp f) ps]> (filter_objs h)).

(** The body of the third loop of the resampling step. *)
Definition store_item (self : loc) (new_particles : list loc) (i : nat) : M unit :=
  do x <- index new_particles i;
  set_particles_item self i x.

(** Two stores that differ at most in the time stamps of particles and in
    the contents of pose objects. *)
Definition same_but_moved (me me' : Particle.t) : Prop :=
  Particle.grid me' = Particle.grid me /\
  Particle.map_T_particle me' = Particle.map_T_particle me /\
  Particle.weight me' = Particle.weight me.

Definition odom_moved (h h' : heap) : Prop :=
  grid_objs h' = grid_objs h /\ filter_objs h' = filter_objs h /\
  (forall l, is_Some (pose_objs h !! l) -> is_Some (pose_objs h' !! l)) /\
  forall l, option_Forall2 same_but_moved (particle_objs h !! l) (particle_objs h' !! l).
End Vocabulary.

(** ** Pose and map messages *)

Section GeometryMessages.
Local Open Scope R_scope.

(** [geometry_msgs/Pose]: a [position] and an [orientation] quaternion.  A
    new message has every field at [0]. *)
Record Quaternion : Type := mk_Quaternion {
  quat_x : R;
  quat_y : R;
  quat_z : R;
  quat_w : R
}.

Record PoseMsg : Type := mk_PoseMsg {
  position_x : R;
  position_y : R;
  position_z : R;
  orientation : Quaternion
}.

(** [nav_msgs/OccupancyGrid]: the fields that the program reads or writes.
    [info.width] and [info.height] are [uint32] fields and [data] is an
    [int8] array. *)
Record OccupancyGrid : Type := mk_OccupancyGrid {
  info_resolution : R;
  info_width : Z;
  info_height : Z;
  info_origin : PoseMsg;
  grid_msg_data : list Z
}.

(** [np.arctan2(y, x)]: the angle of the point [(x, y)], in the interval
    from [-PI] (excluded) to [PI]. *)
Definition arctan2 (y x : R) : R :=
  if Rlt_dec 0 x then atan (y / x)
  else if Rlt_dec x 0
       then (if Rle_dec 0 y then atan (y / x) + PI else atan (y / x) - PI)
       else if Rlt_dec 0 y then PI / 2
            else if Rlt_dec y 0 then - (PI / 2) else 0.

(** [Pose.FromGeometryMsg(pose_msg)] *)
Definition Pose_FromGeometryMsg (pose_msg : PoseMsg) : Pose.t :=
  let q := orientation pose_msg in
  let tx := 1 - 2 * (quat_y q * quat_y q + quat_z q * quat_z q) in
  let ty := 2 * (quat_x q * quat_y q + quat_z q * quat_w q) in
  let yaw := arctan2 ty tx in
  Pose.mk yaw (position_x pose_msg, position_y pose_msg).

(** [Pose.ToGeometryMsg(self)] *)
Definition Pose_ToGeometryMsg (self : Pose.t) : PoseMsg :=
  mk_PoseMsg (fst (Pose.translation self)) (snd (Pose.translation self)) 0
    (mk_Quaternion 0 0 (sin (Pose.rotation self / 2)) (cos (Pose.rotation self / 2))).

(** [Grid.__init__(grid_msg)].  [reshape(rows, cols)] raises [ValueError]
    unless the array has [rows * cols] entries; [rows] and [cols] come from
    unsigned fields, and statements about [Grid_init] carry their sign as a
    hypothesis. *)
Definition Grid_init (grid_msg : OccupancyGrid) : M loc :=
  let cols := info_width grid_msg in
  let rows := info_height grid_msg in
  let resolution := info_resolution grid_msg in
  let map_t_extents := (IZR cols * resolution, IZR rows * resolution) in
  let world_T_map := Pose_FromGeometryMsg (info_origin grid_msg) in
  if bool_decide (Z.of_nat (length (grid_msg_data grid_msg)) = rows * cols)%Z
  then new_grid (Grid.mk cols rows resolution map_t_extents world_T_map
                         (mk_grid_data rows cols (grid_msg_data grid_msg)))
  else raise ValueError.

(** [Grid.ToNavMsg(self)]; [flatten] lists the array row by row. *)
Definition Grid_ToNavMsg (self : Grid.t) : OccupancyGrid :=
  mk_OccupancyGrid (Grid.resolution self) (Grid.cols self) (Grid.rows self)
    (Pose_ToGeometryMsg (Grid.world_T_map self))
    (values (Grid.data self)).

(** What [Grid.__init__] establishes of the grid it builds. *)
Definition constructed_grid (g : Grid.t) : Prop :=
  (0 <= Grid.rows g)%Z /\ (0 <= Grid.cols g)%Z /\
  shape0 (Grid.data g) = Grid.rows g /\
  shape1 (Grid.data g) = Grid.cols g /\
  Z.of_nat (length (values (Grid.data g))) = (Grid.rows g * Grid.cols g)%Z /\
  Grid.map_t_extents g =
    (IZR (Grid.cols g) * Grid.resolution g, IZR (Grid.rows g) * Grid.resolution g).

(** The square of the length of a vector. *)
Definition norm_sq (v : vec2) : R := fst v * fst v + snd v * snd v.

(** The world coordinates of the corner of a cell. *)
Definition cell_corner (g : Grid.t) (c : cell) : vec2 :=
  Grid.GridToWorld g (IZR (fst c), IZR (snd c)).

(** The area [[ll, ul)] from which [Particle.__init__] draws positions. *)
Definition inside_map (g : Grid.t) (p : vec2) : Prop :=
  let ll := Pose.translation (Grid.world_T_map g) in
  let ul := vadd ll (Grid.map_t_extents g) in
  fst ll <= fst p < fst ul /\ snd ll <= snd p < snd ul.

(** That area without the last quarter cell before its upper borders. *)
Definition well_inside_map (g : Grid.t) (p : vec2) : Prop :=
  let ll := Pose.translation (Grid.world_T_map g) in
  let ul := vadd ll (Grid.map_t_extents g) in
  fst ll <= fst p <= fst ul - Grid.resolution g / 4 /\
  snd ll <= snd p <= snd ul - Grid.resolution g / 4.

(** The middle half of the cell [c]: the points that are a quarter cell
    or more away from its borders. *)
Definition well_inside_cell (g : Grid.t) (c : cell) (p : vec2) : Prop :=
  let corner := cell_corner g c in
  Grid.resolution g / 4 <= fst p - fst corner <= 3 * Grid.resolution g / 4 /\
  Grid.resolution g / 4 <= snd p - snd corner <= 3 * Grid.resolution g / 4.

(** A rounding error of at most an eighth of a cell on each quotient; the
    error of a [float64] quotient in the [int32] range is far below. *)
Definition small_error (err : vec2) : Prop :=
  Rabs (fst err) <= 1 / 8 /\ Rabs (snd err) <= 1 / 8.
End GeometryMessages.

(** ** The path of a ray *)

(** The rectangle of cells spanned by [p0] and [p1]. *)
Definition in_rectangle (p0 p1 c : cell) : Prop :=
  Z.min (fst p0) (fst p1) <= fst c <= Z.max (fst p0) (fst p1) /\
  Z.min (snd p0) (snd p1) <= snd c <= Z.max (snd p0) (snd p1).

(** Every cell of the list is one step along one axis away from the cell
    before it. *)
Fixpoint one_cell_steps (vs : list cell) : Prop :=
  match vs with
  | c :: rest =>
      match rest with
      | c' :: _ => Z.abs (fst c' - fst c) + Z.abs (snd c' - snd c) = 1
      | [] => True
      end /\ one_cell_steps rest
  | [] => True
  end.

(** ** The sensor model at its best *)

Section SensorVocabulary.
Local Open Scope R_scope.

(** The likelihood of a beam whose simulated range is the measured one. *)
Definition peak_likelihood : R := 1 / (sqrt (2 * PI) * SENSOR_MODEL_VAR).
End SensorVocabulary.

(** ** [ParticleFilter.GetMeanPose] *)

Section MeanPose.
Local Open Scope R_scope.

(** [particle.map_T_particle] *)
Definition pose_of (h : heap) (particle : loc) : option Pose.t :=
  match particle_objs h !! particle with
  | Some me => pose_objs h !! Particle.map_T_particle me
  | None => None
  end.

(** How [GetMeanPose] ends.  The method changes no object: it is a function
    of the store.  [MeanNoObject] is a reference that the store does not
    hold. *)
Inductive mean_outcome : Type :=
| MeanPose (pose : Pose.t)
| ZeroDivisionError
| MeanNoObject.

(** [for particle in self.particles]: the sums of the translations and of
    the rotations. *)
Fixpoint sum_poses (h : heap) (particles : list loc) (sum_translation : vec2)
    (sum_rotation : R) : option (vec2 * R) :=
  match particles with
  | [] => Some (sum_translation, sum_rotation)
  | particle :: particles' =>
      match pose_of h particle with
      | Some pose =>
          sum_poses h particles' (vadd sum_translation (Pose.translation pose))
                    (sum_rotation + Pose.rotation pose)
      | None => None
      end
  end.

(** [sum_translation / len(self.particles)] divides an array, which gives
    [nan] for no particle; [sum_rotation / len(self.particles)] then divides
    the integer [0] by [0] and raises. *)
Definition GetMeanPose (h : heap) (self : loc) : mean_outcome :=
  match filter_objs h !! self with
  | None => MeanNoObject
  | Some me =>
      let particles := ParticleFilter.particles me in
      match sum_poses h particles (0, 0) 0 with
      | None => MeanNoObject
      | Some (sum_translation, sum_rotation) =>
          if (length particles =? 0)%nat then ZeroDivisionError
          else
            let avg_translation := vdiv sum_translation (INR (length particles)) in
            let avg_rotation := sum_rotation / INR (length particles) in
            MeanPose (Pose.mk avg_rotation avg_translation)
      end
  end.

(** The rotation and the two coordinates of [pose] lie between those of
    [lo] and those of [hi]. *)
Definition pose_between (lo hi pose : Pose.t) : Prop :=
  Pose.rotation lo <= Pose.rotation pose <= Pose.rotation hi /\
  fst (Pose.translation lo) <= fst (Pose.translation pose) <= fst (Pose.translation hi) /\
  snd (Pose.translation lo) <= snd (Pose.translation pose) <= snd (Pose.translation hi).

(** A particle as [Particle(grid)] builds it: weight [1], no time stamp,
    the grid object it was given, and a pose on a free cell of that
    grid. *)
Definition built_particle (h : heap) (grid : loc) (G : Grid.t) (l : loc) : Prop :=
  exists q pose,
    particle_objs h !! l = Some (Particle.mk grid q None 1) /\
    pose_objs h !! q = Some pose /\
    Grid.GetWorldCoords G (Pose.translation pose) = Some 0%Z.

End MeanPose.

(** ** More sample inputs *)

Section MoreSamples.
Local Open Scope R_scope.

(** The message of a map of one free cell with its corner at the world
    origin. *)
Definition map_msg_1x1 : OccupancyGrid :=
  mk_OccupancyGrid 1 1 1 (mk_PoseMsg 0 0 0 (mk_Quaternion 0 0 0 1)) [0%Z].

(** One particle at the origin, and a filter that holds it. *)
Definition one_particle_filter_store : heap :=
  mk_heap {[1%positive := one_particle]} {[1%positive := pose_at_origin]}
          {[1%positive := grid_1x1]}
          {[1%positive := ParticleFilter.mk 1%positive None [1%positive]]}.

(** A filter without particles. *)
Definition empty_filter_store : heap :=
  mk_heap ∅ ∅ {[1%positive := grid_1x1]}
          {[1%positive := ParticleFilter.mk 1%positive None []]}.

(** One particle at the origin that has seen an odometry message at time
    [0]. *)
Definition moved_particle_store : heap :=
  mk_heap {[1%positive := particle_at_time_0]} {[1%positive := pose_at_origin]}
          {[1%positive := grid_1x1]} ∅.

(** A pose five metres along x, which is off [grid_1x1], and draws that
    start there. *)
Definition pose_off_map : Pose.t := Pose.mk 0 (5, 0).

Definition draws_off_map : init_draws := mk_init_draws [(5, 0)] 0.
End MoreSamples.

(** * Properties of the ray caster *)

Lemma cast_loop_run_result g inc d p1 n : forall p last_p e,
  result (cast_loop_run g inc d p1 n p last_p e) = cast_loop g inc d p1 n p last_p e.
Proof.
  induction n as [|n IH]; intros p last_p e; simpl; [reflexivity|].
  destruct (in_bounds g p); simpl; [|reflexivity].
  destruct (grid_at g (snd p) (fst p) =? 0); simpl; [|reflexivity].
  destruct (0 <? e); apply IH.
Qed.

Lemma cast_run_result p0 p1 g : result (cast_run p0 p1 g) = _CastRay p0 p1 g.
Proof. apply cast_loop_run_result. Qed.

Lemma wrap64_small z : - 2 ^ 63 <= z < 2 ^ 63 -> wrap64 z = z.
Proof. intros H. unfold wrap64. rewrite Z.mod_small; lia. Qed.

(** The error term stays between [- 2 * dy] and [2 * dx]. *)
Lemma cast_loop_int64_never_wraps g inc dx dy p1 :
  0 <= dx < 2 ^ 33 -> 0 <= dy < 2 ^ 33 ->
  forall n p last_p e,
    - dy <= e <= dx ->
    cast_loop_int64 g inc (dx, dy) p1 n p last_p e = cast_loop g inc (dx, dy) p1 n p last_p e.
Proof.
  intros Hdx Hdy. induction n as [|n IH]; intros p last_p e He; [reflexivity|].
  cbn [cast_loop_int64 cast_loop fst snd].
  destruct (in_bounds g p); cbn [negb]; [|reflexivity].
  destruct (grid_at g (snd p) (fst p) =? 0); cbn [negb]; [|reflexivity].
  destruct (Z.ltb_spec 0 e).
  - rewrite wrap64_small by lia. apply IH. lia.
  - rewrite wrap64_small by lia. apply IH. lia.
Qed.

(** On [int32] cells the [int64] arithmetic of [_CastRay] never wraps. *)
Lemma CastRay_int64_never_wraps p0 p1 g :
  int32_cell p0 -> int32_cell p1 -> _CastRay_int64 p0 p1 g = _CastRay p0 p1 g.
Proof.
  intros [H0x H0y] [H1x H1y]. unfold is_int32 in *.
  unfold _CastRay_int64, _CastRay, ray_steps. cbn [fst snd].
  rewrite (wrap64_small (fst p1 - fst p0)) by lia.
  rewrite (wrap64_small (snd p1 - snd p0)) by lia.
  rewrite (wrap64_small (Z.abs (fst p1 - fst p0))) by lia.
  rewrite (wrap64_small (Z.abs (snd p1 - snd p0))) by lia.
  rewrite (wrap64_small (Z.abs (fst p1 - fst p0) + Z.abs (snd p1 - snd p0))) by lia.
  rewrite (wrap64_small (1 + _)) by lia.
  rewrite (wrap64_small (_ - _)) by lia.
  rewrite (wrap64_small (Z.abs (fst p1 - fst p0) * 2)) by lia.
  rewrite (wrap64_small (Z.abs (snd p1 - snd p0) * 2)) by lia.
  apply cast_loop_int64_never_wraps; lia.
Qed.

(** The number of visited cells never exceeds the loop bound. *)
Lemma cast_loop_run_length g inc d p1 n : forall p last_p e,
  (length (visited (cast_loop_run g inc d p1 n p last_p e)) <= n)%nat.
Proof.
  induction n as [|n IH]; intros p last_p e; simpl; [lia|].
  destruct (in_bounds g p); simpl; [|lia].
  destruct (grid_at g (snd p) (fst p) =? 0); simpl; [|lia].
  destruct (0 <? e);
    match goal with
    | |- context [cast_loop_run g inc d p1 n ?a ?b ?c] => specialize (IH a b c)
    end; lia.
Qed.

Lemma cast_loop_run_shape g inc d p1 n : forall p last_p e,
  run_shape g p1 last_p (cast_loop_run g inc d p1 n p last_p e).
Proof.
  induction n as [|n IH]; intros p last_p e; simpl.
  - apply shape_target. constructor.
  - destruct (in_bounds g p) eqn:Hin; simpl.
    2:{ apply (shape_edge g p1 last_p [] p); [constructor | assumption]. }
    destruct (grid_at g (snd p) (fst p) =? 0) eqn:Hz; simpl.
    2:{ apply (shape_hit g p1 last_p [] p); [constructor | assumption | ].
        apply Z.eqb_neq; assumption. }
    apply Z.eqb_eq in Hz.
    set (r := if 0 <? e then _ else _).
    assert (Hr : run_shape g p1 p r) by (subst r; destruct (0 <? e); apply IH).
    destruct Hr as [vs Hvs | vs c Hvs Hc Hnz | vs c Hvs Hc]; simpl.
    + apply shape_target. constructor; auto.
    + apply (shape_hit g p1 last_p (p :: vs) c); auto.
    + replace (List.last vs p) with (List.last (p :: vs) last_p).
      * apply (shape_edge g p1 last_p (p :: vs) c); auto.
      * destruct vs as [|v vs]; [reflexivity|].
        change (List.last (p :: v :: vs) last_p) with (List.last (v :: vs) last_p).
        clear. revert v. induction vs as [|w vs IHvs]; intros v; [reflexivity|].
        change (List.last (v :: w :: vs) last_p) with (List.last (w :: vs) last_p).
        change (List.last (v :: w :: vs) p) with (List.last (w :: vs) p).
        apply IHvs.
Qed.

Lemma cast_run_shape p0 p1 g : run_shape g p1 p0 (cast_run p0 p1 g).
Proof. apply cast_loop_run_shape. Qed.

Lemma ray_steps_pos p0 p1 : 1 <= ray_steps p0 p1.
Proof. unfold ray_steps. lia. Qed.

(** The walk starts on the origin cell. *)
Lemma cast_run_starts_at_origin p0 p1 g :
  exists vs, visited (cast_run p0 p1 g) = p0 :: vs.
Proof.
  unfold cast_run.
  destruct (Z.to_nat (ray_steps p0 p1)) as [|k] eqn:Hk.
  - pose proof (ray_steps_pos p0 p1). lia.
  - simpl. destruct (in_bounds g p0); simpl; [|eauto].
    destruct (grid_at g (snd p0) (fst p0) =? 0); simpl; eauto.
Qed.

Lemma filter_in_bounds_all g (vs : list cell) :
  Forall (fun c => in_bounds g c = true /\ grid_at g (snd c) (fst c) = 0) vs ->
  List.filter (in_bounds g) vs = vs.
Proof.
  induction 1 as [|c vs [Hc _] _ IH]; simpl; [reflexivity|].
  rewrite Hc, IH. reflexivity.
Qed.

Lemma last_cons_default (vs : list cell) (c d : cell) :
  last (c :: vs) = Some (List.last (c :: vs) d).
Proof.
  revert c. induction vs as [|v vs IH]; intros c; [reflexivity|].
  change (last (c :: v :: vs)) with (last (v :: vs)).
  change (List.last (c :: v :: vs) d) with (List.last (v :: vs) d).
  apply IH.
Qed.

(** C5 (as the code has it): a visited cell of the grid that is not free,
    whether [unknown] or [occupied], ends the walk and is the cell returned;
    the cells passed through before it are all free. *)
Theorem castray_stops_at_first_nonfree_cell p0 p1 g c :
  In c (visited (cast_run p0 p1 g)) ->
  in_bounds g c = true ->
  grid_at g (snd c) (fst c) <> free_cell ->
  _CastRay p0 p1 g = c /\
  exit (cast_run p0 p1 g) = ExitHit /\
  Forall (fun c' => grid_at g (snd c') (fst c') = free_cell)
         (removelast (visited (cast_run p0 p1 g))).
Proof.
  intros Hin Hb Hnz. rewrite <- cast_run_result.
  pose proof (cast_run_shape p0 p1 g) as Hs.
  remember (cast_run p0 p1 g) as r eqn:Hr. clear Hr.
  assert (Hfree : forall vs,
    Forall (fun c => in_bounds g c = true /\ grid_at g (snd c) (fst c) = 0) vs ->
    In c vs -> False).
  { intros vs Hvs Hc. rewrite Forall_forall in Hvs.
    apply list_elem_of_In, Hvs in Hc. destruct Hc as [_ Hc]. contradiction. }
  destruct Hs as [vs Hvs | vs c0 Hvs Hc Hz | vs c0 Hvs Hc]; simpl in *.
  - exfalso. eauto.
  - apply in_app_iff in Hin. destruct Hin as [Hin | [-> | []]]; [exfalso; eauto|].
    repeat split. rewrite removelast_last.
    eapply Forall_impl; [exact Hvs|]. intros c' [_ H']. exact H'.
  - exfalso. apply in_app_iff in Hin. destruct Hin as [Hin | [-> | []]]; [eauto|].
    congruence.
Qed.

(** C7 (as the code has it): when the walk leaves the grid, a walk that
    started inside the grid returns the last cell of the grid it visited;
    a walk whose origin is outside the grid returns the origin itself. *)
Theorem castray_edge_returns_last_valid_or_origin p0 p1 g :
  exit (cast_run p0 p1 g) = ExitEdge ->
  if in_bounds g p0
  then last_in_bounds g (cast_run p0 p1 g) = Some (_CastRay p0 p1 g)
  else visited (cast_run p0 p1 g) = [p0] /\ _CastRay p0 p1 g = p0.
Proof.
  intros He. rewrite <- cast_run_result. unfold last_in_bounds.
  destruct (cast_run_starts_at_origin p0 p1 g) as [tl Htl].
  pose proof (cast_run_shape p0 p1 g) as Hs.
  remember (cast_run p0 p1 g) as r eqn:Hr. clear Hr.
  destruct Hs as [vs Hvs | vs c0 Hvs Hc Hz | vs c0 Hvs Hc]; simpl in *; try discriminate.
  rewrite List.filter_app, (filter_in_bounds_all g vs Hvs). simpl. rewrite Hc.
  rewrite app_nil_r.
  destruct vs as [|v vs]; simpl in Htl; injection Htl as -> _.
  - rewrite Hc. split; reflexivity.
  - inversion Hvs as [|? ? [Hv _] _]; subst. rewrite Hv.
    apply last_cons_default.
Qed.

(** C9: the loop of [_CastRay] is bounded by [range(n)], so a call visits at
    most [1 + |Δrow| + |Δcol|] cells. *)
Theorem castray_visits_at_most_n_cells p0 p1 g :
  Z.of_nat (length (visited (cast_run p0 p1 g)))
  <= 1 + Z.abs (snd p1 - snd p0) + Z.abs (fst p1 - fst p0).
Proof.
  pose proof (cast_loop_run_length g (ray_inc p0 p1)
                ((Z.abs (fst p1 - fst p0)) * 2, (Z.abs (snd p1 - snd p0)) * 2) p1
                (Z.to_nat (ray_steps p0 p1)) p0 p0
                (Z.abs (fst p1 - fst p0) - Z.abs (snd p1 - snd p0))) as H.
  change (length (visited (cast_run p0 p1 g)) <= Z.to_nat (ray_steps p0 p1))%nat in H.
  unfold ray_steps in H. lia.
Qed.

Lemma wrap32_int32 z : is_int32 z -> wrap32 z = z.
Proof.
  unfold is_int32, wrap32. intros H.
  rewrite Z.mod_small; lia.
Qed.

(** On a free stretch the walk keeps inside the rectangle spanned by the
    origin and the target: after [a] steps along x and [b] steps along y the
    error term is [dx * (1 + 2 * b) - dy * (1 + 2 * a)], which forbids a step
    along an axis that is already exhausted. *)
Lemma cast_loop_run_free g sx sy dx dy p1 x0 y0 :
  all_free g ->
  (forall a b, 0 <= a <= dx -> 0 <= b <= dy ->
     in_bounds g (x0 + a * sx, y0 + b * sy) = true /\
     is_int32 (x0 + a * sx) /\ is_int32 (y0 + b * sy)) ->
  forall n a b last_p,
    0 <= a <= dx -> 0 <= b <= dy ->
    Z.of_nat n = dx + dy - a - b + 1 ->
    let r := cast_loop_run g (sx, sy) (dx * 2, dy * 2) p1 n
               (x0 + a * sx, y0 + b * sy) last_p
               (dx * (1 + 2 * b) - dy * (1 + 2 * a)) in
    exit r = ExitTarget /\ result r = p1 /\ length (visited r) = n.
Proof.
  intros Hfree Hbox.
  induction n as [|n IH]; intros a b last_p Ha Hb Hn; [lia|].
  destruct (Hbox a b Ha Hb) as (Hin & _ & _).
  pose proof (Hfree _ Hin) as Hz. unfold free_cell in Hz.
  cbn [cast_loop_run]. rewrite Hin. cbn [negb].
  rewrite Hz. cbn [Z.eqb negb fst snd].
  destruct n as [|n'].
  { destruct (0 <? _); cbn; auto. }
  destruct (0 <? dx * (1 + 2 * b) - dy * (1 + 2 * a)) eqn:He.
  - apply Z.ltb_lt in He.
    assert (Ha' : a < dx) by nia.
    destruct (Hbox (a + 1) b ltac:(lia) Hb) as (_ & Hi & _).
    replace (x0 + a * sx + sx) with (x0 + (a + 1) * sx) by ring.
    rewrite (wrap32_int32 _ Hi).
    replace (dx * (1 + 2 * b) - dy * (1 + 2 * a) - dy * 2)
      with (dx * (1 + 2 * b) - dy * (1 + 2 * (a + 1))) by ring.
    destruct (IH (a + 1) b (x0 + a * sx, y0 + b * sy) ltac:(lia) Hb ltac:(lia))
      as (E1 & E2 & E3).
    cbn [visited exit result length]. rewrite E1, E2, E3. auto.
  - apply Z.ltb_ge in He.
    assert (Hb' : b < dy) by nia.
    destruct (Hbox a (b + 1) Ha ltac:(lia)) as (_ & _ & Hi).
    replace (y0 + b * sy + sy) with (y0 + (b + 1) * sy) by ring.
    rewrite (wrap32_int32 _ Hi).
    replace (dx * (1 + 2 * b) - dy * (1 + 2 * a) + dx * 2)
      with (dx * (1 + 2 * (b + 1)) - dy * (1 + 2 * a)) by ring.
    destruct (IH a (b + 1) (x0 + a * sx, y0 + b * sy) Ha ltac:(lia) ltac:(lia))
      as (E1 & E2 & E3).
    cbn [visited exit result length]. rewrite E1, E2, E3. auto.
Qed.

Lemma in_bounds_iff g p :
  in_bounds g p = true <-> 0 <= fst p < shape1 g /\ 0 <= snd p < shape0 g.
Proof.
  unfold in_bounds. rewrite !andb_true_iff, !Z.leb_le, !Z.ltb_lt. lia.
Qed.

(** C8: on a grid whose cells are all free, a ray between two cells of the
    grid runs its loop to the end and returns the target. *)
Theorem castray_all_free_returns_target p0 p1 g :
  all_free g ->
  int32_cell p0 -> int32_cell p1 ->
  in_bounds g p0 = true -> in_bounds g p1 = true ->
  _CastRay p0 p1 g = p1 /\ exit (cast_run p0 p1 g) = ExitTarget.
Proof.
  intros Hfree [H0x H0y] [H1x H1y] Hb0 Hb1.
  rewrite <- cast_run_result.
  apply in_bounds_iff in Hb0, Hb1.
  destruct p0 as [x0 y0], p1 as [x1 y1]. cbn [fst snd] in *.
  unfold is_int32 in *.
  pose proof (cast_loop_run_free g
                (fst (ray_inc (x0, y0) (x1, y1))) (snd (ray_inc (x0, y0) (x1, y1)))
                (Z.abs (x1 - x0)) (Z.abs (y1 - y0)) (x1, y1) x0 y0 Hfree) as L.
  unfold ray_inc in L. cbn [fst snd] in L.
  assert (Hbox : forall a b, 0 <= a <= Z.abs (x1 - x0) -> 0 <= b <= Z.abs (y1 - y0) ->
            in_bounds g (x0 + a * (if x0 <? x1 then 1 else -1),
                         y0 + b * (if y0 <? y1 then 1 else -1)) = true /\
            is_int32 (x0 + a * (if x0 <? x1 then 1 else -1)) /\
            is_int32 (y0 + b * (if y0 <? y1 then 1 else -1))).
  { intros a b Ha Hb. rewrite in_bounds_iff. cbn [fst snd]. unfold is_int32.
    destruct (Z.ltb_spec x0 x1), (Z.ltb_spec y0 y1); lia. }
  specialize (L Hbox (Z.to_nat (ray_steps (x0, y0) (x1, y1))) 0 0 (x0, y0)
                ltac:(lia) ltac:(lia)).
  unfold ray_steps in L. cbn [fst snd] in L.
  specialize (L ltac:(lia)).
  unfold cast_run, ray_steps, ray_inc. cbn [fst snd].
  replace (x0 + 0 * _) with x0 in L by ring.
  replace (y0 + 0 * _) with y0 in L by ring.
  replace (Z.abs (x1 - x0) * (1 + 2 * 0) - Z.abs (y1 - y0) * (1 + 2 * 0))
    with (Z.abs (x1 - x0) - Z.abs (y1 - y0)) in L by ring.
  destruct L as (E1 & E2 & _). auto.
Qed.

(** ** The ray caster on sample grids *)

Example castray_diagonal : _CastRay (0, 0) (2, 2) grid_free_3x3 = (2, 2).
Proof. reflexivity. Qed.

Example castray_diagonal_visits :
  visited (cast_run (0, 0) (2, 2) grid_free_3x3) = [(0, 0); (0, 1); (1, 1); (1, 2); (2, 2)].
Proof. reflexivity. Qed.

Example castray_wall : _CastRay (0, 1) (2, 1) grid_wall_3x3 = (1, 1).
Proof. reflexivity. Qed.

Example castray_leaves_grid : _CastRay (1, 1) (5, 1) grid_free_3x3 = (2, 1).
Proof. reflexivity. Qed.

(** C5, as the specification words it, fails: on a row whose middle cell is
    unknown the ray stops on that cell and returns it, while on the same row
    with the cell free it reaches the target. *)
Lemma castray_unknown_cell_stops_ray :
  _CastRay (0, 0) (2, 0) grid_unknown_middle = (1, 0) /\
  grid_at grid_unknown_middle 0 1 = unknown_cell /\
  exit (cast_run (0, 0) (2, 0) grid_unknown_middle) = ExitHit /\
  _CastRay (0, 0) (2, 0) (unknown_as_free grid_unknown_middle) = (2, 0) /\
  ~ unknown_passes_like_free (0, 0) (2, 0) grid_unknown_middle.
Proof.
  repeat split; try reflexivity.
  unfold unknown_passes_like_free. vm_compute. discriminate.
Qed.

(** The theorem of C5 on that row. *)
Lemma castray_stops_at_first_nonfree_cell_witness :
  _CastRay (0, 0) (2, 0) grid_unknown_middle = (1, 0) /\
  exit (cast_run (0, 0) (2, 0) grid_unknown_middle) = ExitHit /\
  Forall (fun c' => grid_at grid_unknown_middle (snd c') (fst c') = free_cell)
         (removelast (visited (cast_run (0, 0) (2, 0) grid_unknown_middle))).
Proof.
  apply (castray_stops_at_first_nonfree_cell (0, 0) (2, 0) grid_unknown_middle (1, 0)).
  - vm_compute. right. left. reflexivity.
  - reflexivity.
  - vm_compute. discriminate.
Defined.

(** C7, as the specification words it, fails: from an origin outside the
    grid the call returns the origin, which is no cell of the grid. *)
Lemma castray_origin_outside_returns_origin :
  exit (cast_run (-1, 0) (0, 0) grid_free_1x1) = ExitEdge /\
  _CastRay (-1, 0) (0, 0) grid_free_1x1 = (-1, 0) /\
  in_bounds grid_free_1x1 (-1, 0) = false /\
  ~ returns_last_in_bounds (-1, 0) (0, 0) grid_free_1x1.
Proof.
  repeat split; try reflexivity.
  unfold returns_last_in_bounds. intros H. specialize (H eq_refl).
  vm_compute in H. discriminate.
Qed.

(** The theorem of C7 on a walk that starts inside a grid of one cell. *)
Lemma castray_edge_returns_last_valid_or_origin_witness :
  last_in_bounds grid_free_1x1 (cast_run (0, 0) (2, 0) grid_free_1x1)
  = Some (_CastRay (0, 0) (2, 0) grid_free_1x1).
Proof.
  apply (castray_edge_returns_last_valid_or_origin (0, 0) (2, 0) grid_free_1x1).
  reflexivity.
Defined.

Lemma grid_free_3x3_all_free : all_free grid_free_3x3.
Proof.
  intros [x y] H. apply in_bounds_iff in H. cbn in H. unfold free_cell.
  assert (Hx : x = 0 \/ x = 1 \/ x = 2) by lia.
  assert (Hy : y = 0 \/ y = 1 \/ y = 2) by lia.
  destruct Hx as [-> | [-> | ->]], Hy as [-> | [-> | ->]]; reflexivity.
Qed.

(** The theorem of C8 on a free grid of three rows and three columns. *)
Lemma castray_all_free_returns_target_witness :
  _CastRay (0, 0) (2, 1) grid_free_3x3 = (2, 1) /\
  exit (cast_run (0, 0) (2, 1) grid_free_3x3) = ExitTarget.
Proof.
  apply (castray_all_free_returns_target (0, 0) (2, 1) grid_free_3x3).
  - exact grid_free_3x3_all_free.
  - split; cbn; unfold is_int32; lia.
  - split; cbn; unfold is_int32; lia.
  - reflexivity.
  - reflexivity.
Defined.

(** * Coordinates *)

Section CoordinateFacts.
Local Open Scope R_scope.

Lemma trunc_nonneg x : 0 <= x -> trunc x = Zfloor x.
Proof. intros H. unfold trunc. destruct (Rle_dec 0 x); [reflexivity | contradiction]. Qed.

Lemma trunc_neg x : x < 0 -> trunc x = Zceil x.
Proof. intros H. unfold trunc. destruct (Rle_dec 0 x); [lra | reflexivity]. Qed.

Lemma trunc_is_floor x : 0 <= x \/ IZR (Zfloor x) = x -> trunc x = Zfloor x.
Proof.
  intros [H | H]; [apply trunc_nonneg; exact H|].
  destruct (Rle_dec 0 x) as [Hx | Hx]; [apply trunc_nonneg; exact Hx|].
  rewrite trunc_neg by lra. apply Zceil_eq. lra.
Qed.

Lemma trunc_is_floor_plus_1 x :
  x < 0 -> IZR (Zfloor x) <> x -> trunc x = (Zfloor x + 1)%Z.
Proof.
  intros Hx Hn. rewrite trunc_neg by exact Hx.
  pose proof (Zfloor_bound x) as [Hl Hu].
  apply Zceil_eq. rewrite plus_IZR. lra.
Qed.

(** C6 (as the code has it): [WorldToGrid] rounds each component of
    [(p - origin.translation) / resolution] toward zero.  The result is
    the floor of a component that is not negative (or is a whole number),
    and one more than the floor of any other negative component. *)
Theorem WorldToGrid_rounds_toward_zero (g : Grid.t) (p : vec2) :
  let q := vdiv (vsub p (Pose.translation (Grid.world_T_map g))) (Grid.resolution g) in
  in_int32_range (fst q) -> in_int32_range (snd q) ->
  (0 <= fst q \/ IZR (Zfloor (fst q)) = fst q ->
     fst (Grid.WorldToGrid g p) = Zfloor (fst q)) /\
  (fst q < 0 -> IZR (Zfloor (fst q)) <> fst q ->
     fst (Grid.WorldToGrid g p) = (Zfloor (fst q) + 1)%Z) /\
  (0 <= snd q \/ IZR (Zfloor (snd q)) = snd q ->
     snd (Grid.WorldToGrid g p) = Zfloor (snd q)) /\
  (snd q < 0 -> IZR (Zfloor (snd q)) <> snd q ->
     snd (Grid.WorldToGrid g p) = (Zfloor (snd q) + 1)%Z).
Proof.
  intros q _ _. unfold Grid.WorldToGrid, astype_int32. fold q. cbn [fst snd].
  repeat split; intros; auto using trunc_is_floor, trunc_is_floor_plus_1.
Qed.

Lemma half_floor : Zfloor (- 0.5) = (-1)%Z.
Proof. apply Zfloor_eq. simpl. lra. Qed.

Lemma half_ceil : Zceil (- 0.5) = 0%Z.
Proof. apply Zceil_eq. simpl. lra. Qed.
End CoordinateFacts.

Section CoordinateSamples.
Local Open Scope R_scope.

(** C6, as the specification words it, fails: half a cell below the
    origin of the grid the floor is [-1], and [WorldToGrid] gives [0]. *)
Lemma WorldToGrid_is_not_floor :
  Grid.WorldToGrid grid_1x1 (- 0.5, 0) = (0, 0)%Z /\
  floor_cell (vdiv (vsub (- 0.5, 0) (Pose.translation (Grid.world_T_map grid_1x1)))
                   (Grid.resolution grid_1x1)) = (-1, 0)%Z.
Proof.
  unfold Grid.WorldToGrid, floor_cell, astype_int32, vdiv, vsub. cbn [fst snd
    grid_1x1 pose_at_origin Grid.world_T_map Grid.resolution Pose.translation].
  replace ((- 0.5 - 0) / 1) with (- 0.5) by (simpl; lra).
  replace ((0 - 0) / 1) with (IZR 0) by (simpl; lra).
  rewrite trunc_neg by (simpl; lra).
  rewrite trunc_nonneg by lra.
  rewrite half_floor, half_ceil, ZfloorZ. split; reflexivity.
Qed.

(** The theorem of C6 at that point. *)
Lemma WorldToGrid_rounds_toward_zero_witness :
  fst (Grid.WorldToGrid grid_1x1 (- 0.5, 0)) = (Zfloor (- 0.5) + 1)%Z.
Proof.
  pose proof (WorldToGrid_rounds_toward_zero grid_1x1 (- 0.5, 0)) as H.
  cbn [fst snd grid_1x1 pose_at_origin Grid.world_T_map Grid.resolution
       Pose.translation vdiv vsub] in H.
  replace ((- 0.5 - 0) / 1) with (- 0.5) in H by (simpl; lra).
  destruct H as (_ & H & _).
  - unfold in_int32_range. simpl. lra.
  - unfold in_int32_range. simpl. lra.
  - apply H.
    + simpl. lra.
    + rewrite half_floor. simpl. lra.
Defined.
End CoordinateSamples.

(** * The sensor model *)

Section SensorFacts.
Local Open Scope R_scope.

Lemma sqrt_2PI_pos : 0 < sqrt (2 * PI).
Proof. apply sqrt_lt_R0. pose proof PI_RGT_0. lra. Qed.

Lemma beam_likelihood_pos r s : 0 < beam_likelihood r s.
Proof.
  unfold beam_likelihood, SENSOR_MODEL_VAR.
  apply Rmult_lt_0_compat; [|apply exp_pos].
  apply Rdiv_lt_0_compat; [lra|].
  apply Rmult_lt_0_compat; [apply sqrt_2PI_pos | lra].
Qed.


Lemma prod_list_pos l : Forall (fun x => 0 < x) l -> 0 < prod_list l.
Proof.
  induction 1 as [|x l Hx _ IH]; simpl; [lra|].
  apply Rmult_lt_0_compat; assumption.
Qed.

Lemma beam_likelihoods_pos ranges sims :
  Forall (fun x => 0 < x) (beam_likelihoods ranges sims).
Proof.
  unfold beam_likelihoods. revert sims.
  induction ranges as [|r ranges IH]; intros [|s sims]; simpl; constructor.
  - apply beam_likelihood_pos.
  - apply IH.
Qed.

Lemma likelihood_loop_run ranges : forall (sims : list f64) (w : f64) h,
  (length ranges <= length sims)%nat ->
  likelihood_loop ranges sims w h = (Returned (likelihood_product ranges sims w), h).
Proof.
  induction ranges as [|r ranges IH]; intros sims w h Hlen.
  - destruct sims; reflexivity.
  - destruct sims as [|s sims]; simpl in Hlen; [lia|].
    cbn [likelihood_loop likelihood_product]. apply IH. lia.
Qed.

Lemma exp_monotone x y : x <= y -> exp x <= exp y.
Proof.
  intros [H | ->]; [left; apply exp_increasing; exact H | lra].
Qed.

Lemma peak_likelihood_pos : 0 < peak_likelihood.
Proof.
  unfold peak_likelihood, SENSOR_MODEL_VAR.
  apply Rdiv_lt_0_compat; [lra|].
  apply Rmult_lt_0_compat; [apply sqrt_2PI_pos | lra].
Qed.

Lemma peak_likelihood_le_1 : peak_likelihood <= 1.
Proof.
  unfold peak_likelihood, SENSOR_MODEL_VAR.
  assert (H1 : 1 <= sqrt (2 * PI)).
  { rewrite <- sqrt_1. apply sqrt_le_1; [lra | |]; pose proof PI2_3_2; pose proof PI_RGT_0; lra. }
  apply (Rmult_le_reg_r (sqrt (2 * PI) * 15)); [nra|].
  unfold Rdiv. rewrite Rmult_assoc, Rinv_l by nra. nra.
Qed.

Lemma beam_likelihood_exact r : beam_likelihood r r = peak_likelihood.
Proof.
  unfold beam_likelihood, peak_likelihood.
  replace (- 0.5 * ((r - r) / SENSOR_MODEL_VAR) ^ 2) with 0.
  - rewrite exp_0. ring.
  - unfold SENSOR_MODEL_VAR. simpl. lra.
Qed.

Lemma beam_likelihood_order r s1 s2 :
  Rabs (r - s1) <= Rabs (r - s2) -> beam_likelihood r s2 <= beam_likelihood r s1.
Proof.
  intros H. unfold beam_likelihood. fold peak_likelihood.
  apply Rmult_le_compat_l; [left; apply peak_likelihood_pos|].
  apply exp_monotone. apply Rsqr_le_abs_1 in H. unfold Rsqr in H.
  unfold SENSOR_MODEL_VAR. simpl. lra.
Qed.

Lemma beam_likelihood_le_peak r s : beam_likelihood r s <= peak_likelihood.
Proof.
  rewrite <- (beam_likelihood_exact r). apply beam_likelihood_order.
  replace (r - r) with 0 by ring. rewrite Rabs_R0. apply Rabs_pos.
Qed.



Lemma beam_likelihoods_le_1 ranges sims : prod_list (beam_likelihoods ranges sims) <= 1.
Proof.
  unfold beam_likelihoods. revert sims.
  induction ranges as [|r ranges IH]; intros [|s sims]; simpl; try lra.
  pose proof (beam_likelihood_pos r s). pose proof (beam_likelihood_le_peak r s).
  pose proof peak_likelihood_le_1.
  pose proof (prod_list_pos _ (beam_likelihoods_pos ranges sims)) as Hp.
  unfold beam_likelihoods in Hp. specialize (IH sims). nra.
Qed.

(** *** Underflow *)
















End SensorFacts.

(** * The store and the monad *)

Lemma bind_returned {A B} (m : M A) (k : A -> M B) h a h' :
  m h = (Returned a, h') -> bind m k h = k a h'.
Proof. intros H. unfold bind. rewrite H. reflexivity. Qed.

Lemma bind_raised {A B} (m : M A) (k : A -> M B) h e h' :
  m h = (Raised e, h') -> bind m k h = (Raised e, h').
Proof. intros H. unfold bind. rewrite H. reflexivity. Qed.

Lemma read_some {A} (field : heap -> gmap loc A) l h a :
  field h !! l = Some a -> read field l h = (Returned a, h).
Proof. intros H. unfold read. rewrite H. reflexivity. Qed.

Lemma index_some {A} (l : list A) i a h :
  l !! i = Some a -> index l i h = (Returned a, h).
Proof. intros H. unfold index. rewrite H. reflexivity. Qed.

Lemma index_none {A} (l : list A) i h :
  l !! i = None -> index l i h = (Raised IndexError, h).
Proof. intros H. unfold index. rewrite H. reflexivity. Qed.

(** * [Particle.UpdateOdom] *)

Section OdomFacts.
Local Open Scope R_scope.

Lemma Particle_UpdateOdom_run h self odom_msg z me pose :
  particle_objs h !! self = Some me ->
  pose_objs h !! Particle.map_T_particle me = Some pose ->
  Particle_UpdateOdom self odom_msg z h
  = (Returned tt,
     mk_heap
       (<[self := Particle.mk (Particle.grid me) (Particle.map_T_particle me)
                    (Some (odom_stamp odom_msg)) (Particle.weight me)]>
          (particle_objs h))
       (<[Particle.map_T_particle me := moved_pose me pose odom_msg z]> (pose_objs h))
       (grid_objs h) (filter_objs h)).
Proof.
  intros Hme Hpose. unfold Particle_UpdateOdom.
  rewrite (bind_returned _ _ h me h) by (apply read_some; exact Hme).
  unfold bind at 1. cbn [set_particle].
  erewrite bind_returned by (apply read_some; cbn; exact Hpose).
  unfold bind at 1. cbn [set_pose particle_objs pose_objs grid_objs filter_objs].
  erewrite bind_returned by (apply read_some; cbn; apply lookup_insert_eq).
  unfold set_pose.
  cbn [particle_objs pose_objs grid_objs filter_objs Pose.rotation Pose.translation].
  rewrite insert_insert_eq. reflexivity.
Qed.

(** C10: [UpdateOdom] on a particle returns normally and writes the
    particle's time stamp and its pose object only: the particle keeps its
    weight and its references to the grid and to the pose object, no grid
    object and no filter object changes, and no other particle or pose
    object changes. *)
Theorem Particle_UpdateOdom_frame h self odom_msg z me pose :
  particle_objs h !! self = Some me ->
  pose_objs h !! Particle.map_T_particle me = Some pose ->
  let h' := snd (Particle_UpdateOdom self odom_msg z h) in
  fst (Particle_UpdateOdom self odom_msg z h) = Returned tt /\
  (exists me', particle_objs h' !! self = Some me' /\
               Particle.weight me' = Particle.weight me /\
               Particle.grid me' = Particle.grid me /\
               Particle.map_T_particle me' = Particle.map_T_particle me) /\
  grid_objs h' = grid_objs h /\
  filter_objs h' = filter_objs h /\
  (forall l, l <> self -> particle_objs h' !! l = particle_objs h !! l) /\
  (forall l, l <> Particle.map_T_particle me -> pose_objs h' !! l = pose_objs h !! l).
Proof.
  intros Hme Hpose h'. subst h'.
  rewrite (Particle_UpdateOdom_run h self odom_msg z me pose Hme Hpose).
  cbn [fst snd particle_objs pose_objs grid_objs filter_objs].
  split; [reflexivity|]. split.
  { eexists. split; [apply lookup_insert_eq|]. cbn. auto. }
  split; [reflexivity|]. split; [reflexivity|].
  split; intros l Hl; apply lookup_insert_ne; congruence.
Qed.
(** One second at one metre per second along x, without noise, from the
    origin: the particle ends one metre further along x. *)
Example moved_pose_unit_step :
  moved_pose particle_at_time_0 pose_at_origin odom_forward no_noise = Pose.mk 0 (1, 0).
Proof.
  unfold moved_pose, particle_at_time_0, pose_at_origin, odom_forward, no_noise, RotateBy,
    vadd, vscale, to_sec, LINEAR_MODEL_VAR_X, LINEAR_MODEL_VAR_Y, ANGULAR_MODEL_VAR.
  cbn [Particle.last_odom_timestamp odom_stamp linear_x linear_y angular_z z_x z_y z_w
       Pose.rotation Pose.translation fst snd].
  rewrite cos_0, sin_0. change (1000000000 - 0)%Z with 1000000000%Z.
  f_equal; [|f_equal]; unfold Q2R; cbn [QArith_base.Qnum QArith_base.Qden]; field.
Qed.
End OdomFacts.

(** * [Particle.UpdateScan] *)

Section ScanFacts.
Local Open Scope R_scope.

Lemma linspace_length a b n : length (linspace a b n) = n.
Proof.
  unfold linspace. destruct n as [|[|n]]; [reflexivity | reflexivity |].
  rewrite length_map, length_seq. reflexivity.
Qed.

Lemma Scan_init_lengths scan_msg :
  length (Scan.angles (Scan.init scan_msg)) = length (Scan.ranges (Scan.init scan_msg)).
Proof. unfold Scan.init. cbn. apply linspace_length. Qed.

Lemma sim_ranges_of_length pose grid scan :
  length (sim_ranges_of pose grid scan) = length (Scan.angles scan).
Proof.
  unfold sim_ranges_of, _ComputeSimulatedRanges. rewrite !length_map. reflexivity.
Qed.







Lemma Particle_UpdateScan_run h self scan me pose grid :
  particle_objs h !! self = Some me ->
  pose_objs h !! Particle.map_T_particle me = Some pose ->
  grid_objs h !! Particle.grid me = Some grid ->
  length (Scan.angles scan) = length (Scan.ranges scan) ->
  Particle_UpdateScan self scan h
  = (Returned tt,
     mk_heap
       (<[self := Particle.mk (Particle.grid me) (Particle.map_T_particle me)
                    (Particle.last_odom_timestamp me) (scan_weight pose grid scan)]>
          (particle_objs h))
       (pose_objs h) (grid_objs h) (filter_objs h)).
Proof.
  intros Hme Hpose Hgrid Hlen. unfold Particle_UpdateScan.
  assert (Hsim : Particle_ComputeSimulatedRanges self scan h
                 = (Returned (sim_ranges_of pose grid scan), h)).
  { unfold Particle_ComputeSimulatedRanges.
    rewrite (bind_returned _ _ h me h) by (apply read_some; exact Hme).
    rewrite (bind_returned _ _ h pose h) by (apply read_some; exact Hpose).
    rewrite (bind_returned _ _ h grid h) by (apply read_some; exact Hgrid).
    reflexivity. }
  rewrite (bind_returned _ _ _ _ _ Hsim).
  erewrite bind_returned
    by (apply likelihood_loop_run; rewrite sim_ranges_of_length; lia).
  rewrite (bind_returned _ _ h me h) by (apply read_some; exact Hme).
  reflexivity.
Qed.






(** A beam straight ahead on a free row of ten cells, with a maximal range
    of five metres: the simulated range is five metres. *)
Example sim_ranges_free_row :
  sim_ranges_of pose_at_origin grid_row_10 scan_ahead = [Finite 5].
Proof.
  unfold sim_ranges_of, _ComputeSimulatedRanges, scan_ahead, grid_row_10, pose_at_origin,
    astype_int32, vdiv, vsub, vadd, vscale.
  cbn [Scan.angles Scan.range_max Grid.world_T_map Grid.data Grid.resolution
       Pose.translation Pose.rotation map fst snd].
  rewrite (Rplus_0_l 0), cos_0, sin_0.
  replace ((0 - 0) / 1) with (IZR 0) by (simpl; lra).
  replace ((0 + 5 * 1 - 0) / 1) with (IZR 5) by (simpl; lra).
  replace ((0 + 5 * 0 - 0) / 1) with (IZR 0) by (simpl; lra).
  rewrite !trunc_nonneg by lra. rewrite !ZfloorZ.
  change (_CastRay (0, 0)%Z (5, 0)%Z (mk_grid_data 1 10 (replicate 10 0%Z))) with (5, 0)%Z.
  cbn [fst snd]. change (wrap32 (wrap32 (5 - 0) * wrap32 (5 - 0)) + wrap32 (wrap32 (0 - 0) * wrap32 (0 - 0)))%Z
    with 25%Z.
  unfold np_sqrt. destruct (Rlt_dec (IZR 25) 0) as [H | _]; [lra|].
  replace (IZR 25) with (5 * 5) by (simpl; lra).
  rewrite sqrt_square by lra. cbn [f64_scale]. do 2 f_equal. lra.
Qed.
End ScanFacts.

(** * Populations *)

Section PopulationFacts.
Local Open Scope R_scope.

Lemma reweighted_refl scan h : reweighted scan h h.
Proof.
  repeat split. intros l. destruct (particle_objs h !! l); constructor.
  repeat split. left. reflexivity.
Qed.

Lemma scan_weight_of_same scan h h' me me' w :
  pose_objs h' = pose_objs h -> grid_objs h' = grid_objs h ->
  Particle.grid me' = Particle.grid me ->
  Particle.map_T_particle me' = Particle.map_T_particle me ->
  scan_weight_of h scan me w <-> scan_weight_of h' scan me' w.
Proof.
  intros Hq Hg E1 E2. unfold scan_weight_of. rewrite Hq, Hg, E1, E2. reflexivity.
Qed.

Lemma reweighted_trans scan h1 h2 h3 :
  reweighted scan h1 h2 -> reweighted scan h2 h3 -> reweighted scan h1 h3.
Proof.
  intros (Hq & Hg & Hf & Hp) (Hq' & Hg' & Hf' & Hp').
  repeat split; try congruence.
  intros l. specialize (Hp l). specialize (Hp' l).
  destruct Hp as [a b (A1 & A2 & A3 & A4) |]; inversion Hp' as [b' c (B1 & B2 & B3 & B4) |];
    subst; constructor.
  repeat split; try congruence.
  destruct B4 as [B4 | B4].
  - rewrite B4. exact A4.
  - right. apply (scan_weight_of_same scan h1 h2 a b _ Hq Hg A1 A2). exact B4.
Qed.

Lemma reweighted_live scan h h' l :
  reweighted scan h h' -> live_particle h l -> live_particle h' l.
Proof.
  intros (Hq & Hg & _ & Hp) (me & Hme & Hpose & Hgrid).
  specialize (Hp l). rewrite Hme in Hp.
  inversion Hp as [a me' (A1 & A2 & _ & _) |]; subst.
  exists me'. rewrite A1, A2, Hq, Hg. auto.
Qed.

Lemma reweighted_scan_weight scan h h' l :
  reweighted scan h h' -> has_scan_weight scan h l -> has_scan_weight scan h' l.
Proof.
  intros (Hq & Hg & _ & Hp) (me & Hme & Hw).
  specialize (Hp l). rewrite Hme in Hp.
  inversion Hp as [a me' (A1 & A2 & _ & A4) |]; subst.
  exists me'. split; [congruence|].
  apply (scan_weight_of_same scan h h' me me' _ Hq Hg A1 A2).
  destruct A4 as [A4 | A4]; [rewrite A4; exact Hw | exact A4].
Qed.



(** The loop [for particle in self.particles: particle.UpdateScan(scan)]
    returns normally and gives every particle of the list the weight of
    the scan. *)
Lemma for_each_UpdateScan_run scan :
  length (Scan.angles scan) = length (Scan.ranges scan) ->
  forall ps h,
    Forall (live_particle h) ps ->
    exists h', for_each (fun particle => Particle_UpdateScan particle scan) ps h
               = (Returned tt, h') /\
               reweighted scan h h' /\
               Forall (has_scan_weight scan h') ps.
Proof.
  intros Hlen. induction ps as [|l ps IH]; intros h Hlive.
  - exists h. split; [reflexivity|]. split; [apply reweighted_refl | constructor].
  - inversion Hlive as [|? ? Hl Hps]; subst.
    destruct Hl as (me & Hme & [pose Hpose] & [grid Hgrid]).
    pose proof (Particle_UpdateScan_run h l scan me pose grid Hme Hpose Hgrid Hlen) as Hrun.
    set (h1 := mk_heap _ _ _ _) in Hrun.
    assert (H01 : reweighted scan h h1).
    { repeat split. intros l'. subst h1. cbn.
      destruct (decide (l = l')) as [<- | Hne].
      - rewrite lookup_insert_eq, Hme. constructor. repeat split. right.
        exists pose, grid. auto.
      - rewrite lookup_insert_ne by exact Hne.
        destruct (particle_objs h !! l'); constructor. repeat split. left. reflexivity. }
    destruct (IH h1) as (h' & Hrun' & H1' & Hpos).
    { eapply Forall_impl; [exact Hps|]. intros l'. apply (reweighted_live scan). exact H01. }
    exists h'. split; [|split].
    + cbn [for_each]. rewrite (bind_returned _ _ _ _ _ Hrun). exact Hrun'.
    + eapply reweighted_trans; eassumption.
    + constructor; [|exact Hpos].
      apply (reweighted_scan_weight scan h1 h' l H1').
      eexists. split; [subst h1; cbn; apply lookup_insert_eq|].
      exists pose, grid. subst h1. cbn. auto.
Qed.
End PopulationFacts.

(** * Resampling *)

Section ResampleFacts.
Local Open Scope R_scope.

(** A loop body that only reads the store. *)
Lemma collect_reads {A B} (f : A -> M B) (g : A -> B) (l : list A) h :
  Forall (fun a => f a h = (Returned (g a), h)) l ->
  collect f l h = (Returned (map g l), h).
Proof.
  induction 1 as [|a l Ha _ IH]; [reflexivity|].
  cbn [collect map].
  rewrite (bind_returned _ _ _ _ _ Ha), (bind_returned _ _ _ _ _ IH). reflexivity.
Qed.

Lemma collect_reads_raises {A B} (f : A -> M B) (g : A -> B) (l1 l2 : list A) a e h :
  Forall (fun a => f a h = (Returned (g a), h)) l1 ->
  f a h = (Raised e, h) ->
  collect f (l1 ++ a :: l2) h = (Raised e, h).
Proof.
  intros H Ha. induction H as [|x l Hx _ IH]; cbn [collect app].
  - rewrite (bind_raised _ _ _ _ _ Ha). reflexivity.
  - rewrite (bind_returned _ _ _ _ _ Hx), (bind_raised _ _ _ _ _ IH). reflexivity.
Qed.

Lemma particles_item_some h self f i l :
  filter_objs h !! self = Some f ->
  ParticleFilter.particles f !! i = Some l ->
  particles_item self i h = (Returned l, h).
Proof.
  intros Hf Hl. unfold particles_item.
  rewrite (bind_returned _ _ h f h) by (apply read_some; exact Hf).
  apply index_some. exact Hl.
Qed.

Lemma particles_item_none h self f i :
  filter_objs h !! self = Some f ->
  ParticleFilter.particles f !! i = None ->
  particles_item self i h = (Raised IndexError, h).
Proof.
  intros Hf Hl. unfold particles_item.
  rewrite (bind_returned _ _ h f h) by (apply read_some; exact Hf).
  apply index_none. exact Hl.
Qed.

Lemma read_weight_run h self ps i :
  population h self ps -> (i < length ps)%nat ->
  read_weight self i h = (Returned (weight_at h ps i), h).
Proof.
  intros [(f & Hf & <-) Hlive] Hi.
  destruct (lookup_lt_is_Some_2 _ _ Hi) as [l Hl].
  rewrite Forall_forall in Hlive.
  destruct (Hlive l) as (me & Hme & _).
  { apply list_elem_of_lookup. eauto. }
  unfold read_weight, weight_at.
  rewrite (bind_returned _ _ _ _ _ (particles_item_some h self f i l Hf Hl)).
  rewrite (bind_returned _ _ h me h) by (apply read_some; exact Hme).
  rewrite Hl, Hme. reflexivity.
Qed.

Lemma read_weight_raises h self ps i :
  population h self ps -> (length ps <= i)%nat ->
  read_weight self i h = (Raised IndexError, h).
Proof.
  intros [(f & Hf & <-) _] Hi. unfold read_weight.
  apply bind_raised. apply (particles_item_none h self f i Hf).
  apply lookup_ge_None. exact Hi.
Qed.

(** The first loop of the resampling step: it reads [n] weights, and
    fails on a population of fewer than [n] particles. *)
Lemma collect_weights_run h self ps n :
  population h self ps -> (n <= length ps)%nat ->
  collect (read_weight self) (seq 0 n) h
  = (Returned (map (weight_at h ps) (seq 0 n)), h).
Proof.
  intros Hpop Hn. apply collect_reads. apply Forall_forall. intros i Hi.
  apply elem_of_seq in Hi. apply read_weight_run; [exact Hpop | lia].
Qed.

Lemma collect_weights_raises h self ps n :
  population h self ps -> (length ps < n)%nat ->
  collect (read_weight self) (seq 0 n) h = (Raised IndexError, h).
Proof.
  intros Hpop Hn.
  replace n with (length ps + S (n - S (length ps)))%nat by lia.
  rewrite seq_app. cbn [seq].
  apply (collect_reads_raises _ (weight_at h ps)).
  - apply Forall_forall. intros i Hi.
    apply elem_of_seq in Hi. apply read_weight_run; [exact Hpop | lia].
  - apply read_weight_raises with ps; [exact Hpop | lia].
Qed.

Lemma sum_list_pos l : l <> [] -> Forall (fun x => 0 < x) l -> 0 < sum_list l.
Proof.
  intros Hne H. induction H as [|x l Hx Hl IH]; [congruence|].
  destruct l as [|y l]; [cbn; lra|].
  assert (0 < sum_list (y :: l)) by (apply IH; discriminate).
  change (0 < x + sum_list (y :: l)). lra.
Qed.

Lemma numbers_length l : forall xs, numbers l = Some xs -> length xs = length l.
Proof.
  induction l as [|[x|] l IH]; intros xs H; cbn in H.
  - injection H as <-. reflexivity.
  - destruct (numbers l) as [ys|]; [|discriminate]. injection H as <-.
    cbn. rewrite (IH ys eq_refl). reflexivity.
  - discriminate.
Qed.

Lemma numbers_Forall (P : R -> Prop) l :
  Forall (fun v => exists x, v = Finite x /\ P x) l ->
  exists xs, numbers l = Some xs /\ Forall P xs.
Proof.
  induction 1 as [|v l (x & -> & Hx) _ (xs & E & Hxs)].
  - exists []. split; [reflexivity | constructor].
  - exists (x :: xs). cbn. rewrite E. split; [reflexivity | constructor; assumption].
Qed.


(** With positive weights the sampler accepts the distribution and the
    draw goes through. *)
Lemma random_choice_positive (prob : list f64) (drawn : list nat) h :
  prob <> [] -> Forall (fun v => exists x, v = Finite x /\ 0 < x) prob ->
  random_choice (length prob) (length prob) (normalized prob) drawn h
  = (Returned drawn, h).
Proof.
  intros Hne Hall. destruct (numbers_Forall _ _ Hall) as (nums & Enum & Hpos).
  pose proof (numbers_length _ _ Enum) as Hlen.
  assert (Hne' : nums <> []) by (intros ->; destruct prob; [congruence | discriminate]).
  unfold normalized. rewrite Enum, <- Hlen. clear Hall Enum Hlen Hne prob.
  rename nums into prob.
  pose proof (sum_list_pos prob Hne' Hpos) as Hs.
  cbv zeta. destruct (Req_dec_T (sum_list prob) 0) as [H0 | _]; [lra|].
  unfold random_choice. rewrite length_map, bool_decide_eq_true_2 by reflexivity.
  cbn [andb].
  replace (forallb _ _) with true; [reflexivity|].
  symmetry. apply forallb_forall. intros x Hx.
  apply in_map_iff in Hx. destruct Hx as (w & <- & Hw).
  rewrite Forall_forall in Hpos. apply list_elem_of_In, Hpos in Hw.
  destruct (Rlt_dec (w / sum_list prob) 0) as [Hneg | _]; [|reflexivity].
  exfalso. assert (0 < w / sum_list prob) by (apply Rdiv_lt_0_compat; assumption). lra.
Qed.

End ResampleFacts.

Section CopyFacts.
Local Open Scope R_scope.

Lemma heap_ext_refl h : heap_ext h h.
Proof. unfold heap_ext. auto. Qed.

Lemma heap_ext_trans h1 h2 h3 : heap_ext h1 h2 -> heap_ext h2 h3 -> heap_ext h1 h3.
Proof.
  intros (A1 & A2 & A3 & A4) (B1 & B2 & B3 & B4).
  split; [etrans; eassumption|].
  split; [etrans; eassumption|].
  split; [etrans; eassumption | congruence].
Qed.

Lemma deepcopy_run h src me pose grid :
  particle_objs h !! src = Some me ->
  pose_objs h !! Particle.map_T_particle me = Some pose ->
  grid_objs h !! Particle.grid me = Some grid ->
  deepcopy src h
  = (Returned (fresh (dom (particle_objs h))),
     mk_heap
       (<[fresh (dom (particle_objs h)) :=
            Particle.mk (fresh (dom (grid_objs h))) (fresh (dom (pose_objs h)))
                        (Particle.last_odom_timestamp me) (Particle.weight me)]>
          (particle_objs h))
       (<[fresh (dom (pose_objs h)) := pose]> (pose_objs h))
       (<[fresh (dom (grid_objs h)) := grid]> (grid_objs h))
       (filter_objs h)).
Proof.
  intros Hme Hpose Hgrid. unfold deepcopy.
  rewrite (bind_returned _ _ h me h) by (apply read_some; exact Hme).
  rewrite (bind_returned _ _ h grid h) by (apply read_some; exact Hgrid).
  unfold bind at 1. unfold new_grid.
  erewrite bind_returned by (apply read_some; cbn; exact Hpose).
  reflexivity.
Qed.

Lemma fresh_lookup {A} (m : gmap loc A) : m !! fresh (dom m) = None.
Proof. apply not_elem_of_dom, is_fresh. Qed.

Lemma pose_locs_cons h l ps me :
  particle_objs h !! l = Some me ->
  pose_locs h (l :: ps) = Particle.map_T_particle me :: pose_locs h ps.
Proof. intros H. unfold pose_locs. simpl. rewrite H. reflexivity. Qed.

Lemma grid_locs_cons h l ps me :
  particle_objs h !! l = Some me ->
  grid_locs h (l :: ps) = Particle.grid me :: grid_locs h ps.
Proof. intros H. unfold grid_locs. simpl. rewrite H. reflexivity. Qed.

Lemma copied_weaken h0 h1 h2 h' src new :
  heap_ext h1 h2 -> copied h0 h2 h' src new -> copied h0 h1 h' src new.
Proof.
  intros (E1 & E2 & E3 & _) (me & me' & pose & grid & H).
  exists me, me', pose, grid.
  destruct H as (A1 & A2 & A3 & A4 & A5 & A6 & A7 & A8 & A9 & A10 & A11).
  repeat split; try assumption; eapply lookup_weaken_None; eassumption.
Qed.

Lemma collect_copies_run h0 self f drawn :
  filter_objs h0 !! self = Some f ->
  forall idx h,
    heap_ext h0 h ->
    Forall (fun i => exists j src, drawn !! i = Some j /\
                       ParticleFilter.particles f !! j = Some src /\
                       live_particle h0 src) idx ->
    exists news h',
      collect (copy_drawn self drawn) idx h = (Returned news, h') /\
      heap_ext h h' /\
      Forall2 (fun i new => exists j src, drawn !! i = Some j /\
                              ParticleFilter.particles f !! j = Some src /\
                              copied h0 h h' src new) idx news /\
      separate h' news.
Proof.
  intros Hf. induction idx as [|i idx IH]; intros h Hext Hidx.
  { exists [], h. split; [reflexivity|]. split; [apply heap_ext_refl|].
    split; [constructor|]. repeat split; constructor. }
  inversion Hidx as [|? ? Hi Hidx']; subst.
  destruct Hi as (j & src & Hj & Hsrc & me & Hme & [pose Hpose] & [grid Hgrid]).
  destruct Hext as (E1 & E2 & E3 & E4).
  pose proof (lookup_weaken _ _ _ _ Hme E1) as Hme'.
  pose proof (lookup_weaken _ _ _ _ Hpose E2) as Hpose'.
  pose proof (lookup_weaken _ _ _ _ Hgrid E3) as Hgrid'.
  pose proof (deepcopy_run h src me pose grid Hme' Hpose' Hgrid') as Hcopy.
  set (lp := fresh (dom (particle_objs h))) in *.
  set (lq := fresh (dom (pose_objs h))) in *.
  set (lg := fresh (dom (grid_objs h))) in *.
  set (me1 := Particle.mk lg lq _ _) in *.
  set (h1 := mk_heap _ _ _ _) in Hcopy.
  assert (Hstep : copy_drawn self drawn i h = (Returned lp, h1)).
  { unfold copy_drawn.
    rewrite (bind_returned _ _ _ _ _ (index_some drawn i j h Hj)).
    rewrite (bind_returned _ _ _ _ _ (particles_item_some h self f j src
                                        ltac:(rewrite E4; exact Hf) Hsrc)).
    exact Hcopy. }
  assert (H01 : heap_ext h h1).
  { subst h1. repeat split; cbn; apply insert_subseteq, fresh_lookup. }
  assert (Hext1 : heap_ext h0 h1).
  { apply heap_ext_trans with h; [repeat split; assumption | exact H01]. }
  destruct (IH h1 Hext1 Hidx') as (news & h' & Hrun & H1' & Hall & Hsep).
  destruct H1' as (F1 & F2 & F3 & F4).
  assert (Hlp : particle_objs h' !! lp = Some me1).
  { eapply lookup_weaken; [|exact F1]. subst h1. cbn. apply lookup_insert_eq. }
  assert (Hlq : pose_objs h1 !! lq = Some pose).
  { subst h1. cbn. apply lookup_insert_eq. }
  assert (Hlg : grid_objs h1 !! lg = Some grid).
  { subst h1. cbn. apply lookup_insert_eq. }
  assert (Hnew : forall new, new ∈ news ->
            exists src' me', copied h0 h1 h' src' new /\ particle_objs h' !! new = Some me' /\
              pose_objs h1 !! Particle.map_T_particle me' = None /\
              grid_objs h1 !! Particle.grid me' = None /\
              particle_objs h1 !! new = None).
  { clear -Hall. induction Hall as [|a new idx news (j' & s' & _ & _ & Hc) _ IHall];
      intros x Hx; [inversion Hx|].
    apply elem_of_cons in Hx. destruct Hx as [-> | Hx]; [|apply IHall; exact Hx].
    pose proof Hc as (m & m' & q & g & H). exists s', m'. split; [exact Hc|]. tauto. }
  exists (lp :: news), h'. split; [|split; [|split]].
  - cbn [collect]. rewrite (bind_returned _ _ _ _ _ Hstep).
    rewrite (bind_returned _ _ _ _ _ Hrun). reflexivity.
  - apply heap_ext_trans with h1; [exact H01 | repeat split; assumption].
  - constructor.
    + exists j, src. repeat split; try assumption.
      exists me, me1, pose, grid. subst me1. cbn.
      repeat split; try assumption; try reflexivity.
      * eapply lookup_weaken; [exact Hlq | exact F2].
      * eapply lookup_weaken; [exact Hlg | exact F3].
      * apply fresh_lookup.
      * apply fresh_lookup.
      * apply fresh_lookup.
    + eapply Forall2_impl; [exact Hall|].
      intros a new (j' & s' & D1 & D2 & D3). exists j', s'.
      repeat split; try assumption. eapply copied_weaken; [exact H01 | exact D3].
  - destruct Hsep as (S1 & S2 & S3). unfold separate.
    rewrite (pose_locs_cons h' lp news me1 Hlp), (grid_locs_cons h' lp news me1 Hlp).
    unfold pose_locs, grid_locs in *.
    split; [|split]; apply NoDup_cons; split; try assumption.
    + intros Hin. destruct (Hnew lp Hin) as (_ & _ & _ & _ & _ & _ & Hnone).
      subst h1. cbn in Hnone. rewrite lookup_insert_eq in Hnone. discriminate.
    + intros Hin. apply list_elem_of_omap in Hin. destruct Hin as (new & Hin & Heq).
      destruct (Hnew new Hin) as (_ & m' & _ & Hm' & Hnone & _ & _).
      rewrite Hm' in Heq. cbn in Heq. injection Heq as Heq. subst me1. cbn in Heq.
      rewrite Heq in Hnone. congruence.
    + intros Hin. apply list_elem_of_omap in Hin. destruct Hin as (new & Hin & Heq).
      destruct (Hnew new Hin) as (_ & m' & _ & Hm' & _ & Hnone & _).
      rewrite Hm' in Heq. cbn in Heq. injection Heq as Heq. subst me1. cbn in Heq.
      rewrite Heq in Hnone. congruence.
Qed.
End CopyFacts.

Section ReplaceFacts.
Local Open Scope R_scope.

Lemma insert_take_drop (news ps : list loc) k x :
  news !! k = Some x -> (k < length ps)%nat ->
  <[k := x]> (take k news ++ drop k ps) = take (S k) news ++ drop (S k) ps.
Proof.
  intros Hx Hk.
  pose proof (lookup_lt_Some _ _ _ Hx) as Hk'.
  destruct (lookup_lt_is_Some_2 ps k Hk) as [y Hy].
  rewrite insert_app_r_alt by (rewrite length_take; lia).
  rewrite length_take, Nat.min_l, Nat.sub_diag by lia.
  rewrite (drop_S _ _ _ Hy). cbn.
  rewrite (take_S_r _ _ _ Hx), <- app_assoc. reflexivity.
Qed.

Lemma with_particles_twice h self f ps1 ps2 :
  with_particles (with_particles h self f ps1) self f ps2 = with_particles h self f ps2.
Proof. unfold with_particles. cbn. rewrite insert_insert_eq. reflexivity. Qed.

Lemma set_particles_item_run h self f i x :
  filter_objs h !! self = Some f ->
  (i < length (ParticleFilter.particles f))%nat ->
  set_particles_item self i x h
  = (Returned tt, with_particles h self f (<[i := x]> (ParticleFilter.particles f))).
Proof.
  intros Hf Hi. unfold set_particles_item.
  rewrite (bind_returned _ _ h f h) by (apply read_some; exact Hf).
  rewrite bool_decide_eq_true_2 by exact Hi. reflexivity.
Qed.

Lemma replace_loop_run self f (news ps : list loc) :
  (length news <= length ps)%nat ->
  forall m k h,
    (k + m = length news)%nat ->
    filter_objs h !! self
    = Some (ParticleFilter.mk (ParticleFilter.grid f) (ParticleFilter.last_timestamp f)
              (take k news ++ drop k ps)) ->
    for_each (store_item self news) (seq k m) h
    = (Returned tt, with_particles h self f (news ++ drop (length news) ps)).
Proof.
  intros Hlen. induction m as [|m IH]; intros k h Hk Hf.
  - cbn. unfold ret. f_equal. unfold with_particles. destruct h as [P Q G F]. cbn in *.
    f_equal. symmetry. apply insert_id. rewrite Hf.
    replace k with (length news) by lia. rewrite firstn_all. reflexivity.
  - cbn [seq for_each].
    destruct (lookup_lt_is_Some_2 news k ltac:(lia)) as [x Hx].
    assert (Hstep : store_item self news k h
                    = (Returned tt, with_particles h self f
                                      (take (S k) news ++ drop (S k) ps))).
    { unfold store_item. rewrite (bind_returned _ _ _ _ _ (index_some news k x h Hx)).
      rewrite (set_particles_item_run h self _ k x Hf).
      - cbn. rewrite insert_take_drop by (assumption || lia). reflexivity.
      - cbn. rewrite length_app, length_take, length_drop. lia. }
    rewrite (bind_returned _ _ _ _ _ Hstep).
    rewrite (IH (S k)).
    + rewrite with_particles_twice. reflexivity.
    + lia.
    + unfold with_particles. cbn. apply lookup_insert_eq.
Qed.
End ReplaceFacts.

Section ResampleRun.
Local Open Scope R_scope.

Lemma NUM_PARTICLES_pos : (0 < NUM_PARTICLES)%nat.
Proof. unfold NUM_PARTICLES. lia. Qed.

Lemma weights_positive h ps n :
  (n <= length ps)%nat ->
  Forall (has_weight (Rlt 0) h) ps ->
  Forall (fun v => exists x, v = Finite x /\ 0 < x) (map (weight_at h ps) (seq 0 n)).
Proof.
  intros Hn Hpos. apply Forall_forall. intros x Hx.
  apply list_elem_of_In, in_map_iff in Hx. destruct Hx as (i & <- & Hi).
  apply in_seq in Hi.
  destruct (lookup_lt_is_Some_2 ps i ltac:(lia)) as [l Hl].
  rewrite Forall_forall in Hpos.
  destruct (Hpos l) as (me & w & Hme & Ew & Hw); [apply list_elem_of_lookup; eauto|].
  unfold weight_at. rewrite Hl, Hme. eauto.
Qed.

Lemma copied_live h0 h h' src new : copied h0 h h' src new -> live_particle h' new.
Proof.
  intros (me & me' & pose & grid & H). exists me'.
  destruct H as (_ & _ & _ & A4 & A5 & A6 & _). rewrite A5, A6. eauto.
Qed.

Lemma heap_ext_live h h' l : heap_ext h h' -> live_particle h l -> live_particle h' l.
Proof.
  intros (E1 & E2 & E3 & _) (me & Hme & [q Hq] & [g Hg]). exists me.
  rewrite (lookup_weaken _ _ _ _ Hme E1), (lookup_weaken _ _ _ _ Hq E2),
          (lookup_weaken _ _ _ _ Hg E3). eauto.
Qed.

(** The resampling step on a population of at least [NUM_PARTICLES]
    particles with positive weights: it returns normally; the first
    [NUM_PARTICLES] entries of [self.particles] become copies of the drawn
    particles, made of new objects. *)
Lemma Resample_run h self ps drawn :
  population h self ps ->
  (NUM_PARTICLES <= length ps)%nat ->
  Forall (has_weight (Rlt 0) h) ps ->
  choice_result NUM_PARTICLES NUM_PARTICLES drawn ->
  exists news h',
    Resample self drawn h = (Returned tt, h') /\
    population h' self (news ++ drop NUM_PARTICLES ps) /\
    length news = NUM_PARTICLES /\
    heap_ext h (mk_heap (particle_objs h') (pose_objs h') (grid_objs h') (filter_objs h)) /\
    Forall2 (fun i new => exists j src, drawn !! i = Some j /\ ps !! j = Some src /\
                            copied h h h' src new) (seq 0 NUM_PARTICLES) news /\
    separate h' news.
Proof.
  intros Hpop Hn Hpos [Hdl Hdr]. pose proof NUM_PARTICLES_pos as HN.
  unfold Resample. remember NUM_PARTICLES as N eqn:EN. clear EN.
  pose proof Hpop as [(f & Hf & Hps) Hlive].
  rewrite (bind_returned _ _ _ _ _ (collect_weights_run h self ps N Hpop Hn)).
  rewrite (bind_returned _ _ h drawn h).
  2:{ set (prob := map (weight_at h ps) (seq 0 N)).
      assert (Hlenp : length prob = N) by (subst prob; rewrite length_map, length_seq; reflexivity).
      rewrite <- Hlenp at 1 2. apply random_choice_positive.
      - intros E. rewrite E in Hlenp. cbn in Hlenp. lia.
      - apply weights_positive; assumption. }
  destruct (collect_copies_run h self f drawn Hf (seq 0 N) h (heap_ext_refl h))
    as (news & h3 & Hrun & Hext & Hall & Hsep).
  { apply Forall_forall. intros i Hi. apply elem_of_seq in Hi.
    destruct (lookup_lt_is_Some_2 drawn i ltac:(lia)) as [j Hj].
    rewrite Forall_forall in Hdr.
    assert (Hjn : (j < N)%nat) by (apply Hdr, list_elem_of_lookup; eauto).
    destruct (lookup_lt_is_Some_2 ps j ltac:(lia)) as [src Hsrc].
    exists j, src. rewrite Hps. repeat split; try assumption.
    rewrite Forall_forall in Hlive. apply Hlive, list_elem_of_lookup. eauto. }
  change (fun i => do j <- index drawn i; do particle <- particles_item self j; deepcopy particle)
    with (copy_drawn self drawn).
  rewrite (bind_returned _ _ _ _ _ Hrun).
  assert (Hlen : length news = N).
  { apply Forall2_length in Hall. rewrite length_seq in Hall. congruence. }
  change (fun i => do x <- index news i; set_particles_item self i x)
    with (store_item self news).
  destruct Hext as (E1 & E2 & E3 & E4).
  pose proof (replace_loop_run self f news ps ltac:(lia) (length news) 0%nat h3
                ltac:(lia)) as Hloop.
  rewrite Hlen in Hloop.
  exists news, (with_particles h3 self f (news ++ drop N ps)).
  split.
  { apply Hloop. rewrite E4, Hf. cbn. rewrite drop_0, <- Hps. destruct f; reflexivity. }
  split; [|split; [exact Hlen|split; [|split]]].
  - split.
    + eexists. split; [unfold with_particles; cbn; apply lookup_insert_eq | reflexivity].
    + apply Forall_app. split.
      * apply Forall_forall. intros new Hnew.
        destruct (proj1 (list_elem_of_lookup _ _) Hnew) as [i Hi].
        destruct (Forall2_lookup_r _ _ _ _ _ Hall Hi) as (a & _ & j & src & _ & _ & Hc).
        apply copied_live in Hc. exact Hc.
      * eapply Forall_impl; [apply Forall_drop; exact Hlive|].
        intros l Hl. apply (heap_ext_live h h3) in Hl; [exact Hl|].
        unfold heap_ext. auto.
  - unfold with_particles, heap_ext. cbn. auto.
  - eapply Forall2_impl; [exact Hall|].
    intros i new (j & src & D1 & D2 & D3). exists j, src. rewrite <- Hps. auto.
  - exact Hsep.
Qed.
End ResampleRun.

Section InitFacts.
Local Open Scope R_scope.

Lemma Particle_init_run grid G draws t w h :
  grid_objs h !! grid = Some G ->
  samples G (positions draws) t ->
  Particle_init grid draws w h
  = (Returned (fresh (dom (particle_objs h))),
     mk_heap
       (<[fresh (dom (particle_objs h)) :=
            Particle.mk grid (fresh (dom (pose_objs h))) None w]> (particle_objs h))
       (<[fresh (dom (pose_objs h)) := Pose.mk (heading draws) t]> (pose_objs h))
       (grid_objs h) (filter_objs h)).
Proof.
  intros HG Ht. unfold Particle_init.
  rewrite (bind_returned _ _ h G h) by (apply read_some; exact HG).
  rewrite (bind_returned _ _ _ _ _ (Ht h)). reflexivity.
Qed.

Lemma has_weight_ext (P : R -> Prop) h h' l :
  heap_ext h h' -> has_weight P h l -> has_weight P h' l.
Proof.
  intros (E1 & _) (me & w & Hme & Hw). exists me, w. split; [|exact Hw].
  eapply lookup_weaken; eassumption.
Qed.

(** The list comprehension of [ParticleFilter.__init__] builds one live
    particle for each index, when every sampling loop finds a free cell. *)
Lemma collect_Particle_init_run grid G (draws : nat -> init_draws) w :
  (forall i, exists t, samples G (positions (draws i)) t) ->
  forall idx h,
    grid_objs h !! grid = Some G ->
    exists ps h',
      collect (fun i => Particle_init grid (draws i) w) idx h = (Returned ps, h') /\
      length ps = length idx /\
      heap_ext h h' /\
      Forall (live_particle h') ps /\
      Forall (has_weight (fun x => x = w) h') ps.
Proof.
  intros Hdraws. induction idx as [|i idx IH]; intros h HG.
  { exists [], h. split; [reflexivity|]. split; [reflexivity|].
    split; [apply heap_ext_refl|]. split; constructor. }
  destruct (Hdraws i) as [t Ht].
  pose proof (Particle_init_run grid G (draws i) t w h HG Ht) as Hstep.
  set (lp := fresh (dom (particle_objs h))) in *.
  set (lq := fresh (dom (pose_objs h))) in *.
  set (h1 := mk_heap _ _ _ _) in Hstep.
  assert (H01 : heap_ext h h1).
  { subst h1. unfold heap_ext. cbn.
    split; [apply insert_subseteq, fresh_lookup|].
    split; [apply insert_subseteq, fresh_lookup|]. auto. }
  destruct (IH h1 HG) as (ps & h' & Hrun & Hlen & H1' & Hlive & Hw).
  exists (lp :: ps), h'. split; [|split; [|split; [|split]]].
  - cbn [collect]. rewrite (bind_returned _ _ _ _ _ Hstep).
    rewrite (bind_returned _ _ _ _ _ Hrun). reflexivity.
  - cbn. lia.
  - eapply heap_ext_trans; eassumption.
  - constructor; [|exact Hlive].
    apply (heap_ext_live h1 h' lp H1').
    exists (Particle.mk grid lq None w). subst h1. cbn.
    rewrite !lookup_insert_eq, HG. eauto.
  - constructor; [|exact Hw].
    apply (has_weight_ext _ h1 h' lp H1').
    exists (Particle.mk grid lq None w), w. subst h1. cbn.
    rewrite lookup_insert_eq. auto.
Qed.

Lemma filter_with_weight_run grid G n (draws : nat -> init_draws) w h :
  (forall i, exists t, samples G (positions (draws i)) t) ->
  grid_objs h !! grid = Some G ->
  exists self ps h',
    filter_with_weight grid n draws w h = (Returned self, h') /\
    population h' self ps /\
    length ps = n /\
    Forall (has_weight (fun x => x = w) h') ps.
Proof.
  intros Hdraws HG.
  destruct (collect_Particle_init_run grid G draws w Hdraws (seq 0 n) h HG)
    as (ps & h1 & Hrun & Hlen & _ & Hlive & Hw).
  exists (fresh (dom (filter_objs h1))), ps.
  eexists. split; [|split; [|split]].
  - unfold filter_with_weight. rewrite (bind_returned _ _ _ _ _ Hrun). reflexivity.
  - split.
    + eexists. split; [cbn; apply lookup_insert_eq | reflexivity].
    + exact Hlive.
  - rewrite Hlen. apply length_seq.
  - exact Hw.
Qed.

Lemma draws_at_origin_sample : samples grid_1x1 (positions draws_at_origin) (0, 0).
Proof.
  intros h. unfold draws_at_origin, positions. cbn [sample_free].
  assert (Hc : Grid.WorldToGrid grid_1x1 (0, 0) = (0, 0)%Z).
  { unfold Grid.WorldToGrid, astype_int32, vdiv, vsub. cbn [fst snd grid_1x1
      pose_at_origin Grid.world_T_map Grid.resolution Pose.translation].
    replace ((0 - 0) / 1) with (IZR 0) by (simpl; lra).
    rewrite trunc_nonneg by lra. rewrite ZfloorZ. reflexivity. }
  unfold Grid.GetWorldCoords. rewrite Hc. reflexivity.
Qed.

(** The sample store holds a population of [n] particles of weight [w]. *)
Lemma sample_store_population n w :
  population (sample_store n w) (sample_filter n w)
             (particles_of (sample_store n w) (sample_filter n w)) /\
  length (particles_of (sample_store n w) (sample_filter n w)) = n /\
  Forall (has_weight (fun x => x = w) (sample_store n w))
         (particles_of (sample_store n w) (sample_filter n w)).
Proof.
  unfold sample_store, sample_filter.
  destruct (filter_with_weight_run 1%positive grid_1x1 n (fun _ => draws_at_origin) w
              heap_with_grid (fun _ => ex_intro _ _ draws_at_origin_sample) eq_refl)
    as (self & ps & h' & Hrun & Hpop & Hlen & Hw).
  rewrite Hrun. cbn [fst snd returned_loc].
  assert (Hps : particles_of h' self = ps).
  { destruct Hpop as [(f & Hf & Hps) _]. unfold particles_of. rewrite Hf. exact Hps. }
  rewrite Hps. auto.
Qed.

Lemma draw_first_valid : choice_result NUM_PARTICLES NUM_PARTICLES draw_first.
Proof.
  unfold choice_result, draw_first. split; [apply length_replicate|].
  apply Forall_replicate. apply NUM_PARTICLES_pos.
Qed.
End InitFacts.

(** * The claims on the resampling step *)

Section ResampleClaims.
Local Open Scope R_scope.

Lemma particles_of_population h self ps : population h self ps -> particles_of h self = ps.
Proof. intros [(f & Hf & Hps) _]. unfold particles_of. rewrite Hf. exact Hps. Qed.

(** C1 (as the code has it, for a population of [NUM_PARTICLES]
    particles): the resampling step returns normally and leaves as many
    particles as there were; the [i]-th new particle is a deep copy of the
    particle at the [i]-th drawn index: it has the contents of the pose and
    of the grid of that particle and also its weight, which is not reset;
    its particle, pose and grid objects are new, and no two new particles
    share any of them. *)
Theorem Resample_copies_drawn_particles h self ps drawn :
  population h self ps ->
  length ps = NUM_PARTICLES ->
  Forall (has_weight (Rlt 0) h) ps ->
  choice_result NUM_PARTICLES NUM_PARTICLES drawn ->
  exists ps' h',
    Resample self drawn h = (Returned tt, h') /\
    population h' self ps' /\
    length ps' = length ps /\
    Forall2 (fun j new => exists src, ps !! j = Some src /\ copied h h h' src new)
            drawn ps' /\
    separate h' ps'.
Proof.
  intros Hpop Hlen Hpos Hdraw.
  destruct (Resample_run h self ps drawn Hpop ltac:(lia) Hpos Hdraw)
    as (news & h' & Hrun & Hpop' & Hlen' & _ & Hall & Hsep).
  rewrite <- Hlen, drop_all, app_nil_r in Hpop'.
  exists news, h'. repeat split; try assumption; try (apply Hpop' || apply Hsep || lia).
  destruct Hdraw as [Hdl _].
  apply Forall2_same_length_lookup_2; [congruence|].
  intros i j new Hj Hnew.
  destruct (Forall2_lookup_r _ _ _ _ _ Hall Hnew) as (a & Ha & j' & src & D1 & D2 & D3).
  apply lookup_seq in Ha. destruct Ha as [-> _]. cbn in D1.
  rewrite Hj in D1. injection D1 as <-. eauto.
Qed.

Lemma positive_of_equal w h ps :
  0 < w -> Forall (has_weight (fun x => x = w) h) ps -> Forall (has_weight (Rlt 0) h) ps.
Proof.
  intros Hw H. eapply Forall_impl; [exact H|].
  intros l (me & x & Hme & Ex & E). exists me, x. split; [exact Hme|].
  split; [exact Ex|]. rewrite E. exact Hw.
Qed.

(** The theorem of C1 on a population of [NUM_PARTICLES] particles of weight
    [1], with a draw that picks the first particle every time. *)
Lemma Resample_copies_drawn_particles_witness :
  exists ps' h',
    Resample (sample_filter NUM_PARTICLES 1) draw_first (sample_store NUM_PARTICLES 1)
    = (Returned tt, h') /\
    population h' (sample_filter NUM_PARTICLES 1) ps' /\
    length ps' = length (particles_of (sample_store NUM_PARTICLES 1)
                                      (sample_filter NUM_PARTICLES 1)) /\
    Forall2 (fun j new =>
               exists src,
                 particles_of (sample_store NUM_PARTICLES 1)
                              (sample_filter NUM_PARTICLES 1) !! j = Some src /\
                 copied (sample_store NUM_PARTICLES 1) (sample_store NUM_PARTICLES 1) h'
                        src new)
            draw_first ps' /\
    separate h' ps'.
Proof.
  destruct (sample_store_population NUM_PARTICLES 1) as (Hpop & Hlen & Hw).
  apply (Resample_copies_drawn_particles _ _ _ draw_first Hpop Hlen).
  - apply (positive_of_equal 1); [lra | exact Hw].
  - exact draw_first_valid.
Defined.

(** C1, as the specification words it, fails: a population of
    [NUM_PARTICLES] particles of weight [1] is resampled into particles of
    weight [1], not [1/NUM_PARTICLES]. *)
Lemma Resample_does_not_reset_weights :
  exists h' new me',
    Resample (sample_filter NUM_PARTICLES 1) draw_first (sample_store NUM_PARTICLES 1)
    = (Returned tt, h') /\
    new ∈ particles_of h' (sample_filter NUM_PARTICLES 1) /\
    particle_objs h' !! new = Some me' /\
    Particle.weight me' = 1 /\
    1 / INR (length (particles_of h' (sample_filter NUM_PARTICLES 1))) = 1 / 2000 /\
    ~ resample_resets_weights (sample_filter NUM_PARTICLES 1) draw_first
        (sample_store NUM_PARTICLES 1).
Proof.
  destruct (sample_store_population NUM_PARTICLES 1) as (Hpop & Hlen & Hw).
  set (h := sample_store NUM_PARTICLES 1) in *.
  set (self := sample_filter NUM_PARTICLES 1) in *.
  set (ps := particles_of h self) in *.
  destruct (Resample_run h self ps draw_first Hpop ltac:(lia)
              (positive_of_equal 1 h ps ltac:(lra) Hw) draw_first_valid)
    as (news & h' & Hrun & Hpop' & Hlen' & _ & Hall & _).
  rewrite <- Hlen, drop_all, app_nil_r in Hpop'.
  pose proof (particles_of_population h' self news Hpop') as Hnews.
  pose proof NUM_PARTICLES_pos as HN.
  destruct (lookup_lt_is_Some_2 news 0 ltac:(lia)) as [new Hnew].
  destruct (Forall2_lookup_r _ _ _ _ _ Hall Hnew) as (a & _ & j & src & _ & Hsrc & Hc).
  destruct Hc as (me & me' & pose & grid & C1 & _ & _ & C4 & _ & _ & C7 & _).
  assert (Hone : Particle.weight me' = 1).
  { rewrite Forall_forall in Hw.
    destruct (Hw src) as (m & x & Hm & Ex & E); [apply list_elem_of_lookup; eauto|].
    rewrite C1 in Hm. injection Hm as <-. congruence. }
  assert (HR : INR NUM_PARTICLES = 2000).
  { unfold NUM_PARTICLES. rewrite INR_IZR_INZ. reflexivity. }
  assert (Hin : new ∈ particles_of h' self).
  { rewrite Hnews. apply list_elem_of_lookup. eauto. }
  exists h', new, me'.
  split; [exact Hrun|]. split; [exact Hin|]. split; [exact C4|]. split; [exact Hone|].
  split; [rewrite Hnews, Hlen', HR; reflexivity|].
  intros (h'' & Hrun'' & Hunif). rewrite Hrun in Hrun''. injection Hrun'' as <-.
  specialize (Hunif new me' Hin C4).
  rewrite Hnews, Hlen', HR, Hone in Hunif. injection Hunif as Hunif. lra.
Qed.
End ResampleClaims.

(** * The filter *)

Section FilterFacts.
Local Open Scope R_scope.

Lemma population_frame h h' self ps :
  filter_objs h' = filter_objs h ->
  (forall l, live_particle h l -> live_particle h' l) ->
  population h self ps -> population h' self ps.
Proof.
  intros Hf Hl [(f & Hlook & Hps) Hlive]. split.
  - exists f. rewrite Hf. auto.
  - eapply Forall_impl; [exact Hlive | exact Hl].
Qed.

Lemma init_timestamp_run h self ps stamp :
  population h self ps ->
  exists h', init_timestamp self stamp h = (Returned tt, h') /\
             population h' self ps /\
             particle_objs h' = particle_objs h /\
             pose_objs h' = pose_objs h /\
             grid_objs h' = grid_objs h.
Proof.
  intros Hpop. pose proof Hpop as [(f & Hf & Hps) Hlive]. unfold init_timestamp.
  rewrite (bind_returned _ _ h f h) by (apply read_some; exact Hf).
  destruct (ParticleFilter.last_timestamp f).
  - exists h. auto.
  - eexists. split; [reflexivity|]. cbn. split; [|auto]. split.
    + eexists. split; [cbn; apply lookup_insert_eq | exact Hps].
    + exact Hlive.
Qed.



(** The sensor update of [ParticleFilter.UpdateScan], up to the importance
    sampling section: it returns normally and gives every particle the
    weight of the scan; poses, grids and the list of particles stay. *)
Lemma sensor_update_run h self ps scan_msg :
  population h self ps ->
  exists h1 h2,
    sensor_update self (Scan.init scan_msg) (scan_stamp scan_msg) h = (Returned tt, h2) /\
    population h2 self ps /\
    Forall (has_scan_weight (Scan.init scan_msg) h2) ps /\
    particle_objs h1 = particle_objs h /\ pose_objs h1 = pose_objs h /\
    grid_objs h1 = grid_objs h /\
    reweighted (Scan.init scan_msg) h1 h2.
Proof.
  intros Hpop.
  destruct (init_timestamp_run h self ps (scan_stamp scan_msg) Hpop)
    as (h1 & Hrun1 & Hpop1 & EP & EQ & EG).
  pose proof Hpop1 as [(f1 & Hf1 & Hps1) Hlive1].
  destruct (for_each_UpdateScan_run (Scan.init scan_msg) (Scan_init_lengths scan_msg)
              ps h1 Hlive1) as (h2 & Hrun2 & Hrw & Hw).
  exists h1, h2. split; [|split; [|split; [exact Hw|auto]]].
  - unfold sensor_update. rewrite (bind_returned _ _ _ _ _ Hrun1).
    rewrite (bind_returned _ _ h1 f1 h1) by (apply read_some; exact Hf1).
    rewrite Hps1. exact Hrun2.
  - apply (population_frame h1); [apply Hrw | | exact Hpop1].
    intros l. apply (reweighted_live (Scan.init scan_msg)). exact Hrw.
Qed.



(** Without beams, on a population of at least [NUM_PARTICLES] particles:
    the weights are read and the division raises [TypeError]. *)
Lemma resampling_section_no_beams h self ps scan drawn :
  Scan.ranges scan = [] ->
  population h self ps -> (NUM_PARTICLES <= length ps)%nat ->
  resampling_section scan self drawn h = (Raised TypeError, h).
Proof.
  intros E Hpop Hn. unfold resampling_section. rewrite E.
  rewrite (bind_returned _ _ _ _ _ (collect_weights_run h self ps _ Hpop Hn)).
  reflexivity.
Qed.

(** On a population of fewer than [NUM_PARTICLES] particles the first
    loop of the section raises [IndexError], with or without beams. *)
Lemma resampling_section_short h self ps scan drawn :
  population h self ps -> (length ps < NUM_PARTICLES)%nat ->
  resampling_section scan self drawn h = (Raised IndexError, h).
Proof.
  intros Hpop Hn. unfold resampling_section.
  pose proof (collect_weights_raises h self ps _ Hpop Hn) as Hraise.
  destruct (Scan.ranges scan).
  - apply bind_raised. exact Hraise.
  - unfold Resample. apply bind_raised. exact Hraise.
Qed.

Lemma ParticleFilter_UpdateScan_steps h h2 self scan_msg drawn :
  sensor_update self (Scan.init scan_msg) (scan_stamp scan_msg) h = (Returned tt, h2) ->
  ParticleFilter_UpdateScan self scan_msg drawn h
  = resampling_section (Scan.init scan_msg) self drawn h2.
Proof.
  intros Hrun. unfold ParticleFilter_UpdateScan. cbv zeta.
  rewrite (bind_returned _ _ _ _ _ Hrun). reflexivity.
Qed.


(** A scan event on a population of fewer than [NUM_PARTICLES] particles
    ends with an [IndexError], raised by [self.particles[i]] in the first
    loop of the resampling step. *)
Lemma ParticleFilter_UpdateScan_raises h self ps scan_msg drawn :
  population h self ps ->
  (length ps < NUM_PARTICLES)%nat ->
  exists h',
    ParticleFilter_UpdateScan self scan_msg drawn h = (Raised IndexError, h') /\
    population h' self ps.
Proof.
  intros Hpop Hlen.
  destruct (sensor_update_run h self ps scan_msg Hpop)
    as (h1 & h2 & Hrun2 & Hpop2 & _).
  exists h2. split; [|exact Hpop2].
  rewrite (ParticleFilter_UpdateScan_steps h h2 self scan_msg drawn Hrun2).
  apply (resampling_section_short h2 self ps); assumption.
Qed.

(** A scan event without beams, on a population of at least
    [NUM_PARTICLES] particles, ends with a [TypeError]. *)
Lemma ParticleFilter_UpdateScan_no_beams h self ps scan_msg drawn :
  population h self ps ->
  (NUM_PARTICLES <= length ps)%nat ->
  msg_ranges scan_msg = [] ->
  exists h',
    ParticleFilter_UpdateScan self scan_msg drawn h = (Raised TypeError, h') /\
    population h' self ps.
Proof.
  intros Hpop Hlen Hbeams.
  destruct (sensor_update_run h self ps scan_msg Hpop)
    as (h1 & h2 & Hrun2 & Hpop2 & _).
  exists h2. split; [|exact Hpop2].
  rewrite (ParticleFilter_UpdateScan_steps h h2 self scan_msg drawn Hrun2).
  apply (resampling_section_no_beams h2 self ps); assumption.
Qed.

Lemma constructed_is_sample n :
  constructed_store n = sample_store n 1 /\ constructed_filter n = sample_filter n 1.
Proof. split; reflexivity. Qed.

(** A filter constructed with one particle does not get through a scan
    event: the first loop of the importance sampling section raises
    [IndexError].  The one particle is still there. *)
Lemma UpdateScan_with_one_particle_raises scan_msg drawn :
  exists h',
    ParticleFilter_UpdateScan (constructed_filter 1) scan_msg drawn (constructed_store 1)
    = (Raised IndexError, h') /\
    length (particles_of h' (constructed_filter 1)) = 1%nat.
Proof.
  destruct (constructed_is_sample 1) as [-> ->].
  destruct (sample_store_population 1 1) as (Hpop & Hlen & _).
  destruct (ParticleFilter_UpdateScan_raises _ _ _ scan_msg drawn Hpop) as (h' & Hrun & Hpop').
  - rewrite Hlen. unfold NUM_PARTICLES. lia.
  - exists h'. split; [exact Hrun|].
    rewrite (particles_of_population _ _ _ Hpop'). exact Hlen.
Qed.
End FilterFacts.

Section FilterOdom.
Local Open Scope R_scope.

Lemma odom_moved_refl h : odom_moved h h.
Proof.
  unfold odom_moved. repeat split; auto.
  intros l. destruct (particle_objs h !! l); constructor. repeat split.
Qed.

Lemma odom_moved_trans h1 h2 h3 : odom_moved h1 h2 -> odom_moved h2 h3 -> odom_moved h1 h3.
Proof.
  intros (A1 & A2 & A3 & A4) (B1 & B2 & B3 & B4).
  split; [congruence|]. split; [congruence|]. split; [auto|].
  intros l. specialize (A4 l). specialize (B4 l).
  destruct A4 as [a b (X1 & X2 & X3) |]; inversion B4 as [b' c (Y1 & Y2 & Y3) |];
    subst; constructor.
  repeat split; congruence.
Qed.

Lemma odom_moved_live h h' l : odom_moved h h' -> live_particle h l -> live_particle h' l.
Proof.
  intros (A1 & _ & A3 & A4) (me & Hme & Hq & Hg).
  specialize (A4 l). rewrite Hme in A4.
  inversion A4 as [a me' (X1 & X2 & _) |]; subst.
  exists me'. rewrite X1, X2, A1. auto.
Qed.

Lemma Particle_UpdateOdom_moved h self odom_msg z :
  live_particle h self ->
  exists h', Particle_UpdateOdom self odom_msg z h = (Returned tt, h') /\ odom_moved h h'.
Proof.
  intros (me & Hme & [pose Hpose] & _).
  eexists. split; [apply (Particle_UpdateOdom_run h self odom_msg z me pose Hme Hpose)|].
  unfold odom_moved. cbn. split; [reflexivity|]. split; [reflexivity|]. split.
  - intros l Hl. destruct (decide (Particle.map_T_particle me = l)) as [<- | Hne].
    + rewrite lookup_insert_eq. eauto.
    + rewrite lookup_insert_ne by exact Hne. exact Hl.
  - intros l. destruct (decide (self = l)) as [<- | Hne].
    + rewrite lookup_insert_eq, Hme. constructor. repeat split.
    + rewrite lookup_insert_ne by exact Hne.
      destruct (particle_objs h !! l); constructor. repeat split.
Qed.

Lemma for_each_UpdateOdom_run odom_msg (noise : nat -> odom_noise) :
  forall (ips : list (nat * loc)) h,
    Forall (fun ip => live_particle h (snd ip)) ips ->
    exists h',
      for_each (fun ip => Particle_UpdateOdom (snd ip) odom_msg (noise (fst ip))) ips h
      = (Returned tt, h') /\ odom_moved h h'.
Proof.
  induction ips as [|[i l] ips IH]; intros h Hlive.
  - exists h. split; [reflexivity | apply odom_moved_refl].
  - inversion Hlive as [|? ? Hl Hips]; subst. cbn [snd] in Hl.
    destruct (Particle_UpdateOdom_moved h l odom_msg (noise i) Hl) as (h1 & Hrun1 & H01).
    destruct (IH h1) as (h' & Hrun' & H1').
    { eapply Forall_impl; [exact Hips|]. intros ip. apply odom_moved_live. exact H01. }
    exists h'. split; [|eapply odom_moved_trans; eassumption].
    cbn [for_each fst snd]. rewrite (bind_returned _ _ _ _ _ Hrun1). exact Hrun'.
Qed.

(** An odometry event returns normally and leaves the particles of the
    filter in place, with their weights. *)
Lemma ParticleFilter_UpdateOdom_run h self ps odom_msg noise :
  population h self ps ->
  exists h',
    ParticleFilter_UpdateOdom self odom_msg noise h = (Returned tt, h') /\
    population h' self ps /\
    odom_moved h (mk_heap (particle_objs h') (pose_objs h') (grid_objs h') (filter_objs h)).
Proof.
  intros Hpop.
  destruct (init_timestamp_run h self ps (odom_stamp odom_msg) Hpop)
    as (h1 & Hrun1 & Hpop1 & EP & EQ & EG).
  pose proof Hpop1 as [(f1 & Hf1 & Hps1) Hlive1].
  destruct (for_each_UpdateOdom_run odom_msg noise (combine (seq 0 (length ps)) ps) h1)
    as (h2 & Hrun2 & H12).
  { apply Forall_forall. intros [i l] Hin. apply list_elem_of_In, in_combine_r in Hin.
    rewrite Forall_forall in Hlive1. apply Hlive1, list_elem_of_In. exact Hin. }
  exists h2. split; [|split].
  - unfold ParticleFilter_UpdateOdom. rewrite (bind_returned _ _ _ _ _ Hrun1).
    rewrite (bind_returned _ _ h1 f1 h1) by (apply read_some; exact Hf1).
    rewrite Hps1. exact Hrun2.
  - apply (population_frame h1); [apply H12 | | exact Hpop1].
    intros l. apply odom_moved_live. exact H12.
  - destruct H12 as (A1 & A2 & A3 & A4). unfold odom_moved. cbn.
    rewrite <- EP, <- EQ, <- EG. auto.
Qed.
End FilterOdom.

(** * The number of particles *)

Section PopulationCount.
Local Open Scope R_scope.

Lemma keeps_ret {A} self (a : A) : keeps_count self (ret a).
Proof. intros h. reflexivity. Qed.

Lemma keeps_raise {A} self e : keeps_count self (@raise A e).
Proof. intros h. reflexivity. Qed.

Lemma keeps_bind {A B} self (m : M A) (k : A -> M B) :
  keeps_count self m -> (forall a, keeps_count self (k a)) -> keeps_count self (bind m k).
Proof.
  intros Hm Hk h. specialize (Hm h). unfold bind.
  destruct (m h) as [[a | e | |] h1]; cbn [snd] in *; try exact Hm.
  rewrite (Hk a h1). exact Hm.
Qed.

Lemma keeps_read {A} self (field : heap -> gmap loc A) l : keeps_count self (read field l).
Proof. intros h. unfold read. destruct (field h !! l); reflexivity. Qed.

Lemma keeps_index {A} self (l : list A) i : keeps_count self (index l i).
Proof. intros h. unfold index. destruct (l !! i); reflexivity. Qed.

(** A call that writes no filter object. *)
Lemma keeps_filters {A} self (m : M A) :
  (forall h, filter_objs (snd (m h)) = filter_objs h) -> keeps_count self m.
Proof. intros H h. unfold particles_of. rewrite H. reflexivity. Qed.

Lemma keeps_for_each {A} self (body : A -> M unit) l :
  (forall a, keeps_count self (body a)) -> keeps_count self (for_each body l).
Proof.
  intros H. induction l as [|a l IH]; cbn [for_each]; [apply keeps_ret|].
  apply keeps_bind; [apply H | intros _; exact IH].
Qed.

Lemma keeps_collect {A B} self (f : A -> M B) l :
  (forall a, keeps_count self (f a)) -> keeps_count self (collect f l).
Proof.
  intros H. induction l as [|a l IH]; cbn [collect]; [apply keeps_ret|].
  apply keeps_bind; [apply H | intros y].
  apply keeps_bind; [exact IH | intros ys; apply keeps_ret].
Qed.

(** [self.last_timestamp = stamp] writes the filter object, with the list
    it had. *)
Lemma keeps_init_timestamp self stamp : keeps_count self (init_timestamp self stamp).
Proof.
  intros h. unfold init_timestamp, bind, get_filter, read, particles_of.
  destruct (filter_objs h !! self) as [f|] eqn:Hf; cbn [snd]; [|rewrite Hf; reflexivity].
  destruct (ParticleFilter.last_timestamp f); cbn [snd ret set_filter filter_objs].
  - rewrite Hf. reflexivity.
  - rewrite lookup_insert_eq. reflexivity.
Qed.

(** [self.particles[i] = x] replaces an entry of the list, or raises. *)
Lemma keeps_set_particles_item self i x : keeps_count self (set_particles_item self i x).
Proof.
  intros h. unfold set_particles_item, bind, get_filter, read, particles_of.
  destruct (filter_objs h !! self) as [f|] eqn:Hf; cbn [snd]; [|rewrite Hf; reflexivity].
  destruct (bool_decide _); cbn [snd raise set_filter filter_objs].
  - rewrite lookup_insert_eq. cbn [ParticleFilter.particles]. apply length_insert.
  - rewrite Hf. reflexivity.
Qed.

Lemma keeps_likelihood_loop self ranges : forall sims w,
  keeps_count self (likelihood_loop ranges sims w).
Proof.
  induction ranges as [|r ranges IH]; intros sims w; cbn [likelihood_loop].
  - apply keeps_ret.
  - destruct sims as [|s sims]; [apply keeps_raise | apply IH].
Qed.

Ltac keeps_step :=
  first [ apply keeps_ret | apply keeps_raise | apply keeps_read | apply keeps_index
        | apply keeps_init_timestamp | apply keeps_set_particles_item
        | apply keeps_likelihood_loop
        | apply keeps_filters; intros; reflexivity
        | apply keeps_bind; [|intros ?]
        | apply keeps_for_each; intros ?
        | apply keeps_collect; intros ? ].

Lemma keeps_Particle_UpdateScan self particle scan :
  keeps_count self (Particle_UpdateScan particle scan).
Proof.
  unfold Particle_UpdateScan, Particle_ComputeSimulatedRanges, get_particle, get_pose,
    get_grid. repeat keeps_step.
Qed.

Lemma keeps_Particle_UpdateOdom self particle odom_msg z :
  keeps_count self (Particle_UpdateOdom particle odom_msg z).
Proof.
  unfold Particle_UpdateOdom, get_particle, get_pose. repeat keeps_step.
Qed.

Lemma keeps_deepcopy self particle : keeps_count self (deepcopy particle).
Proof. unfold deepcopy, get_particle, get_pose, get_grid. repeat keeps_step. Qed.

Lemma keeps_particles_item self i : keeps_count self (particles_item self i).
Proof. unfold particles_item, get_filter. repeat keeps_step. Qed.

Lemma keeps_read_weight self i : keeps_count self (read_weight self i).
Proof.
  unfold read_weight, get_particle.
  apply keeps_bind; [apply keeps_particles_item | intros ?]. repeat keeps_step.
Qed.

Lemma keeps_random_choice self a size p drawn :
  keeps_count self (random_choice a size p drawn).
Proof.
  unfold random_choice. destruct p as [p|]; [|apply keeps_raise].
  destruct (_ && _); [apply keeps_ret | apply keeps_raise].
Qed.

Lemma keeps_Resample self drawn : keeps_count self (Resample self drawn).
Proof.
  unfold Resample, get_particle.
  apply keeps_bind.
  { apply keeps_collect. intros i.
    apply keeps_bind; [apply keeps_particles_item | intros ?]. repeat keeps_step. }
  intros prob. apply keeps_bind; [apply keeps_random_choice | intros new_indices].
  apply keeps_bind.
  { apply keeps_collect. intros i. apply keeps_bind; [apply keeps_index | intros j].
    apply keeps_bind; [apply keeps_particles_item | intros ?]. apply keeps_deepcopy. }
  intros new_particles. apply keeps_for_each. intros i.
  apply keeps_bind; [apply keeps_index | intros x; apply keeps_set_particles_item].
Qed.

Lemma keeps_resampling_section self scan drawn :
  keeps_count self (resampling_section scan self drawn).
Proof.
  unfold resampling_section. destruct (Scan.ranges scan).
  - apply keeps_bind; [|intros ?; apply keeps_raise].
    apply keeps_collect. intros i. apply keeps_read_weight.
  - apply keeps_Resample.
Qed.

Lemma keeps_ParticleFilter_UpdateScan self scan_msg drawn :
  keeps_count self (ParticleFilter_UpdateScan self scan_msg drawn).
Proof.
  unfold ParticleFilter_UpdateScan, sensor_update, get_filter. cbv zeta.
  apply keeps_bind; [|intros ?; apply keeps_resampling_section].
  apply keeps_bind; [apply keeps_init_timestamp | intros ?].
  apply keeps_bind; [apply keeps_read | intros me].
  apply keeps_for_each. intros particle. apply keeps_Particle_UpdateScan.
Qed.

Lemma keeps_ParticleFilter_UpdateOdom self odom_msg noise :
  keeps_count self (ParticleFilter_UpdateOdom self odom_msg noise).
Proof.
  unfold ParticleFilter_UpdateOdom, get_filter. cbv zeta.
  apply keeps_bind; [apply keeps_init_timestamp | intros ?].
  apply keeps_bind; [apply keeps_read | intros me].
  apply keeps_for_each. intros ip. apply keeps_Particle_UpdateOdom.
Qed.

Lemma collect_length {A B} (f : A -> M B) l : forall h ys h',
  collect f l h = (Returned ys, h') -> length ys = length l.
Proof.
  induction l as [|a l IH]; intros h ys h' H; cbn [collect] in H.
  - injection H as <- _. reflexivity.
  - unfold bind at 1 in H. destruct (f a h) as [[y | e | |] h1]; try discriminate.
    unfold bind at 1 in H. destruct (collect f l h1) as [[zs | e | |] h2] eqn:E;
      try discriminate.
    injection H as <- _. cbn. rewrite (IH h1 zs h2 E). reflexivity.
Qed.

(** [ParticleFilter(grid, n)], when it returns, has built [n] particles. *)
Lemma ParticleFilter_init_count grid n draws h0 self h :
  ParticleFilter_init grid n draws h0 = (Returned self, h) ->
  length (particles_of h self) = n.
Proof.
  unfold ParticleFilter_init. intros H. unfold bind at 1 in H.
  destruct (collect _ (seq 0 n) h0) as [[ps | e | |] h1] eqn:E; try discriminate.
  apply collect_length in E. rewrite length_seq in E.
  unfold new_filter in H. injection H as <- <-.
  unfold particles_of. cbn [filter_objs]. rewrite lookup_insert_eq. exact E.
Qed.

(** C3: a filter constructed for [n] particles holds [n] particles, and
    every odometry event and every scan event, with its resampling step,
    leaves as many particles as it found, whether it returns or raises.
    So the population has [n] particles after construction and after
    every event. *)
Theorem particle_count_is_kept grid n draws h0 self h :
  ParticleFilter_init grid n draws h0 = (Returned self, h) ->
  length (particles_of h self) = n /\
  (forall h1 odom_msg noise,
     length (particles_of (snd (ParticleFilter_UpdateOdom self odom_msg noise h1)) self)
     = length (particles_of h1 self)) /\
  (forall h1 scan_msg drawn,
     length (particles_of (snd (ParticleFilter_UpdateScan self scan_msg drawn h1)) self)
     = length (particles_of h1 self)).
Proof.
  intros Hinit. split; [exact (ParticleFilter_init_count grid n draws h0 self h Hinit)|].
  split.
  - intros h1 odom_msg noise. apply keeps_ParticleFilter_UpdateOdom.
  - intros h1 scan_msg drawn. apply keeps_ParticleFilter_UpdateScan.
Qed.

(** The theorem of C3 for a filter of one particle on the map of one
    cell. *)
Lemma particle_count_is_kept_witness :
  exists self h,
    ParticleFilter_init 1%positive 1 (fun _ => draws_at_origin) heap_with_grid
    = (Returned self, h) /\
    length (particles_of h self) = 1%nat /\
    (forall h1 odom_msg noise,
       length (particles_of (snd (ParticleFilter_UpdateOdom self odom_msg noise h1)) self)
       = length (particles_of h1 self)) /\
    (forall h1 scan_msg drawn,
       length (particles_of (snd (ParticleFilter_UpdateScan self scan_msg drawn h1)) self)
       = length (particles_of h1 self)).
Proof.
  destruct (filter_with_weight_run 1%positive grid_1x1 1 (fun _ => draws_at_origin) 1
              heap_with_grid (fun _ => ex_intro _ _ draws_at_origin_sample) eq_refl)
    as (self & ps & h & Hrun & _).
  exists self, h. split; [exact Hrun|].
  exact (particle_count_is_kept 1%positive 1 (fun _ => draws_at_origin) heap_with_grid
           self h Hrun).
Defined.
End PopulationCount.

(** * The claims on the sensor and motion updates *)

Section SensorClaims.
Local Open Scope R_scope.




End SensorClaims.

Section MotionClaims.
Local Open Scope R_scope.

(** The theorem of C10 for one particle and one odometry message. *)
Lemma Particle_UpdateOdom_frame_witness :
  fst (Particle_UpdateOdom 1%positive odom_forward no_noise one_particle_store)
  = Returned tt /\
  (exists me',
     particle_objs (snd (Particle_UpdateOdom 1%positive odom_forward no_noise
                           one_particle_store)) !! 1%positive = Some me' /\
     Particle.weight me' = Particle.weight one_particle /\
     Particle.grid me' = Particle.grid one_particle /\
     Particle.map_T_particle me' = Particle.map_T_particle one_particle) /\
  grid_objs (snd (Particle_UpdateOdom 1%positive odom_forward no_noise one_particle_store))
  = grid_objs one_particle_store.
Proof.
  destruct (Particle_UpdateOdom_frame one_particle_store 1%positive odom_forward no_noise
              one_particle pose_at_origin eq_refl eq_refl) as (H1 & H2 & H3 & _).
  auto.
Defined.
End MotionClaims.

(** * Rotations, coordinates and messages *)

Section RotationFacts.
Local Open Scope R_scope.

(** X1: [RotateBy] keeps the length of the vector it rotates. *)
Theorem RotateBy_preserves_norm (x : vec2) (angle : R) :
  norm_sq (RotateBy x angle) = norm_sq x.
Proof.
  destruct x as [a b]. unfold norm_sq, RotateBy. cbn [fst snd].
  pose proof (sin2_cos2 angle) as H. unfold Rsqr in H.
  transitivity ((sin angle * sin angle + cos angle * cos angle) * (a * a + b * b));
    [ring | rewrite H; ring].
Qed.

(** X2: rotating by [a] and then by [b] is rotating by [a + b], and
    rotating by [0] changes nothing; so rotating by the opposite angle
    undoes a rotation. *)
Theorem RotateBy_composes (x : vec2) (a b : R) :
  RotateBy (RotateBy x a) b = RotateBy x (a + b) /\
  RotateBy x 0 = x /\
  RotateBy (RotateBy x a) (- a) = x.
Proof.
  assert (Hadd : forall (v : vec2) (c d : R), RotateBy (RotateBy v c) d = RotateBy v (c + d)).
  { intros [u w] c d. unfold RotateBy. cbn [fst snd].
    rewrite cos_plus, sin_plus. f_equal; ring. }
  assert (Hzero : forall v : vec2, RotateBy v 0 = v).
  { intros [u w]. unfold RotateBy. cbn [fst snd]. rewrite cos_0, sin_0. f_equal; ring. }
  split; [apply Hadd|]. split; [apply Hzero|].
  rewrite Hadd. replace (a + - a) with 0 by ring. apply Hzero.
Qed.
End RotationFacts.

Section GridCoordinateFacts.
Local Open Scope R_scope.

Lemma trunc_IZR z : trunc (IZR z) = z.
Proof.
  unfold trunc. destruct (Rle_dec 0 (IZR z)).
  - apply ZfloorZ.
  - apply Zceil_eq. lra.
Qed.

Lemma trunc_within_1 x : Rabs (IZR (trunc x) - x) < 1.
Proof.
  unfold trunc. destruct (Rle_dec 0 x).
  - pose proof (Zfloor_bound x). apply Rabs_def1; lra.
  - pose proof (Zceil_bound x). apply Rabs_def1; lra.
Qed.

Lemma floor_inside n x : 0 <= x < IZR n -> (0 <= Zfloor x < n)%Z.
Proof.
  intros [H0 H1]. pose proof (Zfloor_bound x) as [Hl Hu]. split.
  - apply Zfloor_lub. exact H0.
  - apply lt_IZR. lra.
Qed.

Lemma Rabs_le_inv (x b : R) : Rabs x <= b -> - b <= x <= b.
Proof.
  intros H. unfold Rabs in H. destruct (Rcase_abs x); lra.
Qed.

Lemma trunc_stable (z : Z) (x : R) :
  (0 <= z)%Z -> IZR z + 1 / 8 <= x <= IZR z + 7 / 8 -> trunc x = z.
Proof.
  intros Hz Hx. apply IZR_le in Hz.
  rewrite trunc_nonneg by lra. apply Zfloor_eq. lra.
Qed.

(** A quotient between [0] and a whole number [n], less an eighth, is
    truncated to an index below [n], whichever way an error of an eighth
    goes. *)
Lemma trunc_inside (n : Z) (x e : R) :
  0 <= x <= IZR n - 1 / 4 -> Rabs e <= 1 / 8 -> (0 <= trunc (x + e) < n)%Z.
Proof.
  intros Hx He. apply Rabs_le_inv in He.
  destruct (Rle_dec 0 (x + e)) as [Hpos | Hneg].
  - rewrite trunc_nonneg by exact Hpos. apply floor_inside. lra.
  - rewrite trunc_neg by lra. rewrite (Zceil_eq 0) by lra.
    split; [lia|]. apply lt_IZR. lra.
Qed.

(** The quotient of [WorldToGrid] for a point at the offset [d] from the
    corner of a cell. *)
Lemma quotient_of_offset (r t k d : R) : 0 < r -> (r * k + t + d - t) / r = k + d / r.
Proof. intros Hr. field. lra. Qed.

(** X3: a point in the middle half of a cell with non-negative indices
    lies in that cell: [WorldToGrid] maps it to the indices of the cell,
    and it still does when the quotient is off by a rounding error of up
    to an eighth of a cell. *)
Theorem WorldToGrid_inside_cell (g : Grid.t) (c : cell) (p err : vec2) :
  0 < Grid.resolution g -> int32_cell c ->
  (0 <= fst c)%Z -> (0 <= snd c)%Z ->
  well_inside_cell g c p -> small_error err ->
  Grid.WorldToGrid_rounded g err p = c /\ Grid.WorldToGrid g p = c.
Proof.
  intros Hres _ Hcx Hcy [Hx Hy] [Hex Hey]. destruct c as [cx cy].
  apply Rabs_le_inv in Hex, Hey.
  unfold well_inside_cell, cell_corner, Grid.GridToWorld, vadd, vscale in Hx, Hy.
  cbn [fst snd] in *.
  unfold Grid.WorldToGrid_rounded, Grid.WorldToGrid, astype_int32, vdiv, vsub, vadd.
  cbn [fst snd].
  set (r := Grid.resolution g) in *.
  set (t := Pose.translation (Grid.world_T_map g)) in *.
  set (dx := fst p - (r * IZR cx + fst t)) in *.
  set (dy := snd p - (r * IZR cy + snd t)) in *.
  replace (fst p - fst t) with (r * IZR cx + fst t + dx - fst t) by (unfold dx; ring).
  replace (snd p - snd t) with (r * IZR cy + snd t + dy - snd t) by (unfold dy; ring).
  rewrite !quotient_of_offset by exact Hres.
  assert (Hqx : 1 / 4 <= dx / r <= 3 / 4).
  { split; apply (Rmult_le_reg_r r); try exact Hres;
      unfold Rdiv; rewrite (Rmult_assoc dx), Rinv_l by lra; lra. }
  assert (Hqy : 1 / 4 <= dy / r <= 3 / 4).
  { split; apply (Rmult_le_reg_r r); try exact Hres;
      unfold Rdiv; rewrite (Rmult_assoc dy), Rinv_l by lra; lra. }
  split; f_equal; apply trunc_stable; try assumption; lra.
Qed.

(** X4: the corner of the cell that [WorldToGrid] gives for a point is less
    than one cell size away from the point, along each axis. *)
Theorem cell_corner_of_WorldToGrid_is_near (g : Grid.t) (p : vec2) :
  let q := vdiv (vsub p (Pose.translation (Grid.world_T_map g))) (Grid.resolution g) in
  0 < Grid.resolution g -> in_int32_range (fst q) -> in_int32_range (snd q) ->
  Rabs (fst (cell_corner g (Grid.WorldToGrid g p)) - fst p) < Grid.resolution g /\
  Rabs (snd (cell_corner g (Grid.WorldToGrid g p)) - snd p) < Grid.resolution g.
Proof.
  intros q Hres _ _.
  unfold cell_corner, Grid.WorldToGrid, Grid.GridToWorld, astype_int32, vadd, vscale.
  fold q. cbn [fst snd].
  set (r := Grid.resolution g) in *.
  set (t := Pose.translation (Grid.world_T_map g)) in *.
  assert (Hq1 : fst p = r * fst q + fst t)
    by (unfold q, vdiv, vsub; cbn [fst snd]; fold r t; field; lra).
  assert (Hq2 : snd p = r * snd q + snd t)
    by (unfold q, vdiv, vsub; cbn [fst snd]; fold r t; field; lra).
  split.
  - replace (r * IZR (trunc (fst q)) + fst t - fst p)
      with (r * (IZR (trunc (fst q)) - fst q)) by (rewrite Hq1; ring).
    rewrite Rabs_mult, (Rabs_pos_eq r) by lra.
    pose proof (trunc_within_1 (fst q)). pose proof (Rabs_pos (IZR (trunc (fst q)) - fst q)).
    nra.
  - replace (r * IZR (trunc (snd q)) + snd t - snd p)
      with (r * (IZR (trunc (snd q)) - snd q)) by (rewrite Hq2; ring).
    rewrite Rabs_mult, (Rabs_pos_eq r) by lra.
    pose proof (trunc_within_1 (snd q)). pose proof (Rabs_pos (IZR (trunc (snd q)) - snd q)).
    nra.
Qed.

Lemma np_index_inside n i : (0 <= i < n)%Z -> np_index n i = Some i.
Proof.
  intros H. unfold np_index.
  destruct (Z.leb_spec 0 i); [|lia]. destruct (Z.ltb_spec i n); [|lia]. reflexivity.
Qed.

(** X5: on a grid as [Grid.__init__] builds it, a point of the area from
    which [Particle.__init__] draws, a quarter cell or more before its
    upper borders, lies on a cell of the array: [GetWorldCoords] reads
    that cell and raises no [IndexError], and it still does when the
    quotient is off by a rounding error of up to an eighth of a cell. *)
Theorem GetWorldCoords_inside_map (g : Grid.t) (p err : vec2) :
  constructed_grid g -> 0 < Grid.resolution g ->
  (Grid.cols g < 2 ^ 31)%Z -> (Grid.rows g < 2 ^ 31)%Z ->
  well_inside_map g p -> small_error err ->
  let c := Grid.WorldToGrid_rounded g err p in
  in_bounds (Grid.data g) c = true /\
  Grid.GetWorldCoords_rounded g err p
  = Some (grid_at (Grid.data g) (snd c) (fst c)).
Proof.
  intros (Hr & Hc & Hs0 & Hs1 & _ & Hext) Hres _ _ [Hx Hy] [Hex Hey] c.
  unfold Grid.GetWorldCoords_rounded. fold c.
  cbn zeta in Hx, Hy. rewrite Hext in Hx, Hy. unfold vadd in Hx, Hy. cbn [fst snd] in Hx, Hy.
  assert (Hquot : forall (n : Z) (a t : R),
            t <= a <= t + IZR n * Grid.resolution g - Grid.resolution g / 4 ->
            0 <= (a - t) / Grid.resolution g <= IZR n - 1 / 4).
  { intros n a t Ha. split.
    - apply Rmult_le_pos; [lra | left; apply Rinv_0_lt_compat; exact Hres].
    - apply (Rmult_le_reg_r (Grid.resolution g)); [exact Hres|].
      unfold Rdiv at 1. rewrite Rmult_assoc, Rinv_l by lra. lra. }
  assert (Hcx : (0 <= fst c < Grid.cols g)%Z).
  { unfold c, Grid.WorldToGrid_rounded, astype_int32, vdiv, vsub, vadd. cbn [fst snd].
    apply trunc_inside; [apply Hquot; exact Hx | exact Hex]. }
  assert (Hcy : (0 <= snd c < Grid.rows g)%Z).
  { unfold c, Grid.WorldToGrid_rounded, astype_int32, vdiv, vsub, vadd. cbn [fst snd].
    apply trunc_inside; [apply Hquot; exact Hy | exact Hey]. }
  split.
  - apply in_bounds_iff. rewrite Hs0, Hs1. lia.
  - rewrite Hs0, Hs1, !np_index_inside by lia. reflexivity.
Qed.
End GridCoordinateFacts.

Section MessageFacts.
Local Open Scope R_scope.

Lemma cos_pos_range x : - PI < x <= PI -> 0 < cos x -> - (PI / 2) < x < PI / 2.
Proof.
  intros [Hl Hu] Hc. split.
  - destruct (Rlt_dec (- (PI / 2)) x) as [H | H]; [exact H | exfalso].
    assert (Hn : cos (- x) <= 0) by (apply cos_le_0; lra).
    rewrite cos_neg in Hn. lra.
  - destruct (Rlt_dec x (PI / 2)) as [H | H]; [exact H | exfalso].
    assert (Hn : cos x <= 0) by (apply cos_le_0; lra). lra.
Qed.

Lemma cos_neg_range x :
  - PI < x <= PI -> cos x < 0 -> (PI / 2 < x /\ 0 <= sin x) \/ (x < - (PI / 2) /\ sin x < 0).
Proof.
  intros [Hl Hu] Hc.
  destruct (Rlt_dec (PI / 2) x) as [H | H].
  - left. split; [exact H | apply sin_ge_0; lra].
  - right. assert (Hx : x < - (PI / 2)).
    { destruct (Rlt_dec x (- (PI / 2))) as [H' | H']; [exact H' | exfalso].
      assert (0 <= cos x) by (apply cos_ge_0; lra). lra. }
    split; [exact Hx | apply sin_lt_0_var; lra].
Qed.

Lemma cos_zero_range x : - PI < x <= PI -> cos x = 0 -> x = PI / 2 \/ x = - (PI / 2).
Proof.
  intros [Hl Hu] Hc.
  destruct (Rtotal_order x (PI / 2)) as [H | [H | H]]; [|left; exact H|].
  - destruct (Rtotal_order x (- (PI / 2))) as [H' | [H' | H']]; [|right; exact H'|].
    + exfalso. assert (Hn : cos (- x) < 0) by (apply cos_lt_0; lra).
      rewrite cos_neg in Hn. lra.
    + exfalso. assert (0 < cos x) by (apply cos_gt_0; lra). lra.
  - exfalso. assert (cos x < 0) by (apply cos_lt_0; lra). lra.
Qed.

Lemma sin_neg_PI2 : sin (- (PI / 2)) = -1.
Proof. rewrite sin_neg, sin_PI2. reflexivity. Qed.

(** [arctan2] gives back the angle of a point of the unit circle. *)
Lemma arctan2_sin_cos x : - PI < x <= PI -> arctan2 (sin x) (cos x) = x.
Proof.
  intros Hx. unfold arctan2.
  destruct (Rlt_dec 0 (cos x)) as [Hc | Hc].
  - apply atan_tan. apply cos_pos_range; assumption.
  - destruct (Rlt_dec (cos x) 0) as [Hc' | Hc'].
    + destruct (cos_neg_range x Hx Hc') as [[H1 H2] | [H1 H2]].
      * destruct (Rle_dec 0 (sin x)) as [_ | Hs]; [|contradiction].
        assert (Ht : sin x / cos x = tan (x - PI)).
        { replace (tan (x - PI)) with (tan (PI + (x - PI))).
          - replace (PI + (x - PI)) with x by ring. reflexivity.
          - apply Rtrigo_facts.tan_pi_plus.
            replace (x - PI) with (- (PI - x)) by ring.
            rewrite cos_neg, Rtrigo_facts.cos_pi_minus. lra. }
        rewrite Ht, atan_tan by lra. ring.
      * destruct (Rle_dec 0 (sin x)) as [Hs | _]; [lra|].
        assert (Ht : sin x / cos x = tan (PI + x)).
        { rewrite Rtrigo_facts.tan_pi_plus by lra. reflexivity. }
        rewrite Ht, atan_tan by lra. ring.
    + assert (Hz : cos x = 0) by lra.
      destruct (cos_zero_range x Hx Hz) as [-> | ->].
      * rewrite sin_PI2. destruct (Rlt_dec 0 1); [reflexivity | lra].
      * rewrite sin_neg_PI2. destruct (Rlt_dec 0 (-1)); [lra|].
        destruct (Rlt_dec (-1) 0); [reflexivity | lra].
Qed.

(** The yaw that [FromGeometryMsg] reads from the quaternion that
    [ToGeometryMsg] writes. *)
Lemma yaw_of_written_quaternion rot :
  - PI < rot <= PI ->
  arctan2 (2 * (0 * 0 + sin (rot / 2) * cos (rot / 2)))
          (1 - 2 * (0 * 0 + sin (rot / 2) * sin (rot / 2))) = rot.
Proof.
  intros Hrot.
  replace (1 - 2 * (0 * 0 + sin (rot / 2) * sin (rot / 2))) with (cos rot).
  - replace (2 * (0 * 0 + sin (rot / 2) * cos (rot / 2))) with (sin rot).
    + apply arctan2_sin_cos. exact Hrot.
    + replace rot with (2 * (rot / 2)) at 1 by field. rewrite sin_2a. ring.
  - replace rot with (2 * (rot / 2)) at 1 by field. rewrite cos_2a_sin. ring.
Qed.

(** X6: a pose whose rotation lies between [-PI] (excluded) and [PI]
    comes back unchanged from [ToGeometryMsg] followed by
    [FromGeometryMsg]. *)
Theorem Pose_message_round_trip (pose : Pose.t) :
  - PI < Pose.rotation pose <= PI ->
  Pose_FromGeometryMsg (Pose_ToGeometryMsg pose) = pose.
Proof.
  intros Hrot. destruct pose as [rot [x y]].
  unfold Pose_FromGeometryMsg, Pose_ToGeometryMsg.
  cbn [orientation quat_x quat_y quat_z quat_w position_x position_y
       Pose.rotation Pose.translation fst snd] in *.
  rewrite yaw_of_written_quaternion by exact Hrot. reflexivity.
Qed.

(** X7: whatever the quaternion of the message, [FromGeometryMsg] gives a
    rotation between [-PI] (excluded) and [PI]. *)
Theorem Pose_FromGeometryMsg_rotation_range (pose_msg : PoseMsg) :
  - PI < Pose.rotation (Pose_FromGeometryMsg pose_msg) <= PI.
Proof.
  unfold Pose_FromGeometryMsg. cbn [Pose.rotation].
  set (y := 2 * _). set (x := 1 - _). clearbody x y.
  unfold arctan2. pose proof (atan_bound (y / x)) as [Hl Hu]. pose proof PI_RGT_0.
  destruct (Rlt_dec 0 x); [lra|].
  destruct (Rlt_dec x 0) as [Hx|].
  - destruct (Rle_dec 0 y) as [Hy | Hy].
    + assert (y / x <= 0).
      { unfold Rdiv. replace (y * / x) with (- (y * / - x)).
        - assert (0 <= y * / - x)
            by (apply Rmult_le_pos; [exact Hy | left; apply Rinv_0_lt_compat; lra]).
          lra.
        - field. lra. }
      assert (atan (y / x) <= 0).
      { rewrite <- atan_0. destruct (Req_dec (y / x) 0) as [-> | Hn]; [lra|].
        left. apply atan_increasing. lra. }
      lra.
    + assert (0 < y / x).
      { unfold Rdiv. replace (y * / x) with ((- y) * / - x) by (field; lra).
        apply Rmult_lt_0_compat; [lra | apply Rinv_0_lt_compat; lra]. }
      assert (0 < atan (y / x)).
      { rewrite <- atan_0. apply atan_increasing. assumption. }
      lra.
  - destruct (Rlt_dec 0 y); [lra|]. destruct (Rlt_dec y 0); lra.
Qed.

(** X8: the quaternion that [ToGeometryMsg] writes has the length [1], and
    the message has the translation of the pose. *)
Theorem Pose_ToGeometryMsg_unit_quaternion (pose : Pose.t) :
  let q := orientation (Pose_ToGeometryMsg pose) in
  quat_x q * quat_x q + quat_y q * quat_y q + quat_z q * quat_z q + quat_w q * quat_w q = 1 /\
  (position_x (Pose_ToGeometryMsg pose), position_y (Pose_ToGeometryMsg pose))
  = Pose.translation pose.
Proof.
  split.
  - cbn. pose proof (sin2_cos2 (Pose.rotation pose / 2)) as H. unfold Rsqr in H. lra.
  - destruct pose as [rot [x y]]. reflexivity.
Qed.

(** X9: [Grid.__init__] returns a grid exactly when the message holds
    [height * width] cells.  The grid is then a new object with [height]
    rows and [width] columns over the cells of the message, and no other
    object changes; otherwise [reshape] raises [ValueError]. *)
Theorem Grid_init_checks_cell_count (grid_msg : OccupancyGrid) (h : heap) :
  (0 <= info_width grid_msg)%Z -> (0 <= info_height grid_msg)%Z ->
  (Z.of_nat (length (grid_msg_data grid_msg)) = (info_height grid_msg * info_width grid_msg)%Z ->
   exists l g,
     Grid_init grid_msg h =
       (Returned l, mk_heap (particle_objs h) (pose_objs h) (<[l := g]> (grid_objs h))
                            (filter_objs h)) /\
     grid_objs h !! l = None /\
     constructed_grid g /\
     Grid.cols g = info_width grid_msg /\ Grid.rows g = info_height grid_msg /\
     Grid.resolution g = info_resolution grid_msg /\
     values (Grid.data g) = grid_msg_data grid_msg /\
     Grid.world_T_map g = Pose_FromGeometryMsg (info_origin grid_msg)) /\
  (Z.of_nat (length (grid_msg_data grid_msg)) <> (info_height grid_msg * info_width grid_msg)%Z ->
   Grid_init grid_msg h = (Raised ValueError, h)).
Proof.
  intros Hw Hh. unfold Grid_init. split; intros Hlen.
  - rewrite bool_decide_eq_true_2 by exact Hlen.
    eexists _, _. split; [reflexivity|]. split; [apply fresh_lookup|].
    unfold constructed_grid. cbn. repeat split; assumption.
  - rewrite bool_decide_eq_false_2 by exact Hlen.
    reflexivity.
Qed.

(** X10: a grid as [Grid.__init__] builds it, with the rotation of its
    origin between [-PI] (excluded) and [PI], comes back from [ToNavMsg]
    followed by [Grid.__init__]: the new grid object has the same
    contents. *)
Theorem Grid_message_round_trip (g : Grid.t) (h : heap) :
  constructed_grid g ->
  - PI < Pose.rotation (Grid.world_T_map g) <= PI ->
  exists l,
    Grid_init (Grid_ToNavMsg g) h =
      (Returned l, mk_heap (particle_objs h) (pose_objs h) (<[l := g]> (grid_objs h))
                           (filter_objs h)) /\
    grid_objs h !! l = None.
Proof.
  intros (Hr & Hc & Hs0 & Hs1 & Hlen & Hext) Hrot.
  unfold Grid_init, Grid_ToNavMsg.
  cbn [info_resolution info_width info_height info_origin grid_msg_data].
  rewrite bool_decide_eq_true_2 by exact Hlen.
  assert (Hpose : Pose_FromGeometryMsg (Pose_ToGeometryMsg (Grid.world_T_map g))
                  = Grid.world_T_map g).
  { destruct (Grid.world_T_map g) as [rot [x y]].
    unfold Pose_FromGeometryMsg, Pose_ToGeometryMsg.
    cbn [orientation quat_x quat_y quat_z quat_w position_x position_y
         Pose.rotation Pose.translation fst snd] in *.
    rewrite yaw_of_written_quaternion by exact Hrot. reflexivity. }
  rewrite Hpose.
  exists (fresh (dom (grid_objs h))). split; [|apply fresh_lookup].
  unfold new_grid. do 4 f_equal.
  destruct g as [cols rows res ext origin [s0 s1 vs]]. cbn in *. subst. reflexivity.
Qed.
End MessageFacts.

(** * The path of a ray *)

Lemma cast_loop_run_walk g sx sy dx dy p1 x0 y0 :
  Z.abs sx = 1 -> Z.abs sy = 1 ->
  (forall a b, 0 <= a <= dx -> 0 <= b <= dy ->
     is_int32 (x0 + a * sx) /\ is_int32 (y0 + b * sy)) ->
  forall n a b last_p,
    0 <= a <= dx -> 0 <= b <= dy ->
    Z.of_nat n = dx + dy - a - b + 1 ->
    let r := cast_loop_run g (sx, sy) (dx * 2, dy * 2) p1 n
               (x0 + a * sx, y0 + b * sy) last_p
               (dx * (1 + 2 * b) - dy * (1 + 2 * a)) in
    Forall (fun c => exists a' b', a <= a' <= dx /\ b <= b' <= dy /\
                                   c = (x0 + a' * sx, y0 + b' * sy)) (visited r) /\
    one_cell_steps (visited r) /\
    hd_error (visited r) = Some (x0 + a * sx, y0 + b * sy) /\
    (exit r = ExitTarget -> In (x0 + dx * sx, y0 + dy * sy) (visited r)).
Proof.
  intros Hsx Hsy Hbox.
  induction n as [|n IH]; intros a b last_p Ha Hb Hn; [lia|].
  assert (Hhere : exists a' b', a <= a' <= dx /\ b <= b' <= dy /\
            (x0 + a * sx, y0 + b * sy) = (x0 + a' * sx, y0 + b' * sy))
    by (exists a, b; repeat split; lia).
  cbn [cast_loop_run].
  destruct (in_bounds g (x0 + a * sx, y0 + b * sy)); cbn [negb].
  2:{ cbn. repeat split; auto. discriminate. }
  destruct (grid_at g _ _ =? 0); cbn [negb].
  2:{ cbn. repeat split; auto. discriminate. }
  cbn [fst snd].
  destruct n as [|n'].
  { assert (a = dx /\ b = dy) as [-> ->] by lia.
    destruct (0 <? _); cbn; repeat split; auto. }
  destruct (0 <? dx * (1 + 2 * b) - dy * (1 + 2 * a)) eqn:He.
  - apply Z.ltb_lt in He.
    assert (Ha' : a < dx) by nia.
    destruct (Hbox (a + 1) b ltac:(lia) Hb) as (Hi & _).
    replace (x0 + a * sx + sx) with (x0 + (a + 1) * sx) by ring.
    rewrite (wrap32_int32 _ Hi).
    replace (dx * (1 + 2 * b) - dy * (1 + 2 * a) - dy * 2)
      with (dx * (1 + 2 * b) - dy * (1 + 2 * (a + 1))) by ring.
    destruct (IH (a + 1) b (x0 + a * sx, y0 + b * sy) ltac:(lia) Hb ltac:(lia))
      as (F & S & Hd & T).
    cbn [visited exit]. repeat split.
    + constructor; [exact Hhere|].
      eapply Forall_impl; [exact F|].
      intros c (a' & b' & ? & ? & ?). exists a', b'. repeat split; auto; lia.
    + destruct (visited _) as [|c' rest]; [exact I|].
      injection Hd as ->. cbn [fst snd]. lia.
    + exact S.
    + intros E. right. apply T. exact E.
  - apply Z.ltb_ge in He.
    assert (Hb' : b < dy) by nia.
    destruct (Hbox a (b + 1) Ha ltac:(lia)) as (_ & Hi).
    replace (y0 + b * sy + sy) with (y0 + (b + 1) * sy) by ring.
    rewrite (wrap32_int32 _ Hi).
    replace (dx * (1 + 2 * b) - dy * (1 + 2 * a) + dx * 2)
      with (dx * (1 + 2 * (b + 1)) - dy * (1 + 2 * a)) by ring.
    destruct (IH a (b + 1) (x0 + a * sx, y0 + b * sy) Ha ltac:(lia) ltac:(lia))
      as (F & S & Hd & T).
    cbn [visited exit]. repeat split.
    + constructor; [exact Hhere|].
      eapply Forall_impl; [exact F|].
      intros c (a' & b' & ? & ? & ?). exists a', b'. repeat split; auto; lia.
    + destruct (visited _) as [|c' rest]; [exact I|].
      injection Hd as ->. cbn [fst snd]. lia.
    + exact S.
    + intros E. right. apply T. exact E.
Qed.

(** The walk of [cast_run] between two [int32] cells. *)
Lemma cast_run_walk p0 p1 g :
  int32_cell p0 -> int32_cell p1 ->
  Forall (in_rectangle p0 p1) (visited (cast_run p0 p1 g)) /\
  one_cell_steps (visited (cast_run p0 p1 g)) /\
  (exit (cast_run p0 p1 g) = ExitTarget -> In p1 (visited (cast_run p0 p1 g))).
Proof.
  intros [H0x H0y] [H1x H1y].
  destruct p0 as [x0 y0], p1 as [x1 y1]. cbn [fst snd] in *.
  unfold is_int32 in *.
  pose proof (cast_loop_run_walk g
                (fst (ray_inc (x0, y0) (x1, y1))) (snd (ray_inc (x0, y0) (x1, y1)))
                (Z.abs (x1 - x0)) (Z.abs (y1 - y0)) (x1, y1) x0 y0) as L.
  unfold ray_inc in L. cbn [fst snd] in L.
  specialize (L ltac:(destruct (x0 <? x1); reflexivity)
                ltac:(destruct (y0 <? y1); reflexivity)).
  assert (Hbox : forall a b, 0 <= a <= Z.abs (x1 - x0) -> 0 <= b <= Z.abs (y1 - y0) ->
            is_int32 (x0 + a * (if x0 <? x1 then 1 else -1)) /\
            is_int32 (y0 + b * (if y0 <? y1 then 1 else -1))).
  { intros a b Ha Hb. unfold is_int32.
    destruct (Z.ltb_spec x0 x1), (Z.ltb_spec y0 y1); lia. }
  specialize (L Hbox (Z.to_nat (ray_steps (x0, y0) (x1, y1))) 0 0 (x0, y0)
                ltac:(lia) ltac:(lia)).
  unfold ray_steps in L. cbn [fst snd] in L.
  specialize (L ltac:(lia)).
  replace (x0 + 0 * _) with x0 in L by ring.
  replace (y0 + 0 * _) with y0 in L by ring.
  replace (Z.abs (x1 - x0) * (1 + 2 * 0) - Z.abs (y1 - y0) * (1 + 2 * 0))
    with (Z.abs (x1 - x0) - Z.abs (y1 - y0)) in L by ring.
  unfold cast_run, ray_steps, ray_inc. cbn [fst snd].
  cbn zeta in L. destruct L as (F & S & _ & T). repeat split.
  - eapply Forall_impl; [exact F|].
    intros c (a & b & Ha & Hb & ->). unfold in_rectangle. cbn [fst snd].
    destruct (Z.ltb_spec x0 x1), (Z.ltb_spec y0 y1); lia.
  - exact S.
  - intros E. specialize (T E).
    replace (x0 + Z.abs (x1 - x0) * (if x0 <? x1 then 1 else -1)) with x1 in T
      by (destruct (Z.ltb_spec x0 x1); lia).
    replace (y0 + Z.abs (y1 - y0) * (if y0 <? y1 then 1 else -1)) with y1 in T
      by (destruct (Z.ltb_spec y0 y1); lia).
    exact T.
Qed.

Lemma last_default_or_In (vs : list cell) (d : cell) :
  List.last vs d = d \/ In (List.last vs d) vs.
Proof.
  induction vs as [|v vs IH]; [left; reflexivity|].
  destruct vs as [|w vs]; [right; left; reflexivity|].
  change (List.last (v :: w :: vs) d) with (List.last (w :: vs) d).
  destruct IH as [IH | IH]; [|right; right; exact IH].
  right. right. destruct vs as [|u vs].
  - left. reflexivity.
  - clear IH. assert (H : forall (l : list cell) (x : cell), In (List.last (x :: l) d) (x :: l)).
    { induction l as [|y l IHl]; intros x; [left; reflexivity|].
      change (List.last (x :: y :: l) d) with (List.last (y :: l) d).
      right. apply IHl. }
    apply H.
Qed.

Lemma in_rectangle_ends p0 p1 : in_rectangle p0 p1 p0 /\ in_rectangle p0 p1 p1.
Proof. unfold in_rectangle. lia. Qed.

(** X11: the cells on which the loop of [_CastRay] runs form a path from
    the origin: every step moves one cell along one axis, and no cell lies
    outside the rectangle spanned by the origin and the target; the cell
    that is returned lies in that rectangle too. *)
Theorem castray_walks_inside_rectangle p0 p1 g :
  int32_cell p0 -> int32_cell p1 ->
  hd_error (visited (cast_run p0 p1 g)) = Some p0 /\
  one_cell_steps (visited (cast_run p0 p1 g)) /\
  Forall (in_rectangle p0 p1) (visited (cast_run p0 p1 g)) /\
  in_rectangle p0 p1 (_CastRay p0 p1 g).
Proof.
  intros H0 H1.
  destruct (cast_run_walk p0 p1 g H0 H1) as (F & S & _).
  pose proof (cast_run_starts_at_origin p0 p1 g) as Hd.
  rewrite <- cast_run_result.
  pose proof (cast_run_shape p0 p1 g) as Hs.
  destruct (cast_run p0 p1 g) as [vs e res]. cbn [visited result exit] in *.
  split; [destruct Hd as [vs' ->]; reflexivity|].
  split; [exact S|]. split; [exact F|].
  inversion Hs; subst.
  - apply in_rectangle_ends.
  - rewrite Forall_forall in F. apply F, list_elem_of_In, in_or_app. right. left. reflexivity.
  - destruct (last_default_or_In vs0 p0) as [-> | Hin].
    + apply in_rectangle_ends.
    + rewrite Forall_forall in F. apply F, list_elem_of_In, in_or_app. left. exact Hin.
Qed.

(** X12: a ray cast from a cell of the grid returns a cell of the grid,
    whatever the target and the contents of the grid. *)
Theorem castray_from_grid_returns_grid_cell p0 p1 g :
  int32_cell p0 -> int32_cell p1 ->
  in_bounds g p0 = true ->
  in_bounds g (_CastRay p0 p1 g) = true.
Proof.
  intros H0 H1 Hb.
  destruct (cast_run_walk p0 p1 g H0 H1) as (_ & _ & T).
  rewrite <- cast_run_result.
  pose proof (cast_run_shape p0 p1 g) as Hs.
  destruct (cast_run p0 p1 g) as [vs e res]. cbn [visited result exit] in *.
  inversion Hs; subst.
  - specialize (T eq_refl). rewrite Forall_forall in H2. apply H2, list_elem_of_In. exact T.
  - assumption.
  - destruct (last_default_or_In vs0 p0) as [-> | Hin]; [exact Hb|].
    rewrite Forall_forall in H3. apply H3, list_elem_of_In. exact Hin.
Qed.

(** * More on the sensor update *)

Section SensorBounds.
Local Open Scope R_scope.

(** X13: the likelihood of a beam depends on the distance between the
    measured and the simulated range only, and it does not grow with that
    distance: it is largest when the two ranges are equal. *)
Theorem beam_likelihood_decreases_with_error (r s1 s2 : R) :
  Rabs (r - s1) <= Rabs (r - s2) ->
  beam_likelihood r s2 <= beam_likelihood r s1 /\
  beam_likelihood r s1 <= beam_likelihood r r.
Proof.
  intros H. split; [apply beam_likelihood_order; exact H|].
  rewrite beam_likelihood_exact. apply beam_likelihood_le_peak.
Qed.

(** X14: [UpdateScan] on a particle returns normally and writes the weight
    of the particle only: the particle keeps its time stamp and its
    references to the grid and to the pose object, and no other object of
    the store changes. *)
Theorem Particle_UpdateScan_frame h self scan me pose grid :
  particle_objs h !! self = Some me ->
  pose_objs h !! Particle.map_T_particle me = Some pose ->
  grid_objs h !! Particle.grid me = Some grid ->
  length (Scan.angles scan) = length (Scan.ranges scan) ->
  let h' := snd (Particle_UpdateScan self scan h) in
  fst (Particle_UpdateScan self scan h) = Returned tt /\
  (exists me', particle_objs h' !! self = Some me' /\
               Particle.last_odom_timestamp me' = Particle.last_odom_timestamp me /\
               Particle.grid me' = Particle.grid me /\
               Particle.map_T_particle me' = Particle.map_T_particle me) /\
  pose_objs h' = pose_objs h /\
  grid_objs h' = grid_objs h /\
  filter_objs h' = filter_objs h /\
  (forall l, l <> self -> particle_objs h' !! l = particle_objs h !! l).
Proof.
  intros Hme Hpose Hgrid Hlen h'. subst h'.
  rewrite (Particle_UpdateScan_run h self scan me pose grid Hme Hpose Hgrid Hlen).
  cbn [fst snd particle_objs pose_objs grid_objs filter_objs].
  split; [reflexivity|]. split.
  { eexists. split; [apply lookup_insert_eq|]. cbn. auto. }
  do 3 (split; [reflexivity|]).
  intros l Hl. apply lookup_insert_ne. congruence.
Qed.

End SensorBounds.

Section SimulatedRangeFacts.
Local Open Scope R_scope.

Lemma castray_blocked_origin p0 p1 g :
  in_bounds g p0 = false \/ grid_at g (snd p0) (fst p0) <> 0%Z ->
  _CastRay p0 p1 g = p0.
Proof.
  intros H. unfold _CastRay. cbn zeta.
  destruct (Z.to_nat (ray_steps p0 p1)) as [|k] eqn:Hk.
  - pose proof (ray_steps_pos p0 p1). lia.
  - cbn [cast_loop]. destruct (in_bounds g p0); cbn [negb]; [|reflexivity].
    destruct H as [H | H]; [discriminate|].
    apply Z.eqb_neq in H. rewrite H. reflexivity.
Qed.

(** X16: a particle whose own cell is outside the array, or is not free,
    gets the simulated range [0] on every beam. *)
Theorem blocked_particle_simulates_zero_ranges (pose : Pose.t) (grid : Grid.t)
    (scan : Scan.t) :
  let src_cell := Grid.WorldToGrid grid (Pose.translation pose) in
  in_bounds (Grid.data grid) src_cell = false \/
  grid_at (Grid.data grid) (snd src_cell) (fst src_cell) <> 0%Z ->
  sim_ranges_of pose grid scan = map (fun _ => Finite 0) (Scan.angles scan).
Proof.
  intros src_cell H.
  unfold sim_ranges_of, _ComputeSimulatedRanges.
  change (astype_int32 (vdiv (vsub (Pose.translation pose)
                                    (Pose.translation (Grid.world_T_map grid)))
                             (Grid.resolution grid))) with src_cell.
  rewrite !map_map. apply map_ext. intros a.
  rewrite castray_blocked_origin by exact H.
  rewrite !Z.sub_diag.
  change (IZR (wrap32 (wrap32 0 * wrap32 0) + wrap32 (wrap32 0 * wrap32 0))) with 0.
  unfold np_sqrt. destruct (Rlt_dec 0 0) as [H0 | _]; [lra|].
  rewrite sqrt_0. cbn [f64_scale]. f_equal. ring.
Qed.
End SimulatedRangeFacts.

(** * More on the motion update *)

Section OdomMore.
Local Open Scope R_scope.

(** X17: the first odometry message that a particle sees only sets its
    time stamp: the elapsed time is [0] and the pose stays as it is,
    whatever the velocities and the noise. *)
Theorem Particle_UpdateOdom_first_message_keeps_pose h self odom_msg z me pose :
  particle_objs h !! self = Some me ->
  pose_objs h !! Particle.map_T_particle me = Some pose ->
  Particle.last_odom_timestamp me = None ->
  let h' := snd (Particle_UpdateOdom self odom_msg z h) in
  fst (Particle_UpdateOdom self odom_msg z h) = Returned tt /\
  pose_objs h' !! Particle.map_T_particle me = Some pose /\
  exists me', particle_objs h' !! self = Some me' /\
              Particle.last_odom_timestamp me' = Some (odom_stamp odom_msg).
Proof.
  intros Hme Hpose Hts h'. subst h'.
  rewrite (Particle_UpdateOdom_run h self odom_msg z me pose Hme Hpose).
  cbn [fst snd particle_objs pose_objs].
  split; [reflexivity|]. split.
  - rewrite lookup_insert_eq. f_equal.
    unfold moved_pose. rewrite Hts. destruct pose as [rot [x y]].
    unfold vadd, vscale. cbn [Pose.rotation Pose.translation fst snd].
    f_equal; [ring | f_equal; ring].
  - eexists. split; [apply lookup_insert_eq | reflexivity].
Qed.

(** X18: after a message that comes [dt] seconds after the last one the
    particle has turned by the noisy angular velocity times [dt], and it
    has moved, whatever its heading, by the noisy linear speed times
    [dt]. *)
Theorem Particle_UpdateOdom_displacement h self odom_msg z me pose t :
  particle_objs h !! self = Some me ->
  pose_objs h !! Particle.map_T_particle me = Some pose ->
  Particle.last_odom_timestamp me = Some t ->
  let dt := to_sec (odom_stamp odom_msg - t) in
  let velx := linear_x odom_msg + LINEAR_MODEL_VAR_X * z_x z in
  let vely := linear_y odom_msg + LINEAR_MODEL_VAR_Y * z_y z in
  let velrot := angular_z odom_msg + ANGULAR_MODEL_VAR * z_w z in
  exists pose',
    pose_objs (snd (Particle_UpdateOdom self odom_msg z h)) !! Particle.map_T_particle me
    = Some pose' /\
    Pose.rotation pose' = Pose.rotation pose + velrot * dt /\
    norm_sq (vsub (Pose.translation pose') (Pose.translation pose))
    = dt * dt * (velx * velx + vely * vely).
Proof.
  intros Hme Hpose Hts dt velx vely velrot.
  rewrite (Particle_UpdateOdom_run h self odom_msg z me pose Hme Hpose).
  cbn [snd pose_objs]. eexists. split; [apply lookup_insert_eq|].
  unfold moved_pose. rewrite Hts. fold dt velx vely velrot.
  cbn [Pose.rotation Pose.translation]. split; [reflexivity|].
  destruct pose as [rot [x y]]. cbn [Pose.rotation Pose.translation].
  unfold norm_sq, vsub, vadd, vscale, RotateBy. cbn [fst snd].
  pose proof (sin2_cos2 rot) as H. unfold Rsqr in H.
  transitivity (dt * dt * ((sin rot * sin rot + cos rot * cos rot) * (velx * velx + vely * vely)));
    [ring | rewrite H; ring].
Qed.
End OdomMore.

(** * More on [Particle.__init__] *)

Section InitMore.
Local Open Scope R_scope.

Lemma sample_free_returned grid : forall (drawn : list vec2) t h h',
  sample_free grid drawn h = (Returned t, h') ->
  h' = h /\
  Grid.GetWorldCoords grid t = Some 0%Z /\
  exists rejected rest,
    drawn = rejected ++ t :: rest /\
    Forall (fun p => exists v, Grid.GetWorldCoords grid p = Some v /\ v <> 0%Z) rejected.
Proof.
  induction drawn as [|p drawn IH]; intros t h h' Hrun; [discriminate|].
  cbn [sample_free] in Hrun.
  destruct (Grid.GetWorldCoords grid p) as [v|] eqn:Hv; [|discriminate].
  destruct (Z.eqb_spec v 0) as [-> | Hnz].
  - injection Hrun as -> ->. split; [reflexivity|]. split; [exact Hv|].
    exists [], drawn. split; [reflexivity | constructor].
  - destruct (IH t h h' Hrun) as (E & Ht & rejected & rest & -> & Hrej).
    split; [exact E|]. split; [exact Ht|].
    exists (p :: rejected), rest. split; [reflexivity|].
    constructor; [eauto | exact Hrej].
Qed.

(** X19: when [Particle.__init__] returns, the new particle stands on the
    first drawn position whose cell is free: the positions drawn before it
    are on cells that are not free.  It has the drawn heading, the weight
    it was given and no time stamp, and it refers to the grid it was given;
    the particle and its pose are new objects. *)
Theorem Particle_init_places_on_first_free_cell grid G draws w h l h' :
  grid_objs h !! grid = Some G ->
  Particle_init grid draws w h = (Returned l, h') ->
  exists q t rejected rest,
    particle_objs h' !! l = Some (Particle.mk grid q None w) /\
    pose_objs h' !! q = Some (Pose.mk (heading draws) t) /\
    particle_objs h !! l = None /\ pose_objs h !! q = None /\
    Grid.GetWorldCoords G t = Some 0%Z /\
    positions draws = rejected ++ t :: rest /\
    Forall (fun p => exists v, Grid.GetWorldCoords G p = Some v /\ v <> 0%Z) rejected.
Proof.
  intros HG Hrun. unfold Particle_init in Hrun.
  rewrite (bind_returned _ _ h G h) in Hrun by (apply read_some; exact HG).
  unfold bind at 1 in Hrun.
  destruct (sample_free G (positions draws) h) as [[t| | |] h1] eqn:Hs; try discriminate.
  destruct (sample_free_returned G _ _ _ _ Hs) as (-> & Ht & rejected & rest & Hpos & Hrej).
  cbn in Hrun. injection Hrun as <- <-.
  exists (fresh (dom (pose_objs h))), t, rejected, rest.
  cbn [particle_objs pose_objs].
  rewrite !lookup_insert_eq, !fresh_lookup. auto 10.
Qed.

(** X20: a drawn position whose cell index is outside the array ends
    [Particle.__init__] with an [IndexError], when the positions drawn
    before it were on cells that are not free; no object is built. *)
Theorem Particle_init_draw_outside_array_raises grid G draws w h rejected p rest :
  grid_objs h !! grid = Some G ->
  positions draws = rejected ++ p :: rest ->
  Forall (fun p => exists v, Grid.GetWorldCoords G p = Some v /\ v <> 0%Z) rejected ->
  Grid.GetWorldCoords G p = None ->
  Particle_init grid draws w h = (Raised IndexError, h).
Proof.
  intros HG Hpos Hrej Hp. unfold Particle_init.
  rewrite (bind_returned _ _ h G h) by (apply read_some; exact HG).
  unfold bind at 1. rewrite Hpos. clear Hpos.
  assert (Hs : sample_free G (rejected ++ p :: rest) h = (Raised IndexError, h)).
  { induction Hrej as [|p' ps (v & Hv & Hnz) _ IH].
    - cbn [app sample_free]. rewrite Hp. reflexivity.
    - cbn [app sample_free]. rewrite Hv. apply Z.eqb_neq in Hnz. rewrite Hnz. exact IH. }
  rewrite Hs. reflexivity.
Qed.
End InitMore.

(** * The constructor of the filter *)

Section FilterInit.
Local Open Scope R_scope.

Lemma samples_free_cell G positions t :
  samples G positions t -> Grid.GetWorldCoords G t = Some 0%Z.
Proof.
  intros H. specialize (H (mk_heap ∅ ∅ ∅ ∅)).
  apply sample_free_returned in H. apply H.
Qed.

Lemma elem_of_pose_locs h ps q :
  q ∈ pose_locs h ps ->
  exists l me, l ∈ ps /\ particle_objs h !! l = Some me /\ Particle.map_T_particle me = q.
Proof.
  unfold pose_locs. intros H. apply list_elem_of_omap in H as (l & Hl & Hq).
  destruct (particle_objs h !! l) as [me|] eqn:Hme; [|discriminate].
  exists l, me. split; [exact Hl|]. split; [exact Hme|]. cbn in Hq. congruence.
Qed.

(** The list comprehension of [ParticleFilter.__init__]: the particles it
    builds are new objects with new pose objects, on free cells, and they
    all refer to the one grid object. *)
Lemma collect_Particle_init_built grid G (draws : nat -> init_draws) w :
  (forall i, exists t, samples G (positions (draws i)) t) ->
  forall idx h,
    grid_objs h !! grid = Some G ->
    exists ps h',
      collect (fun i => Particle_init grid (draws i) w) idx h = (Returned ps, h') /\
      length ps = length idx /\
      heap_ext h h' /\
      grid_objs h' = grid_objs h /\
      Forall (fun l => exists q i t,
                particle_objs h' !! l = Some (Particle.mk grid q None w) /\
                pose_objs h' !! q = Some (Pose.mk (heading (draws i)) t) /\
                samples G (positions (draws i)) t /\
                particle_objs h !! l = None /\ pose_objs h !! q = None) ps /\
      NoDup ps /\ NoDup (pose_locs h' ps).
Proof.
  intros Hdraws. induction idx as [|i idx IH]; intros h HG.
  { exists [], h. split; [reflexivity|]. split; [reflexivity|].
    split; [apply heap_ext_refl|]. split; [reflexivity|].
    split; [constructor|]. split; constructor. }
  destruct (Hdraws i) as [t Ht].
  pose proof (Particle_init_run grid G (draws i) t w h HG Ht) as Hstep.
  pose proof (fresh_lookup (particle_objs h)) as Hlp.
  pose proof (fresh_lookup (pose_objs h)) as Hlq.
  set (lp := fresh (dom (particle_objs h))) in *.
  set (lq := fresh (dom (pose_objs h))) in *.
  set (h1 := mk_heap _ _ _ _) in Hstep.
  assert (H01 : heap_ext h h1).
  { subst h1. unfold heap_ext. cbn.
    split; [apply insert_subseteq; exact Hlp|].
    split; [apply insert_subseteq; exact Hlq|]. auto. }
  destruct (IH h1 HG) as (ps & h' & Hrun & Hlen & H1' & HG' & Hall & Hnd & Hndq).
  assert (Hlp' : particle_objs h' !! lp = Some (Particle.mk grid lq None w)).
  { destruct H1' as (E & _). eapply lookup_weaken; [|exact E].
    subst h1. cbn. apply lookup_insert_eq. }
  assert (Hlq' : pose_objs h' !! lq = Some (Pose.mk (heading (draws i)) t)).
  { destruct H1' as (_ & E & _). eapply lookup_weaken; [|exact E].
    subst h1. cbn. apply lookup_insert_eq. }
  exists (lp :: ps), h'. split; [|split; [|split; [|split; [|split; [|split]]]]].
  - cbn [collect]. rewrite (bind_returned _ _ _ _ _ Hstep).
    rewrite (bind_returned _ _ _ _ _ Hrun). reflexivity.
  - cbn. lia.
  - eapply heap_ext_trans; eassumption.
  - rewrite HG'. reflexivity.
  - constructor.
    + exists lq, i, t. auto.
    + eapply Forall_impl; [exact Hall|].
      intros l (q & i' & t' & A1 & A2 & A3 & A4 & A5). exists q, i', t'.
      split; [exact A1|]. split; [exact A2|]. split; [exact A3|].
      subst h1. cbn in A4, A5. split.
      * destruct (decide (l = lp)) as [-> | Hne];
          [rewrite lookup_insert_eq in A4; discriminate|].
        rewrite lookup_insert_ne in A4 by congruence. exact A4.
      * destruct (decide (q = lq)) as [-> | Hne];
          [rewrite lookup_insert_eq in A5; discriminate|].
        rewrite lookup_insert_ne in A5 by congruence. exact A5.
  - constructor; [|exact Hnd].
    intros Hin. rewrite Forall_forall in Hall.
    destruct (Hall lp Hin) as (q & i' & t' & _ & _ & _ & A4 & _).
    subst h1. cbn in A4. rewrite lookup_insert_eq in A4. discriminate.
  - rewrite (pose_locs_cons h' lp ps _ Hlp'). cbn [Particle.map_T_particle].
    constructor; [|exact Hndq].
    intros Hin. apply elem_of_pose_locs in Hin as (l & me & Hl & Hme & Hq).
    rewrite Forall_forall in Hall.
    destruct (Hall l Hl) as (q & i' & t' & A1 & _ & _ & _ & A5).
    rewrite A1 in Hme. injection Hme as <-. cbn in Hq. subst q.
    subst h1. cbn in A5. rewrite lookup_insert_eq in A5. discriminate.
Qed.

(** X21: when every sampling loop finds a free cell,
    [ParticleFilter(grid, num_particles)] returns a filter without time
    stamp that holds [num_particles] particles.  Each of them has the weight
    [1], no time stamp and a pose on a free cell; they are different
    objects with different pose objects, and they all refer to the one grid
    object, which is not copied. *)
Theorem ParticleFilter_init_builds_population grid G n (draws : nat -> init_draws) h :
  grid_objs h !! grid = Some G ->
  (forall i, exists t, samples G (positions (draws i)) t) ->
  exists self ps h',
    ParticleFilter_init grid n draws h = (Returned self, h') /\
    filter_objs h' !! self = Some (ParticleFilter.mk grid None ps) /\
    length ps = n /\
    Forall (built_particle h' grid G) ps /\
    NoDup ps /\ NoDup (pose_locs h' ps) /\
    grid_objs h' = grid_objs h.
Proof.
  intros HG Hdraws.
  destruct (collect_Particle_init_built grid G draws 1 Hdraws (seq 0 n) h HG)
    as (ps & h1 & Hrun & Hlen & _ & HG1 & Hall & Hnd & Hndq).
  exists (fresh (dom (filter_objs h1))), ps.
  eexists. split; [|split; [|split; [|split; [|split; [|split]]]]].
  - unfold ParticleFilter_init. rewrite (bind_returned _ _ _ _ _ Hrun). reflexivity.
  - cbn. apply lookup_insert_eq.
  - rewrite Hlen. apply length_seq.
  - eapply Forall_impl; [exact Hall|].
    intros l (q & i & t & A1 & A2 & A3 & _). exists q, (Pose.mk (heading (draws i)) t).
    split; [exact A1|]. split; [exact A2|]. apply (samples_free_cell _ _ _ A3).
  - exact Hnd.
  - exact Hndq.
  - exact HG1.
Qed.
End FilterInit.

(** * Events of the filter *)

Section FilterEvents.
Local Open Scope R_scope.

Lemma init_timestamp_filter h self f stamp :
  filter_objs h !! self = Some f ->
  exists h1,
    init_timestamp self stamp h = (Returned tt, h1) /\
    filter_objs h1 !! self =
      Some (ParticleFilter.mk (ParticleFilter.grid f)
              (Some (default stamp (ParticleFilter.last_timestamp f)))
              (ParticleFilter.particles f)) /\
    particle_objs h1 = particle_objs h /\
    pose_objs h1 = pose_objs h /\
    grid_objs h1 = grid_objs h.
Proof.
  intros Hf. unfold init_timestamp.
  rewrite (bind_returned _ _ h f h) by (apply read_some; exact Hf).
  destruct f as [g [t|] ps]; cbn.
  - exists h. auto.
  - eexists. split; [reflexivity|]. cbn. split; [apply lookup_insert_eq | auto].
Qed.

(** X22: an odometry event returns normally on any population.  The filter
    keeps its particles, and its time stamp unless it had none: the stamp
    of the first message stays.  Every particle keeps its weight and its
    references to its grid and pose objects, and no grid object changes. *)
Theorem ParticleFilter_UpdateOdom_keeps_population h self ps f odom_msg noise :
  population h self ps ->
  filter_objs h !! self = Some f ->
  exists h',
    ParticleFilter_UpdateOdom self odom_msg noise h = (Returned tt, h') /\
    population h' self ps /\
    filter_objs h' !! self =
      Some (ParticleFilter.mk (ParticleFilter.grid f)
              (Some (default (odom_stamp odom_msg) (ParticleFilter.last_timestamp f)))
              ps) /\
    grid_objs h' = grid_objs h /\
    forall l me, particle_objs h !! l = Some me ->
      exists me', particle_objs h' !! l = Some me' /\
                  Particle.weight me' = Particle.weight me /\
                  Particle.grid me' = Particle.grid me /\
                  Particle.map_T_particle me' = Particle.map_T_particle me.
Proof.
  intros Hpop Hf.
  pose proof Hpop as [(f0 & Hf0 & Hps) Hlive].
  assert (f0 = f) by congruence. subst f0.
  destruct (init_timestamp_filter h self f (odom_stamp odom_msg) Hf)
    as (h1 & Hrun1 & Hf1 & EP & EQ & EG).
  assert (Hlive1 : Forall (live_particle h1) ps).
  { eapply Forall_impl; [exact Hlive|].
    intros l (me & A1 & A2 & A3). exists me. rewrite EP, EQ, EG. auto. }
  destruct (for_each_UpdateOdom_run odom_msg noise (combine (seq 0 (length ps)) ps) h1)
    as (h2 & Hrun2 & H12).
  { apply Forall_forall. intros [i l] Hin. apply list_elem_of_In, in_combine_r in Hin.
    rewrite Forall_forall in Hlive1. apply Hlive1, list_elem_of_In. exact Hin. }
  pose proof H12 as (A1 & A2 & A3 & A4).
  exists h2. split; [|split; [|split; [|split]]].
  - unfold ParticleFilter_UpdateOdom. rewrite (bind_returned _ _ _ _ _ Hrun1).
    erewrite bind_returned by (apply read_some; exact Hf1).
    cbn [ParticleFilter.particles]. rewrite Hps. exact Hrun2.
  - split.
    + eexists. rewrite A2. split; [exact Hf1 | exact Hps].
    + eapply Forall_impl; [exact Hlive1|]. intros l. apply odom_moved_live. exact H12.
  - rewrite A2, Hf1, Hps. reflexivity.
  - rewrite A1. exact EG.
  - intros l me Hme. specialize (A4 l). rewrite EP, Hme in A4.
    inversion A4 as [a me' (B1 & B2 & B3) Ea Eb |]; subst.
    exists me'. auto.
Qed.






End FilterEvents.

(** * Weights that the sampler rejects *)

Section DegenerateWeights.
Local Open Scope R_scope.
















End DegenerateWeights.


(** * The mean pose *)

Section MeanPoseFacts.
Local Open Scope R_scope.

Lemma sum_poses_between h (lo hi : Pose.t) : forall ps st sr,
  Forall (fun l => exists pose, pose_of h l = Some pose /\ pose_between lo hi pose) ps ->
  exists st' sr',
    sum_poses h ps st sr = Some (st', sr') /\
    sr + INR (length ps) * Pose.rotation lo <= sr' <= sr + INR (length ps) * Pose.rotation hi /\
    fst st + INR (length ps) * fst (Pose.translation lo) <= fst st'
      <= fst st + INR (length ps) * fst (Pose.translation hi) /\
    snd st + INR (length ps) * snd (Pose.translation lo) <= snd st'
      <= snd st + INR (length ps) * snd (Pose.translation hi).
Proof.
  induction ps as [|l ps IH]; intros st sr Hall.
  - exists st, sr. cbn. split; [reflexivity|]. lra.
  - inversion Hall as [|? ? (pose & Hp & Hr & Hx & Hy) Hrest]; subst.
    cbn [sum_poses]. rewrite Hp.
    destruct (IH (vadd st (Pose.translation pose)) (sr + Pose.rotation pose) Hrest)
      as (st' & sr' & Hrun & Br & Bx & By).
    exists st', sr'. split; [exact Hrun|].
    change (length (l :: ps)) with (S (length ps)). rewrite S_INR.
    unfold vadd in Bx, By. cbn [fst snd] in Bx, By. lra.
Qed.

Lemma mean_between n lo hi s :
  0 < n -> n * lo <= s <= n * hi -> lo <= s / n <= hi.
Proof.
  intros Hn [Hl Hu]. split.
  - apply (Rmult_le_reg_l n); [exact Hn|]. unfold Rdiv.
    replace (n * (s * / n)) with s by (field; lra). exact Hl.
  - apply (Rmult_le_reg_l n); [exact Hn|]. unfold Rdiv.
    replace (n * (s * / n)) with s by (field; lra). exact Hu.
Qed.

(** The mean pose of a population that is not empty, from the sums of the
    loop. *)
Lemma GetMeanPose_of_sums h self ps st sr :
  population h self ps -> ps <> [] ->
  sum_poses h ps (0, 0) 0 = Some (st, sr) ->
  GetMeanPose h self
  = MeanPose (Pose.mk (sr / INR (length ps)) (vdiv st (INR (length ps)))).
Proof.
  intros [(f & Hf & Hps) _] Hne Hrun.
  unfold GetMeanPose. rewrite Hf, Hps. cbn zeta. rewrite Hrun.
  destruct ps as [|l ps']; [contradiction | reflexivity].
Qed.

(** X24: on a population that is not empty [GetMeanPose] returns a pose
    whose rotation and coordinates lie between the smallest and the largest
    ones among the particles; particles that all have the same pose give
    that pose. *)
Theorem GetMeanPose_between_extremes h self ps (lo hi : Pose.t) :
  population h self ps -> ps <> [] ->
  Forall (fun l => exists pose, pose_of h l = Some pose /\ pose_between lo hi pose) ps ->
  exists mean, GetMeanPose h self = MeanPose mean /\ pose_between lo hi mean.
Proof.
  intros Hpop Hne Hall.
  destruct (sum_poses_between h lo hi ps (0, 0) 0 Hall) as (st & sr & Hrun & Br & Bx & By).
  rewrite (GetMeanPose_of_sums h self ps st sr Hpop Hne Hrun).
  assert (Hn : 0 < INR (length ps)).
  { apply lt_0_INR. destruct ps; [contradiction | cbn; lia]. }
  eexists. split; [reflexivity|].
  unfold pose_between, vdiv. cbn [Pose.rotation Pose.translation fst snd] in *.
  split; [|split]; apply mean_between; try exact Hn; lra.
Qed.

(** X25: on a filter without particles [GetMeanPose] raises
    [ZeroDivisionError]. *)
Theorem GetMeanPose_without_particles_raises h self :
  population h self [] -> GetMeanPose h self = ZeroDivisionError.
Proof.
  intros [(f & Hf & Hps) _]. unfold GetMeanPose. rewrite Hf, Hps. reflexivity.
Qed.

Lemma sum_poses_ext h h' : (forall l, pose_of h' l = pose_of h l) ->
  forall ps st sr, sum_poses h' ps st sr = sum_poses h ps st sr.
Proof.
  intros E. induction ps as [|l ps IH]; intros st sr; [reflexivity|].
  cbn [sum_poses]. rewrite E. destruct (pose_of h l); [apply IH | reflexivity].
Qed.

(** X26: the mean pose does not depend on the weights: a sensor update of
    a particle, which changes its weight, leaves the mean pose of every
    filter as it was. *)
Theorem GetMeanPose_ignores_weights h particle scan me pose grid self :
  particle_objs h !! particle = Some me ->
  pose_objs h !! Particle.map_T_particle me = Some pose ->
  grid_objs h !! Particle.grid me = Some grid ->
  length (Scan.angles scan) = length (Scan.ranges scan) ->
  GetMeanPose (snd (Particle_UpdateScan particle scan h)) self = GetMeanPose h self.
Proof.
  intros Hme Hpose Hgrid Hlen.
  rewrite (Particle_UpdateScan_run h particle scan me pose grid Hme Hpose Hgrid Hlen).
  cbn [snd]. unfold GetMeanPose. cbn [filter_objs].
  destruct (filter_objs h !! self) as [f|]; [|reflexivity].
  cbn zeta. rewrite sum_poses_ext with (h := h); [reflexivity|].
  intros l. unfold pose_of. cbn [particle_objs pose_objs].
  destruct (decide (l = particle)) as [-> | Hne].
  - rewrite lookup_insert_eq, Hme. reflexivity.
  - rewrite lookup_insert_ne by congruence. reflexivity.
Qed.
End MeanPoseFacts.

(** * Scans *)

Section ScanInitFacts.
Local Open Scope R_scope.

(** X27: [Scan.__init__] gives every range its angle: there are as many
    angles as ranges; with two beams or more the angles go from [angle_min]
    to [angle_max] in equal steps, and the angle of a single beam is
    [angle_min]. *)
Theorem Scan_init_spreads_angles (scan_msg : LaserScan) :
  let scan := Scan.init scan_msg in
  let n := length (msg_ranges scan_msg) in
  let step := (angle_max scan_msg - angle_min scan_msg) / INR (n - 1) in
  length (Scan.angles scan) = length (Scan.ranges scan) /\
  ((2 <= n)%nat ->
     (forall i, (i < n)%nat ->
        Scan.angles scan !! i = Some (angle_min scan_msg + INR i * step)) /\
     Scan.angles scan !! (n - 1)%nat = Some (angle_max scan_msg)) /\
  (n = 1%nat -> Scan.angles scan = [angle_min scan_msg]).
Proof.
  intros scan n step. split; [apply Scan_init_lengths|].
  split.
  - intros Hn.
    assert (Hnth : forall i, (i < n)%nat ->
              Scan.angles scan !! i = Some (angle_min scan_msg + INR i * step)).
    { intros i Hi. subst scan step. unfold Scan.init. cbn [Scan.angles]. fold n.
      unfold linspace. destruct n as [|[|k]] eqn:En; [lia | lia |].
      rewrite list_lookup_fmap, lookup_seq_lt by lia. reflexivity. }
    split; [exact Hnth|].
    rewrite Hnth by lia. f_equal. subst step.
    assert (0 < INR (n - 1)) by (apply lt_0_INR; lia).
    field. lra.
  - intros Hn. subst scan. unfold Scan.init. cbn [Scan.angles]. fold n.
    rewrite Hn. reflexivity.
Qed.
End ScanInitFacts.


(** * The estimate after a scan event *)

Section ScanEventEstimate.
Local Open Scope R_scope.

End ScanEventEstimate.

(** * Indices outside the map *)

Section IndexFacts.
Local Open Scope Z_scope.

Lemma np_index_None n i : np_index n i = None <-> ~ (- n <= i < n).
Proof.
  unfold np_index.
  destruct (Z.leb_spec 0 i), (Z.ltb_spec i n); cbn [andb].
  - split; [discriminate | lia].
  - destruct (Z.leb_spec (- n) i), (Z.ltb_spec i 0); cbn [andb];
      try (split; [lia | discriminate]); split; try discriminate; try lia; auto.
  - destruct (Z.leb_spec (- n) i), (Z.ltb_spec i 0); cbn [andb];
      try (split; [lia | discriminate]); split; try discriminate; try lia; auto.
  - destruct (Z.leb_spec (- n) i), (Z.ltb_spec i 0); cbn [andb];
      try (split; [lia | discriminate]); split; try discriminate; try lia; auto.
Qed.

Lemma np_index_negative n i : - n <= i < 0 -> np_index n i = Some (i + n).
Proof.
  intros H. unfold np_index.
  destruct (Z.leb_spec 0 i); [lia|]. cbn [andb].
  destruct (Z.leb_spec (- n) i); [|lia]. destruct (Z.ltb_spec i 0); [|lia]. reflexivity.
Qed.

(** X29: [GetWorldCoords] raises [IndexError] exactly when a cell index is
    less than minus the length of its axis, or at least that length.  A
    negative index above that bound raises nothing: a point up to [cols]
    cells left of the map reads, in its row, the cell that is as many
    columns away from the right edge. *)
Theorem GetWorldCoords_index_rules (g : Grid.t) (p : vec2) :
  let c := Grid.WorldToGrid g p in
  let rows := shape0 (Grid.data g) in
  let cols := shape1 (Grid.data g) in
  (Grid.GetWorldCoords g p = None <->
   ~ (- cols <= fst c < cols /\ - rows <= snd c < rows)) /\
  (- cols <= fst c < 0 -> 0 <= snd c < rows ->
   Grid.GetWorldCoords g p = Some (grid_at (Grid.data g) (snd c) (fst c + cols))).
Proof.
  intros c rows cols. unfold Grid.GetWorldCoords. fold c rows cols. split.
  - pose proof (np_index_None rows (snd c)) as Hr.
    pose proof (np_index_None cols (fst c)) as Hc.
    destruct (np_index rows (snd c)) as [r|], (np_index cols (fst c)) as [k|].
    + split; [discriminate|]. intros H. exfalso.
      assert (~ ~ (- rows <= snd c < rows)) by (intros X; apply Hr in X; discriminate).
      assert (~ ~ (- cols <= fst c < cols)) by (intros X; apply Hc in X; discriminate).
      lia.
    + split; [|reflexivity]. intros _. destruct Hc as [Hc _]. specialize (Hc eq_refl). lia.
    + split; [|reflexivity]. intros _. destruct Hr as [Hr _]. specialize (Hr eq_refl). lia.
    + split; [|reflexivity]. intros _. destruct Hr as [Hr _]. specialize (Hr eq_refl). lia.
  - intros Hx Hy. rewrite (np_index_inside rows (snd c)) by lia.
    rewrite (np_index_negative cols (fst c)) by lia. reflexivity.
Qed.
End IndexFacts.


(** * The theorems at sample inputs *)

Section MoreWitnesses.
Local Open Scope R_scope.

Lemma grid_1x1_constructed : constructed_grid grid_1x1.
Proof.
  unfold constructed_grid, grid_1x1. cbn.
  repeat split; try lia. f_equal; lra.
Qed.

Lemma WorldToGrid_grid_1x1 (x y : Z) :
  Grid.WorldToGrid grid_1x1 (IZR x, IZR y) = (x, y).
Proof.
  unfold Grid.WorldToGrid, astype_int32, vdiv, vsub.
  cbn [fst snd grid_1x1 pose_at_origin Grid.world_T_map Grid.resolution Pose.translation].
  replace ((IZR x - 0) / 1) with (IZR x) by field.
  replace ((IZR y - 0) / 1) with (IZR y) by field.
  rewrite !trunc_IZR. reflexivity.
Qed.

Lemma WorldToGrid_inside_cell_witness :
  Grid.WorldToGrid_rounded grid_1x1 (1 / 16, - 1 / 16) (1 / 2, 1 / 2) = (0, 0)%Z /\
  Grid.WorldToGrid grid_1x1 (1 / 2, 1 / 2) = (0, 0)%Z.
Proof.
  apply WorldToGrid_inside_cell.
  - cbn. lra.
  - unfold int32_cell, is_int32. cbn. lia.
  - cbn. lia.
  - cbn. lia.
  - unfold well_inside_cell, cell_corner, Grid.GridToWorld, vadd, vscale. cbn. lra.
  - unfold small_error. cbn [fst snd]. split; apply Rabs_le; lra.
Defined.

Lemma cell_corner_of_WorldToGrid_is_near_witness :
  Rabs (fst (cell_corner grid_1x1 (Grid.WorldToGrid grid_1x1 (0, 0))) - fst (0, 0))
  < Grid.resolution grid_1x1 /\
  Rabs (snd (cell_corner grid_1x1 (Grid.WorldToGrid grid_1x1 (0, 0))) - snd (0, 0))
  < Grid.resolution grid_1x1.
Proof.
  apply (cell_corner_of_WorldToGrid_is_near grid_1x1 (0, 0)).
  - cbn. lra.
  - unfold in_int32_range, vdiv, vsub. simpl. lra.
  - unfold in_int32_range, vdiv, vsub. simpl. lra.
Defined.

Lemma GetWorldCoords_inside_map_witness :
  in_bounds (Grid.data grid_1x1)
            (Grid.WorldToGrid_rounded grid_1x1 (1 / 16, - 1 / 16) (1 / 2, 1 / 2)) = true /\
  Grid.GetWorldCoords_rounded grid_1x1 (1 / 16, - 1 / 16) (1 / 2, 1 / 2)
  = Some (grid_at (Grid.data grid_1x1)
            (snd (Grid.WorldToGrid_rounded grid_1x1 (1 / 16, - 1 / 16) (1 / 2, 1 / 2)))
            (fst (Grid.WorldToGrid_rounded grid_1x1 (1 / 16, - 1 / 16) (1 / 2, 1 / 2)))).
Proof.
  apply GetWorldCoords_inside_map.
  - exact grid_1x1_constructed.
  - cbn. lra.
  - cbn. lia.
  - cbn. lia.
  - unfold well_inside_map, vadd. cbn. lra.
  - unfold small_error. cbn [fst snd]. split; apply Rabs_le; lra.
Defined.

Lemma Pose_message_round_trip_witness :
  Pose_FromGeometryMsg (Pose_ToGeometryMsg pose_at_origin) = pose_at_origin.
Proof.
  apply Pose_message_round_trip. cbn. pose proof PI_RGT_0. lra.
Defined.

Lemma Grid_init_checks_cell_count_witness :
  exists l, fst (Grid_init map_msg_1x1 heap_with_grid) = Returned l.
Proof.
  destruct (Grid_init_checks_cell_count map_msg_1x1 heap_with_grid) as [H _].
  - cbn. lia.
  - cbn. lia.
  - destruct (H eq_refl) as (l & g & Hrun & _). exists l. rewrite Hrun. reflexivity.
Defined.

Lemma Grid_message_round_trip_witness :
  exists l,
    fst (Grid_init (Grid_ToNavMsg grid_1x1) heap_with_grid) = Returned l /\
    grid_objs (snd (Grid_init (Grid_ToNavMsg grid_1x1) heap_with_grid)) !! l
    = Some grid_1x1.
Proof.
  destruct (Grid_message_round_trip grid_1x1 heap_with_grid) as (l & Hrun & _).
  - exact grid_1x1_constructed.
  - cbn. pose proof PI_RGT_0. lra.
  - exists l. rewrite Hrun. cbn. split; [reflexivity | apply lookup_insert_eq].
Defined.

Lemma castray_walks_inside_rectangle_witness :
  hd_error (visited (cast_run (0, 1)%Z (2, 1)%Z grid_wall_3x3)) = Some (0, 1)%Z /\
  one_cell_steps (visited (cast_run (0, 1)%Z (2, 1)%Z grid_wall_3x3)) /\
  Forall (in_rectangle (0, 1)%Z (2, 1)%Z) (visited (cast_run (0, 1)%Z (2, 1)%Z grid_wall_3x3)) /\
  in_rectangle (0, 1)%Z (2, 1)%Z (_CastRay (0, 1)%Z (2, 1)%Z grid_wall_3x3).
Proof.
  apply castray_walks_inside_rectangle; unfold int32_cell, is_int32; cbn; lia.
Defined.

Lemma castray_from_grid_returns_grid_cell_witness :
  in_bounds grid_wall_3x3 (_CastRay (0, 1)%Z (2, 1)%Z grid_wall_3x3) = true.
Proof.
  apply castray_from_grid_returns_grid_cell;
    [unfold int32_cell, is_int32; cbn; lia | unfold int32_cell, is_int32; cbn; lia |].
  reflexivity.
Defined.

Lemma beam_likelihood_decreases_with_error_witness :
  beam_likelihood 0 1 <= beam_likelihood 0 0 /\
  beam_likelihood 0 0 <= beam_likelihood 0 0.
Proof.
  apply beam_likelihood_decreases_with_error.
  replace (0 - 0) with 0 by ring. rewrite Rabs_R0. apply Rabs_pos.
Defined.

Lemma Particle_UpdateScan_frame_witness :
  fst (Particle_UpdateScan 1%positive (Scan.init one_beam_scan) one_particle_store)
  = Returned tt /\
  pose_objs (snd (Particle_UpdateScan 1%positive (Scan.init one_beam_scan)
                    one_particle_store)) = pose_objs one_particle_store.
Proof.
  destruct (Particle_UpdateScan_frame one_particle_store 1%positive
              (Scan.init one_beam_scan) one_particle pose_at_origin grid_1x1
              eq_refl eq_refl eq_refl eq_refl) as (H1 & _ & H3 & _).
  auto.
Defined.


Lemma blocked_particle_simulates_zero_ranges_witness :
  sim_ranges_of pose_off_map grid_1x1 scan_ahead
  = map (fun _ => Finite 0) (Scan.angles scan_ahead).
Proof.
  apply blocked_particle_simulates_zero_ranges.
  left. change (Pose.translation pose_off_map) with (IZR 5, IZR 0).
  rewrite WorldToGrid_grid_1x1. reflexivity.
Defined.

Lemma Particle_UpdateOdom_first_message_keeps_pose_witness :
  fst (Particle_UpdateOdom 1%positive odom_forward no_noise one_particle_store)
  = Returned tt /\
  pose_objs (snd (Particle_UpdateOdom 1%positive odom_forward no_noise one_particle_store))
    !! 1%positive = Some pose_at_origin.
Proof.
  destruct (Particle_UpdateOdom_first_message_keeps_pose one_particle_store 1%positive
              odom_forward no_noise one_particle pose_at_origin eq_refl eq_refl eq_refl)
    as (H1 & H2 & _).
  auto.
Defined.

Lemma Particle_UpdateOdom_displacement_witness :
  exists pose',
    pose_objs (snd (Particle_UpdateOdom 1%positive odom_forward no_noise
                      moved_particle_store)) !! 1%positive = Some pose' /\
    norm_sq (vsub (Pose.translation pose') (Pose.translation pose_at_origin))
    = to_sec (odom_stamp odom_forward - 0) * to_sec (odom_stamp odom_forward - 0)
      * ((linear_x odom_forward + LINEAR_MODEL_VAR_X * z_x no_noise)
         * (linear_x odom_forward + LINEAR_MODEL_VAR_X * z_x no_noise)
         + (linear_y odom_forward + LINEAR_MODEL_VAR_Y * z_y no_noise)
           * (linear_y odom_forward + LINEAR_MODEL_VAR_Y * z_y no_noise)).
Proof.
  destruct (Particle_UpdateOdom_displacement moved_particle_store 1%positive
              odom_forward no_noise particle_at_time_0 pose_at_origin 0%Z
              eq_refl eq_refl eq_refl) as (pose' & H1 & _ & H3).
  exists pose'. auto.
Defined.

Lemma Particle_init_places_on_first_free_cell_witness :
  exists l h' q t,
    Particle_init 1%positive draws_at_origin 1 heap_with_grid = (Returned l, h') /\
    particle_objs h' !! l = Some (Particle.mk 1%positive q None 1) /\
    pose_objs h' !! q = Some (Pose.mk (heading draws_at_origin) t) /\
    Grid.GetWorldCoords grid_1x1 t = Some 0%Z.
Proof.
  pose proof (Particle_init_run 1%positive grid_1x1 draws_at_origin (0, 0) 1 heap_with_grid
                eq_refl draws_at_origin_sample) as Hrun.
  destruct (Particle_init_places_on_first_free_cell 1%positive grid_1x1 draws_at_origin 1
              heap_with_grid _ _ eq_refl Hrun)
    as (q & t & rejected & rest & H1 & H2 & _ & _ & H5 & _).
  eexists _, _, q, t. split; [exact Hrun|]. auto.
Defined.

Lemma Particle_init_draw_outside_array_raises_witness :
  Particle_init 1%positive draws_off_map 1 heap_with_grid = (Raised IndexError, heap_with_grid).
Proof.
  apply (Particle_init_draw_outside_array_raises 1%positive grid_1x1 draws_off_map 1
           heap_with_grid [] (IZR 5, IZR 0) []).
  - reflexivity.
  - reflexivity.
  - constructor.
  - unfold Grid.GetWorldCoords. rewrite WorldToGrid_grid_1x1. reflexivity.
Defined.

Lemma ParticleFilter_init_builds_population_witness :
  exists self ps h',
    ParticleFilter_init 1%positive 3 (fun _ => draws_at_origin) heap_with_grid
    = (Returned self, h') /\
    length ps = 3%nat /\
    Forall (built_particle h' 1%positive grid_1x1) ps /\
    NoDup ps /\ NoDup (pose_locs h' ps).
Proof.
  destruct (ParticleFilter_init_builds_population 1%positive grid_1x1 3
              (fun _ => draws_at_origin) heap_with_grid eq_refl
              (fun _ => ex_intro _ _ draws_at_origin_sample))
    as (self & ps & h' & H1 & _ & H3 & H4 & H5 & H6 & _).
  exists self, ps, h'. auto.
Defined.

Lemma one_particle_filter_population :
  population one_particle_filter_store 1%positive [1%positive].
Proof.
  split.
  - eexists. split; reflexivity.
  - constructor; [|constructor].
    exists one_particle. split; [reflexivity|]. split; eexists; reflexivity.
Qed.

Lemma ParticleFilter_UpdateOdom_keeps_population_witness :
  exists h',
    ParticleFilter_UpdateOdom 1%positive odom_forward (fun _ => no_noise)
      one_particle_filter_store = (Returned tt, h') /\
    population h' 1%positive [1%positive] /\
    filter_objs h' !! 1%positive
    = Some (ParticleFilter.mk 1%positive (Some (odom_stamp odom_forward)) [1%positive]).
Proof.
  destruct (ParticleFilter_UpdateOdom_keeps_population one_particle_filter_store 1%positive
              [1%positive] (ParticleFilter.mk 1%positive None [1%positive]) odom_forward
              (fun _ => no_noise) one_particle_filter_population eq_refl)
    as (h' & H1 & H2 & H3 & _).
  exists h'. auto.
Defined.





Lemma GetMeanPose_between_extremes_witness :
  exists mean,
    GetMeanPose one_particle_filter_store 1%positive = MeanPose mean /\
    pose_between pose_at_origin pose_at_origin mean.
Proof.
  apply (GetMeanPose_between_extremes one_particle_filter_store 1%positive [1%positive]).
  - exact one_particle_filter_population.
  - discriminate.
  - constructor; [|constructor]. exists pose_at_origin. split; [reflexivity|].
    unfold pose_between. cbn. lra.
Defined.

Lemma GetMeanPose_without_particles_raises_witness :
  GetMeanPose empty_filter_store 1%positive = ZeroDivisionError.
Proof.
  apply GetMeanPose_without_particles_raises. split.
  - eexists. split; reflexivity.
  - constructor.
Defined.

Lemma GetMeanPose_ignores_weights_witness :
  GetMeanPose (snd (Particle_UpdateScan 1%positive (Scan.init one_beam_scan)
                      one_particle_filter_store)) 1%positive
  = GetMeanPose one_particle_filter_store 1%positive.
Proof.
  apply (GetMeanPose_ignores_weights one_particle_filter_store 1%positive
           (Scan.init one_beam_scan) one_particle pose_at_origin grid_1x1); reflexivity.
Defined.

End MoreWitnesses.
